(** * Ovi: GPU resource planning, collective transport and LoRA adapters

    A shallow embedding of the resource/distribution subsystem of Ovi
    ([ovi/utils/gpu_manager.py], [ovi/distributed_comms/optimized_comms.py],
    [ovi/distributed_comms/distributed/fsdp.py], [ovi/modules/lora_lightning.py])
    together with the properties its specification states about it.

    Python [int] is [Z]; Python [float] is the kernel's binary64 [float]; an
    entry of a tensor is a binary32 number; [str] is [string]; a raised
    exception is the left summand of a sum. *)

From Stdlib Require Import ZArith List String Ascii Bool Lia.
From Stdlib Require Import DecimalString Floats.
Import ListNotations.

Set Warnings "-inexact-float".
Local Open Scope Z_scope.

(** ** Python values, exceptions and numbers *)

Module Py.

(** The exceptions the embedded code can raise, with their messages where
    the code writes one; [Raised] is an exception of any other class, by
    the name of the class. *)
Inductive exn : Type :=
| ZeroDivisionError
| OverflowError
| IndexError
| RuntimeError (msg : string)
| ValueError (msg : string)
| AttributeError (msg : string)
| FileNotFoundError (msg : string)
| Raised (cls : string) (msg : string).

(** A computation that returns a value or raises. *)
Definition result (A : Type) : Type := (exn + A)%type.

Definition ret {A : Type} (a : A) : result A := inr a.

Definition raise {A : Type} (e : exn) : result A := inl e.

Definition bind {A B : Type} (m : result A) (k : A -> result B) : result B :=
  match m with
  | inl e => inl e
  | inr a => k a
  end.

(** [str(n)] for an integer. *)
Definition str_of_int (n : Z) : string := NilZero.string_of_int (Z.to_int n).

(** [k in d] and [d[k]] for a dict with string keys, kept in insertion
    order. *)
Fixpoint lookup {V : Type} (k : string) (d : list (string * V)) : option V :=
  match d with
  | [] => None
  | (k', v) :: rest => if String.eqb k k' then Some v else lookup k rest
  end.

(** [l[i]] for a list: a negative index counts from the end, an index out
    of range raises [IndexError]. *)
Definition getitem {A : Type} (l : list A) (i : Z) : result A :=
  let n := Z.of_nat (List.length l) in
  let j := if i <? 0 then i + n else i in
  if (j <? 0) || (n <=? j) then raise IndexError
  else match nth_error l (Z.to_nat j) with
       | Some a => ret a
       | None => raise IndexError
       end.

(** An integer of at most 53 bits converts to a float exactly; CPython's
    int/int division and int-to-float conversion take this path for such
    operands. *)
Definition small (n : Z) : bool := Z.abs n <? 2 ^ 53.

Definition float_of_small (n : Z) : float :=
  let m := of_uint63 (Uint63.of_Z (Z.abs n)) in
  if n <? 0 then PrimFloat.opp m else m.

(** The correctly rounded value, when it is finite. *)
Definition checked (sf : spec_float) : result float :=
  match sf with
  | S754_infinity _ => raise OverflowError
  | _ => ret (SF2Prim sf)
  end.

Definition Z2SF (n : Z) : spec_float :=
  match n with
  | Z0 => S754_zero false
  | Zpos p => S754_finite false p 0
  | Zneg p => S754_finite true p 0
  end.

(** [float(n)]: round to nearest even, [OverflowError] beyond the range. *)
Definition float_of_int (n : Z) : result float :=
  if small n then ret (float_of_small n)
  else checked (binary_normalize prec emax n 0 false).

(** [a / b] on two integers: the correctly rounded quotient. *)
Definition int_truediv (a b : Z) : result float :=
  if b =? 0 then raise ZeroDivisionError
  else if small a && small b then ret (float_of_small a / float_of_small b)%float
  else checked (SFdiv prec emax (Z2SF a) (Z2SF b)).

(** [x / n] for a float and an integer: the integer is converted first. *)
Definition float_truediv_int (x : float) (n : Z) : result float :=
  bind (float_of_int n) (fun d =>
  if (d =? 0)%float then raise ZeroDivisionError else ret (x / d)%float).

(** [x >= y] on floats. *)
Definition float_geb (x y : float) : bool := (y <=? x)%float.

End Py.

Notation "x <- m ;; k" := (Py.bind m (fun x => k))
  (at level 61, m at next level, right associativity).

(** ** Facts about binary64 arithmetic and comparison

    What the planners' thresholds need: comparisons are total away from NaN,
    a product with a finite factor is NaN only when the other factor is, and
    a positive integer of at most 53 bits converts to a non-zero float. *)

Module FloatFacts.
Import Py.

Lemma iter_pos_invariant {A : Type} (P : A -> Prop) (f : A -> A) :
  (forall x, P x -> P (f x)) -> forall p x, P x -> P (SpecFloat.iter_pos f p x).
Proof.
  intros Hf. induction p as [p IH|p IH|]; intros x Hx; simpl; auto.
Qed.

Lemma shr_1_nonneg mrs : 0 <= shr_m mrs -> 0 <= shr_m (shr_1 mrs).
Proof.
  destruct mrs as [m r s]; simpl.
  destruct m as [|[p|p|]|[p|p|]]; simpl; lia.
Qed.

Lemma shr_nonneg mrs e n : 0 <= shr_m mrs -> 0 <= shr_m (fst (shr mrs e n)).
Proof.
  intros H. unfold shr. destruct n; simpl; auto.
  apply (iter_pos_invariant (fun x => 0 <= shr_m x)); auto using shr_1_nonneg.
Qed.

Lemma shr_fexp_nonneg m e l :
  0 <= m -> 0 <= shr_m (fst (shr_fexp prec emax m e l)).
Proof.
  intros H. unfold shr_fexp. apply shr_nonneg. destruct l as [|[]]; simpl; auto.
Qed.

Lemma round_nearest_even_nonneg m l : 0 <= m -> 0 <= round_nearest_even m l.
Proof.
  destruct l as [|[]]; simpl; try lia. destruct (Z.even m); lia.
Qed.

(** Rounding a non-negative mantissa never yields NaN. *)
Lemma binary_round_aux_not_nan s m e l :
  0 <= m -> binary_round_aux prec emax s m e l <> S754_nan.
Proof.
  intros Hm. unfold binary_round_aux.
  pose proof (shr_fexp_nonneg m e l Hm) as H1.
  destruct (shr_fexp prec emax m e l) as [mrs' e']. simpl in H1.
  pose proof (shr_fexp_nonneg _ e' loc_Exact
                (round_nearest_even_nonneg _ (loc_of_shr_record mrs') H1)) as H2.
  destruct (shr_fexp prec emax _ e' loc_Exact) as [mrs'' e'']. simpl in H2.
  destruct (shr_m mrs''); [discriminate| |lia].
  destruct (e'' <=? emax - prec); discriminate.
Qed.

Lemma SFmul_finite_not_nan x s m e :
  x <> S754_nan -> SFmul prec emax x (S754_finite s m e) <> S754_nan.
Proof.
  destruct x as [sx|sx| |sx mx ex]; simpl; intros Hx; try discriminate.
  - contradiction.
  - apply binary_round_aux_not_nan. lia.
Qed.

Lemma SFcompare_antisym x y :
  SFcompare y x = option_map CompOpp (SFcompare x y).
Proof.
  destruct x as [[]|[]| |[] m1 e1], y as [[]|[]| |[] m2 e2]; simpl; try reflexivity;
    rewrite (Z.compare_antisym e1 e2); destruct (e1 ?= e2); simpl; try reflexivity;
    assert (Pos.compare_cont Eq m2 m1 = CompOpp (Pos.compare_cont Eq m1 m2)) as ->
      by (rewrite Pos.compare_cont_antisym; reflexivity);
    destruct (Pos.compare_cont Eq m1 m2); reflexivity.
Qed.

Lemma SFcompare_some x y :
  x <> S754_nan -> y <> S754_nan -> exists c, SFcompare x y = Some c.
Proof.
  destruct x as [[]|[]| |[] m1 e1], y as [[]|[]| |[] m2 e2]; simpl; intros Hx Hy;
    try contradiction; eauto.
Qed.

Lemma ltb_not_nan (x y : float) :
  (x <? y)%float = true -> Prim2SF x <> S754_nan /\ Prim2SF y <> S754_nan.
Proof.
  rewrite ltb_spec. unfold SFltb.
  destruct (Prim2SF x) as [[]|[]| |[] m1 e1], (Prim2SF y) as [[]|[]| |[] m2 e2];
    simpl; intros H; try discriminate; split; discriminate.
Qed.

(** [y <= x] excludes [x < y]. *)
Lemma leb_not_ltb (x y : float) :
  (y <=? x)%float = true -> (x <? y)%float = false.
Proof.
  rewrite leb_spec, ltb_spec. unfold SFleb, SFltb.
  rewrite (SFcompare_antisym (Prim2SF y) (Prim2SF x)).
  destruct (SFcompare (Prim2SF y) (Prim2SF x)) as [[]|]; simpl; congruence.
Qed.

(** Away from NaN, not [x < y] is [y <= x]. *)
Lemma not_ltb_leb (x y : float) :
  Prim2SF x <> S754_nan -> Prim2SF y <> S754_nan ->
  (x <? y)%float = false -> (y <=? x)%float = true.
Proof.
  intros Hx Hy. rewrite leb_spec, ltb_spec. unfold SFleb, SFltb.
  rewrite (SFcompare_antisym (Prim2SF x) (Prim2SF y)).
  destruct (SFcompare_some _ _ Hx Hy) as [c ->].
  destruct c; simpl; congruence.
Qed.

(** A product with a finite, non-zero constant is NaN only for a NaN. *)
Lemma mul_not_nan (a k : float) s m e :
  Prim2SF k = S754_finite s m e ->
  Prim2SF a <> S754_nan -> Prim2SF (a * k)%float <> S754_nan.
Proof.
  intros Hk Ha. rewrite mul_spec, Hk. now apply SFmul_finite_not_nan.
Qed.

Lemma mul_nan (a k : float) :
  Prim2SF a = S754_nan -> Prim2SF (a * k)%float = S754_nan.
Proof.
  intros Ha. rewrite mul_spec, Ha. reflexivity.
Qed.

Lemma digits2_iter_xO p d :
  digits2_pos (Pos.iter xO p d) = (digits2_pos p + d)%positive.
Proof.
  induction d as [|d IH] using Pos.peano_ind.
  - simpl. lia.
  - rewrite Pos.iter_succ. simpl. rewrite IH. lia.
Qed.

Lemma digits2_lower p : 2 ^ (Zpos (digits2_pos p) - 1) <= Zpos p.
Proof.
  induction p as [p IH|p IH|]; simpl digits2_pos.
  - rewrite Pos2Z.inj_succ, <- Z.add_1_r, Z.add_simpl_r.
    replace (Zpos (digits2_pos p)) with (Zpos (digits2_pos p) - 1 + 1) by lia.
    rewrite Z.pow_add_r by lia. lia.
  - rewrite Pos2Z.inj_succ, <- Z.add_1_r, Z.add_simpl_r.
    replace (Zpos (digits2_pos p)) with (Zpos (digits2_pos p) - 1 + 1) by lia.
    rewrite Z.pow_add_r by lia. lia.
  - simpl. lia.
Qed.

Lemma digits2_small p : Zpos p < 2 ^ 53 -> Zpos (digits2_pos p) <= 53.
Proof.
  intros Hp. pose proof (digits2_lower p) as Hl.
  destruct (Z_le_gt_dec (Zpos (digits2_pos p)) 53) as [|Hgt]; [assumption|exfalso].
  assert (2 ^ 53 <= 2 ^ (Zpos (digits2_pos p) - 1))
    by (apply Z.pow_le_mono_r; lia).
  lia.
Qed.

Lemma shr_fexp_canonical m e l :
  Zpos (digits2_pos m) = 53 -> -1074 <= e ->
  shr_fexp prec emax (Zpos m) e l = (shr_record_of_loc (Zpos m) l, e).
Proof.
  intros Hd He.
  assert (H : fexp prec emax (53 + e) - e = 0).
  { unfold fexp, SpecFloat.emin. change prec with 53. change emax with 1024. lia. }
  unfold shr_fexp. cbn [Zdigits2]. rewrite Hd, H. reflexivity.
Qed.

(** A mantissa of exactly 53 bits with an exponent in range is kept as it
    is. *)
Lemma binary_round_aux_canonical s m e :
  Zpos (digits2_pos m) = 53 -> -1074 <= e <= 971 ->
  binary_round_aux prec emax s (Zpos m) e loc_Exact = S754_finite s m e.
Proof.
  intros Hd He. unfold binary_round_aux.
  rewrite (shr_fexp_canonical m e loc_Exact Hd) by lia.
  cbn [shr_record_of_loc shr_m loc_of_shr_record round_nearest_even].
  rewrite (shr_fexp_canonical m e loc_Exact Hd) by lia.
  cbn [shr_record_of_loc shr_m].
  change (emax - prec) with 971.
  destruct (Z.leb_spec e 971); [reflexivity|lia].
Qed.

Lemma binary_normalize_small p :
  Zpos p < 2 ^ 53 ->
  exists m e, binary_normalize prec emax (Zpos p) 0 false = S754_finite false m e.
Proof.
  intros Hp. pose proof (digits2_small p Hp) as Hd.
  assert (1 <= Zpos (digits2_pos p)) as Hd1 by lia.
  unfold binary_normalize, binary_round, shl_align, fexp, SpecFloat.emin.
  change prec with 53. change emax with 1024.
  replace (Z.max (Zpos (digits2_pos p) + 0 - 53) (3 - 1024 - 53))
    with (Zpos (digits2_pos p) - 53) by lia.
  rewrite Z.sub_0_r.
  destruct (Zpos (digits2_pos p) - 53) as [|k|k] eqn:Ek; try lia.
  - eexists _, _. apply binary_round_aux_canonical; lia.
  - eexists _, _. apply binary_round_aux_canonical; [|lia].
    rewrite digits2_iter_xO. lia.
Qed.

(** A positive integer of at most 53 bits is a non-zero float. *)
Lemma float_of_small_nonzero n :
  0 < n < 2 ^ 53 -> (float_of_small n =? 0)%float = false.
Proof.
  intros [Hpos Hlt]. unfold float_of_small.
  destruct (Z.ltb_spec n 0); [lia|]. rewrite Z.abs_eq by lia.
  rewrite eqb_spec, of_uint63_spec, Uint63.of_Z_spec.
  rewrite Z.mod_small
    by (split; [lia|]; apply Z.lt_trans with (2 ^ 53); [lia|reflexivity]).
  destruct n as [|p|p]; try lia.
  destruct (binary_normalize_small p Hlt) as (m & e & ->). reflexivity.
Qed.

Lemma SFmul_comm x y : SFmul prec emax x y = SFmul prec emax y x.
Proof.
  destruct x as [sx|sx| |sx mx ex], y as [sy|sy| |sy my ey]; simpl;
    rewrite ?(xorb_comm sx sy), ?(Pos.mul_comm mx my), ?(Z.add_comm ex ey);
    reflexivity.
Qed.

(** Multiplication of floats is commutative. *)
Lemma mul_comm (x y : float) : (x * y)%float = (y * x)%float.
Proof.
  apply Prim2SF_inj. rewrite !mul_spec. apply SFmul_comm.
Qed.

Lemma small_pos n : 0 < n < 2 ^ 53 -> small n = true.
Proof.
  intros H. unfold small. rewrite Z.abs_eq by lia. apply Z.ltb_lt. lia.
Qed.

End FloatFacts.

(** ** Rounding to nearest, in any binary format

    What an addition and a conversion do to an exact value: the mantissa
    is shifted to the precision of the format and rounded to nearest, ties
    to even.  Values are counted in multiples of the smallest positive
    number of the format, which makes them integers. *)

Module Rounding.
Local Open Scope Z_scope.

Lemma digits2_upper p : Zpos p < 2 ^ Zpos (digits2_pos p).
Proof.
  induction p as [p IH|p IH|]; simpl digits2_pos.
  - rewrite Pos2Z.inj_succ, Z.pow_succ_r by lia. lia.
  - rewrite Pos2Z.inj_succ, Z.pow_succ_r by lia. lia.
  - simpl. lia.
Qed.

Lemma digits2_unique p n :
  2 ^ (n - 1) <= Zpos p < 2 ^ n -> Zpos (digits2_pos p) = n.
Proof.
  intros [Hlo Hhi].
  pose proof (FloatFacts.digits2_lower p) as Hl. pose proof (digits2_upper p) as Hu.
  assert (Hn : 0 < n).
  { destruct (Z_lt_le_dec 0 n) as [|Hle]; [assumption|exfalso].
    destruct (Z.eq_dec n 0) as [->|]; [simpl in Hhi; lia|].
    rewrite (Z.pow_neg_r 2 n) in Hhi by lia. lia. }
  destruct (Z.lt_trichotomy (Zpos (digits2_pos p)) n) as [Hlt|[Heq|Hgt]]; [|assumption|].
  - assert (2 ^ Zpos (digits2_pos p) <= 2 ^ (n - 1)) by (apply Z.pow_le_mono_r; lia). lia.
  - assert (2 ^ n <= 2 ^ (Zpos (digits2_pos p) - 1)) by (apply Z.pow_le_mono_r; lia). lia.
Qed.

Lemma shr_1_spec rec :
  0 <= shr_m rec ->
  shr_m (shr_1 rec) = shr_m rec / 2 /\
  shr_r (shr_1 rec) = Z.odd (shr_m rec) /\
  shr_s (shr_1 rec) = shr_r rec || shr_s rec.
Proof.
  destruct rec as [m r s]. simpl. intros Hm.
  destruct m as [|[p|p|]|p]; simpl; try lia; repeat split.
  - rewrite Pos2Z.inj_xI. rewrite Z.add_comm, Z.mul_comm, Z.div_add by lia. reflexivity.
  - rewrite Pos2Z.inj_xO. rewrite Z.mul_comm, Z.div_mul by lia. reflexivity.
Qed.

(** What [k] shifts leave of [m]: the quotient, and where the remainder
    lies in the interval of length [2^k]. *)
Definition shifted (m k : Z) (rec : shr_record) : Prop :=
  shr_m rec = m / 2 ^ k /\
  shr_r rec = (2 ^ k <=? 2 * (m mod 2 ^ k)) /\
  shr_s rec = negb ((2 * (m mod 2 ^ k)) mod 2 ^ k =? 0).

Lemma shifted_0 m : shifted m 0 {| shr_m := m; shr_r := false; shr_s := false |}.
Proof.
  unfold shifted. simpl. rewrite Z.div_1_r, Z.mod_1_r. repeat split.
Qed.

Lemma shifted_step m k rec :
  0 <= m -> 0 <= k -> shifted m k rec -> shifted m (k + 1) (shr_1 rec).
Proof.
  intros Hm Hk (Hq & Hr & Hs).
  assert (HP : 0 < 2 ^ k) by (apply Z.pow_pos_nonneg; lia).
  assert (Hq0 : 0 <= shr_m rec) by (rewrite Hq; apply Z.div_pos; lia).
  destruct (shr_1_spec rec Hq0) as (Hm' & Hr' & Hs').
  pose proof (Z.mod_pos_bound m (2 ^ k) HP) as Hrem.
  unfold shifted. rewrite Z.pow_add_r, Z.pow_1_r by lia.
  assert (Hmod : m mod (2 ^ k * 2) = m mod 2 ^ k + 2 ^ k * ((m / 2 ^ k) mod 2))
    by (apply Z.rem_mul_r; lia).
  assert (Hbit : (m / 2 ^ k) mod 2 = Z.b2z (Z.odd (m / 2 ^ k)))
    by (rewrite <- Z.bit0_odd; symmetry; apply Z.bit0_mod).
  set (P := 2 ^ k) in *. set (rem := m mod P) in *. set (q := m / P) in *.
  rewrite Hm', Hr', Hs', Hq, Hr, Hs, Hmod, Hbit.
  split; [unfold q; now rewrite Z.div_div by lia|].
  destruct (Z.odd q); simpl Z.b2z.
  - split.
    + symmetry. apply Z.leb_le. lia.
    + replace (2 * (rem + P * 1)) with (2 * rem + 1 * (P * 2)) by lia.
      rewrite Z.mod_add by lia. rewrite (Z.mod_small (2 * rem) (P * 2)) by lia.
      destruct (Z.leb_spec P (2 * rem)) as [Hge|Hlt]; cbn [orb].
      * symmetry. apply negb_true_iff, Z.eqb_neq. lia.
      * rewrite (Z.mod_small (2 * rem) P) by lia. reflexivity.
  - rewrite Z.mul_0_r, Z.add_0_r. split.
    + symmetry. apply Z.leb_gt. lia.
    + rewrite (Z.mod_small (2 * rem) (P * 2)) by lia.
      destruct (Z.leb_spec P (2 * rem)) as [Hge|Hlt]; cbn [orb].
      * symmetry. apply negb_true_iff, Z.eqb_neq. lia.
      * rewrite (Z.mod_small (2 * rem) P) by lia. reflexivity.
Qed.

Lemma shifted_iter m p : 0 <= m ->
  forall k rec, 0 <= k -> shifted m k rec ->
  shifted m (k + Zpos p) (SpecFloat.iter_pos shr_1 p rec).
Proof.
  intros Hm. induction p as [p IH|p IH|]; intros k rec Hk H; simpl.
  - replace (k + Zpos p~1) with (k + 1 + Zpos p + Zpos p) by lia.
    apply IH; [lia|]. apply IH; [lia|]. now apply shifted_step.
  - replace (k + Zpos p~0) with (k + Zpos p + Zpos p) by lia.
    apply IH; [lia|]. now apply IH.
  - now apply shifted_step.
Qed.

(** Rounding what [k] shifts left to nearest, ties to even: the result is
    the quotient or the next integer, within half a unit of the exact
    value. *)
Lemma round_shifted m k rec :
  0 <= m -> 0 <= k -> shifted m k rec ->
  let r := round_nearest_even (shr_m rec) (loc_of_shr_record rec) in
  m / 2 ^ k <= r <= m / 2 ^ k + 1 /\
  2 * Z.abs (r * 2 ^ k - m) <= 2 ^ k.
Proof.
  intros Hm Hk (Hq & Hr & Hs) r. subst r.
  assert (HP : 0 < 2 ^ k) by (apply Z.pow_pos_nonneg; lia).
  pose proof (Z.mod_pos_bound m (2 ^ k) HP) as Hrem.
  pose proof (Z.div_mod m (2 ^ k) ltac:(lia)) as Hdm.
  destruct rec as [q r s]. cbn [shr_m shr_r shr_s] in *. subst q.
  set (P := 2 ^ k) in *. set (rem := m mod P) in *. set (q := m / P) in *.
  destruct r, s; cbn [loc_of_shr_record round_nearest_even]; symmetry in Hr, Hs.
  - apply Z.leb_le in Hr. split; lia.
  - apply Z.leb_le in Hr. apply negb_false_iff, Z.eqb_eq in Hs.
    assert (2 * rem = P).
    { destruct (Z.eq_dec (2 * rem) P) as [|Hne]; [assumption|exfalso].
      assert (Hgt : P < 2 * rem) by lia.
      replace (2 * rem) with ((2 * rem - P) + 1 * P) in Hs by lia.
      rewrite Z.mod_add, Z.mod_small in Hs by lia. lia. }
    destruct (Z.even q); split; lia.
  - apply Z.leb_gt in Hr. split; lia.
  - apply Z.leb_gt in Hr. apply negb_false_iff, Z.eqb_eq in Hs.
    rewrite Z.mod_small in Hs by lia. split; lia.
Qed.

Lemma iter_xO_value p d : Zpos (Pos.iter xO p d) = Zpos p * 2 ^ Zpos d.
Proof.
  induction d as [|d IH] using Pos.peano_ind.
  - simpl. lia.
  - rewrite Pos.iter_succ, Pos2Z.inj_xO, IH, Pos2Z.inj_succ, Z.pow_succ_r by lia. lia.
Qed.

Section Format.

Variables fprec femax : Z.
Hypothesis Hprec : 0 < fprec.
Hypothesis Hmax : fprec < femax.

Lemma fexp_spec e : fexp fprec femax e = Z.max (e - fprec) (3 - femax - fprec).
Proof. reflexivity. Qed.

(** A mantissa that already sits at the exponent of its magnitude is
    kept. *)
Lemma binary_round_aux_kept s p e :
  fexp fprec femax (Zpos (digits2_pos p) + e) = e ->
  binary_round_aux fprec femax s (Zpos p) e loc_Exact
  = if e <=? femax - fprec then S754_finite s p e else S754_infinity s.
Proof.
  intros Hc.
  assert (Hs : shr_fexp fprec femax (Zpos p) e loc_Exact
               = ({| shr_m := Zpos p; shr_r := false; shr_s := false |}, e)).
  { unfold shr_fexp. cbn [Zdigits2]. rewrite Hc, Z.sub_diag. reflexivity. }
  unfold binary_round_aux. rewrite Hs.
  cbn [shr_m loc_of_shr_record shr_r shr_s round_nearest_even].
  rewrite Hs. reflexivity.
Qed.

(** A mantissa with [k] digits too many is shifted by [k] and rounded to
    nearest, ties to even: the result has [fprec] digits and is within
    half a unit of the last place kept. *)
Lemma binary_round_aux_shifted s p e kp :
  3 - femax - fprec <= e ->
  Zpos (digits2_pos p) = fprec + Zpos kp ->
  exists m' e',
    2 ^ (fprec - 1) <= Zpos m' < 2 ^ fprec /\ e < e' /\
    2 * Z.abs (Zpos m' * 2 ^ (e' - e) - Zpos p) <= 2 ^ Zpos kp /\
    binary_round_aux fprec femax s (Zpos p) e loc_Exact
    = if e' <=? femax - fprec then S754_finite s m' e' else S754_infinity s.
Proof.
  intros He Hd. set (k := Zpos kp) in *.
  set (rec := SpecFloat.iter_pos shr_1 kp {| shr_m := Zpos p; shr_r := false; shr_s := false |}).
  assert (Hs : shr_fexp fprec femax (Zpos p) e loc_Exact = (rec, e + k)).
  { unfold shr_fexp. cbn [Zdigits2]. rewrite fexp_spec, Hd.
    replace (Z.max (fprec + k + e - fprec) (3 - femax - fprec) - e) with k by lia.
    reflexivity. }
  assert (Hrec : shifted (Zpos p) k rec).
  { replace k with (0 + Zpos kp) by reflexivity.
    apply shifted_iter; [lia|lia|apply shifted_0]. }
  pose proof (round_shifted (Zpos p) k rec ltac:(lia) ltac:(lia) Hrec) as Hr.
  cbv zeta in Hr.
  set (r := round_nearest_even (shr_m rec) (loc_of_shr_record rec)) in *.
  destruct Hr as [Hq Herr].
  pose proof (FloatFacts.digits2_lower p) as Hlo. pose proof (digits2_upper p) as Hhi.
  rewrite Hd in Hlo, Hhi.
  assert (HP : 0 < 2 ^ k) by (apply Z.pow_pos_nonneg; lia).
  assert (HQ : 0 < 2 ^ (fprec - 1)) by (apply Z.pow_pos_nonneg; lia).
  assert (Hpp : 2 ^ fprec = 2 * 2 ^ (fprec - 1)).
  { replace fprec with (fprec - 1 + 1) at 1 by lia. rewrite Z.pow_add_r by lia. lia. }
  assert (Hq1 : 2 ^ (fprec - 1) <= Zpos p / 2 ^ k).
  { apply Z.div_le_lower_bound; [lia|].
    replace (fprec + k - 1) with (k + (fprec - 1)) in Hlo by lia.
    rewrite Z.pow_add_r in Hlo by lia. lia. }
  assert (Hq2 : Zpos p / 2 ^ k < 2 ^ fprec).
  { apply Z.div_lt_upper_bound; [lia|].
    replace (fprec + k) with (k + fprec) in Hhi by lia.
    rewrite Z.pow_add_r in Hhi by lia. lia. }
  unfold binary_round_aux. rewrite Hs. fold r.
  destruct r as [|rp|rp] eqn:Er; try lia.
  destruct (Z.eq_dec (Zpos rp) (2 ^ fprec)) as [Htop|Hntop].
  - (* the rounding carried into one more digit *)
    assert (Hdr : Zpos (digits2_pos rp) = fprec + 1).
    { apply digits2_unique. rewrite Z.add_simpl_r, Htop. split; [lia|].
      rewrite Z.pow_add_r by lia. lia. }
    assert (Hs2 : shr_fexp fprec femax (Zpos rp) (e + k) loc_Exact
                  = (shr_1 {| shr_m := Zpos rp; shr_r := false; shr_s := false |}, e + k + 1)).
    { unfold shr_fexp. cbn [Zdigits2]. rewrite fexp_spec, Hdr.
      replace (Z.max (fprec + 1 + (e + k) - fprec) (3 - femax - fprec) - (e + k))
        with 1 by lia.
      reflexivity. }
    rewrite Hs2.
    destruct (shr_1_spec {| shr_m := Zpos rp; shr_r := false; shr_s := false |}
                ltac:(simpl; lia)) as (Hm1 & _ & _).
    cbn [shr_m] in Hm1. rewrite Hm1, Htop, Hpp.
    rewrite Z.mul_comm, Z.div_mul by lia.
    destruct (2 ^ (fprec - 1)) as [|hp|hp] eqn:Eh; try lia.
    exists hp, (e + k + 1). split; [lia|]. split; [lia|]. split; [|reflexivity].
    replace (e + k + 1 - e) with (k + 1) by lia.
    rewrite Z.pow_add_r, Z.pow_1_r by lia.
    replace (Zpos hp * (2 ^ k * 2)) with (Zpos rp * 2 ^ k) by (rewrite Htop, Hpp; lia).
    exact Herr.
  - assert (Hdr : Zpos (digits2_pos rp) = fprec).
    { apply digits2_unique. lia. }
    assert (Hs2 : shr_fexp fprec femax (Zpos rp) (e + k) loc_Exact
                  = ({| shr_m := Zpos rp; shr_r := false; shr_s := false |}, e + k)).
    { unfold shr_fexp. cbn [Zdigits2]. rewrite fexp_spec, Hdr.
      replace (Z.max (fprec + (e + k) - fprec) (3 - femax - fprec) - (e + k))
        with 0 by lia.
      reflexivity. }
    rewrite Hs2. cbn [shr_m].
    exists rp, (e + k). split; [lia|]. split; [lia|]. split; [|reflexivity].
    replace (e + k - e) with k by lia. exact Herr.
Qed.



Lemma bounded_spec m e :
  bounded fprec femax m e = true <->
  fexp fprec femax (Zpos (digits2_pos m) + e) = e /\ e <= femax - fprec.
Proof.
  unfold bounded, canonical_mantissa. rewrite andb_true_iff, Z.eqb_eq, Z.leb_le.
  reflexivity.
Qed.

(** Rounding the integer [p * 2 ^ e]: the result overflows only from half
    the range on, and is otherwise a canonical number within
    [2 ^ - fprec] of the exact value, relatively. *)
Lemma binary_round_spec s p e :
  3 - femax - fprec <= e ->
  let U := Zpos p * 2 ^ (e - (3 - femax - fprec)) in
  (binary_round fprec femax s p e = S754_infinity s /\
   2 ^ (femax - (3 - femax - fprec) - 1) <= U) \/
  (exists m' e',
     binary_round fprec femax s p e = S754_finite s m' e' /\
     bounded fprec femax m' e' = true /\
     2 ^ fprec * Z.abs (Zpos m' * 2 ^ (e' - (3 - femax - fprec)) - U) <= U).
Proof.
  intros He U.
  set (d := Zpos (digits2_pos p)).
  assert (Hd0 : 0 < d) by (unfold d; lia).
  pose proof (FloatFacts.digits2_lower p) as Hlo. pose proof (digits2_upper p) as Hhi.
  fold d in Hlo, Hhi.
  assert (HX : 0 < 2 ^ (e - (3 - femax - fprec))) by (apply Z.pow_pos_nonneg; lia).
  assert (HU : 0 < U) by (unfold U; lia).
  assert (Hkept : forall m t,
            fexp fprec femax (Zpos (digits2_pos m) + t) = t ->
            3 - femax - fprec <= t ->
            Zpos m * 2 ^ (t - (3 - femax - fprec)) = U ->
            (binary_round_aux fprec femax s (Zpos m) t loc_Exact = S754_infinity s /\
             2 ^ (femax - (3 - femax - fprec) - 1) <= U) \/
            (exists m' e',
               binary_round_aux fprec femax s (Zpos m) t loc_Exact = S754_finite s m' e' /\
               SpecFloat.bounded fprec femax m' e' = true /\
               2 ^ fprec * Z.abs (Zpos m' * 2 ^ (e' - (3 - femax - fprec)) - U) <= U)).
  { intros m t Hc Ht HV. rewrite (binary_round_aux_kept s m t Hc).
    destruct (Z.leb_spec t (femax - fprec)) as [Hle|Hgt].
    - right. exists m, t. split; [reflexivity|]. split; [now apply bounded_spec|].
      rewrite HV, Z.sub_diag. simpl Z.abs. lia.
    - left. split; [reflexivity|].
      rewrite fexp_spec in Hc.
      assert (Hdm : Zpos (digits2_pos m) = fprec) by lia.
      pose proof (FloatFacts.digits2_lower m) as Hlm. rewrite Hdm in Hlm.
      rewrite <- HV.
      apply Z.le_trans with (2 ^ (fprec - 1) * 2 ^ (t - (3 - femax - fprec))).
      + rewrite <- Z.pow_add_r by lia. apply Z.pow_le_mono_r; lia.
      + apply Z.mul_le_mono_nonneg_r; [|exact Hlm]. apply Z.pow_nonneg. lia. }
  unfold binary_round, shl_align. fold d.
  destruct (fexp fprec femax (d + e) - e) as [|kp|dp] eqn:Ek.
  - apply Hkept; [fold d; lia|exact He|reflexivity].
  - rewrite fexp_spec in Ek.
    assert (Hd : Zpos (digits2_pos p) = fprec + Zpos kp) by (fold d; lia).
    destruct (binary_round_aux_shifted s p e kp He Hd)
      as (m' & e' & Hm' & He' & Herr & ->).
    fold d in Hd. rewrite Hd in Hlo.
    set (X := 2 ^ (e - (3 - femax - fprec))) in *.
    assert (HV : Zpos m' * 2 ^ (e' - (3 - femax - fprec))
                 = Zpos m' * 2 ^ (e' - e) * X).
    { unfold X. rewrite <- Z.mul_assoc, <- Z.pow_add_r by lia. do 2 f_equal. lia. }
    assert (HFK : 2 * 2 ^ (fprec + Zpos kp - 1) = 2 ^ fprec * 2 ^ Zpos kp).
    { rewrite <- Z.pow_add_r by lia.
      replace (fprec + Zpos kp) with (fprec + Zpos kp - 1 + 1) at 2 by lia.
      rewrite Z.pow_add_r by lia. lia. }
    assert (HF : 0 < 2 ^ fprec) by (apply Z.pow_pos_nonneg; lia).
    set (A := Z.abs (Zpos m' * 2 ^ (e' - e) - Zpos p)) in *.
    assert (HA : 2 ^ fprec * A <= Zpos p) by nia.
    assert (Hdiff : Z.abs (Zpos m' * 2 ^ (e' - (3 - femax - fprec)) - U) = A * X).
    { rewrite HV. unfold U. fold X.
      rewrite <- Z.mul_sub_distr_r, Z.abs_mul, (Z.abs_eq X) by lia. reflexivity. }
    assert (Hbound : 2 ^ fprec * Z.abs (Zpos m' * 2 ^ (e' - (3 - femax - fprec)) - U) <= U).
    { rewrite Hdiff. unfold U. fold X. nia. }
    destruct (Z.leb_spec e' (femax - fprec)) as [Hle|Hgt].
    + right. exists m', e'. split; [reflexivity|]. split; [|exact Hbound].
      apply bounded_spec. split; [|exact Hle].
      rewrite fexp_spec.
      replace (Zpos (digits2_pos m')) with fprec
        by (symmetry; apply digits2_unique; lia).
      lia.
    + left. split; [reflexivity|].
      assert (HVlow : 2 ^ (femax - (3 - femax - fprec))
                      <= Zpos m' * 2 ^ (e' - (3 - femax - fprec))).
      { apply Z.le_trans with (2 ^ (fprec - 1) * 2 ^ (e' - (3 - femax - fprec))).
        - rewrite <- Z.pow_add_r by lia. apply Z.pow_le_mono_r; lia.
        - apply Z.mul_le_mono_nonneg_r; [apply Z.pow_nonneg|]; lia. }
      assert (Hsplit : 2 ^ (femax - (3 - femax - fprec))
                       = 2 * 2 ^ (femax - (3 - femax - fprec) - 1)).
      { replace (femax - (3 - femax - fprec))
          with (femax - (3 - femax - fprec) - 1 + 1) at 1 by lia.
        rewrite Z.pow_add_r by lia. lia. }
      assert (Z.abs (Zpos m' * 2 ^ (e' - (3 - femax - fprec)) - U) <= U) by nia.
      lia.
  - rewrite fexp_spec in Ek.
    apply Hkept.
    + rewrite FloatFacts.digits2_iter_xO, Pos2Z.inj_add. fold d. rewrite fexp_spec.
      rewrite fexp_spec. lia.
    + rewrite fexp_spec. lia.
    + rewrite iter_xO_value. unfold U. rewrite <- Z.mul_assoc, <- Z.pow_add_r.
      * do 2 f_equal. rewrite fexp_spec. lia.
      * lia.
      * rewrite fexp_spec. lia.
Qed.







End Format.

End Rounding.

(** ** Sequence-parallel fan-out ([optimized_comms.get_optimal_sp_size]) *)

Module SeqParallel.

(** [valid_sizes = [1, 2, 4, 8]] *)
Definition valid_sizes : list Z := [1; 2; 4; 8].

(** The body of [for size in ...: if num_gpus >= size and
    sequence_length % size == 0: return size]; [None] when the loop ends
    without returning.  Python's [%] with a positive divisor is [Z.modulo]. *)
Fixpoint first_fitting (sizes : list Z) (num_gpus sequence_length : Z) : option Z :=
  match sizes with
  | [] => None
  | size :: rest =>
      if (num_gpus >=? size) && (sequence_length mod size =? 0)
      then Some size
      else first_fitting rest num_gpus sequence_length
  end.

Definition get_optimal_sp_size (num_gpus sequence_length : Z) : Z :=
  match first_fitting (rev valid_sizes) num_gpus sequence_length with
  | Some size => size
  | None => 1
  end.

(** A candidate fan-out: one of the four sizes, no larger than the device
    count, dividing the sequence length. *)
Definition candidate (num_gpus sequence_length s : Z) : Prop :=
  In s [8; 4; 2; 1] /\ s <= num_gpus /\ sequence_length mod s = 0.

Lemma first_fitting_some sizes n L s :
  first_fitting sizes n L = Some s ->
  In s sizes /\ s <= n /\ L mod s = 0 /\
  exists pre post, sizes = pre ++ s :: post /\
    forall t, In t pre -> ~ (t <= n /\ L mod t = 0).
Proof.
  induction sizes as [|a rest IH]; simpl; [discriminate|].
  destruct ((n >=? a) && (L mod a =? 0)) eqn:E.
  - intros [= <-]. apply andb_true_iff in E as [E1 E2].
    apply Z.geb_le in E1. apply Z.eqb_eq in E2.
    repeat split; auto. exists [], rest. split; [reflexivity|]. intros t [].
  - intros H. destruct (IH H) as (Hin & Hle & Hmod & pre & post & -> & Hpre).
    repeat split; auto. exists (a :: pre), post. split; [reflexivity|].
    intros t [<-|Ht]; [|auto].
    intros [H1 H2]. apply andb_false_iff in E as [E|E].
    + rewrite Z.geb_leb in E. apply Z.leb_gt in E. lia.
    + apply Z.eqb_neq in E. auto.
Qed.

Lemma first_fitting_none sizes n L :
  first_fitting sizes n L = None ->
  forall t, In t sizes -> ~ (t <= n /\ L mod t = 0).
Proof.
  induction sizes as [|a rest IH]; simpl; [intros _ t []|].
  destruct ((n >=? a) && (L mod a =? 0)) eqn:E; [discriminate|].
  intros H t [<-|Ht]; [|auto].
  intros [H1 H2]. apply andb_false_iff in E as [E|E].
  - rewrite Z.geb_leb in E. apply Z.leb_gt in E. lia.
  - apply Z.eqb_neq in E. auto.
Qed.

(** C10: the result is the largest of 8, 4, 2, 1 that is at most the device
    count and divides the sequence length, and 1 when there is none; it is a
    power of two, and when above 1 it divides the sequence length. *)
Theorem get_optimal_sp_size_largest (num_gpus sequence_length : Z) :
  0 <= num_gpus -> 0 <= sequence_length ->
  let r := get_optimal_sp_size num_gpus sequence_length in
  ((exists s, candidate num_gpus sequence_length s) ->
     candidate num_gpus sequence_length r /\
     forall s, candidate num_gpus sequence_length s -> s <= r) /\
  ((forall s, ~ candidate num_gpus sequence_length s) -> r = 1) /\
  (exists k, In k [0; 1; 2; 3] /\ r = 2 ^ k) /\
  (1 < r -> (r | sequence_length)).
Proof.
  intros Hn HL r. subst r. unfold get_optimal_sp_size, candidate.
  change (rev valid_sizes) with [8; 4; 2; 1].
  destruct (first_fitting [8; 4; 2; 1] num_gpus sequence_length) as [r|] eqn:E.
  - destruct (first_fitting_some _ _ _ _ E) as (Hin & Hle & Hmod & pre & post & Hsplit & Hpre).
    split; [|split; [|split]].
    + intros _. split; [auto|].
      intros s (Hs & Hsn & HsL).
      destruct (Z_le_gt_dec s r) as [|Hgt]; [assumption|exfalso].
      assert (In s pre) as Hp.
      { simpl in Hin, Hs.
        destruct Hin as [<-|[<-|[<-|[<-|[]]]]];
          destruct Hs as [<-|[<-|[<-|[<-|[]]]]]; try lia;
          destruct pre as [|p0 [|p1 [|p2 [|p3 pre]]]]; simpl in Hsplit;
          inversion Hsplit; subst; simpl; try lia; auto;
          try (destruct pre; discriminate). }
      exact (Hpre s Hp (conj Hsn HsL)).
    + intros Hno. exfalso. exact (Hno r (conj Hin (conj Hle Hmod))).
    + simpl in Hin. destruct Hin as [<-|[<-|[<-|[<-|[]]]]];
        [exists 3|exists 2|exists 1|exists 0]; simpl; auto 6.
    + intros _. apply Z.mod_divide; [|assumption].
      simpl in Hin. destruct Hin as [<-|[<-|[<-|[<-|[]]]]]; lia.
  - pose proof (first_fitting_none _ _ _ E) as Hnone.
    split; [|split; [|split]].
    + intros [s (Hs & Hsn & HsL)]. exfalso. exact (Hnone s Hs (conj Hsn HsL)).
    + reflexivity.
    + exists 0. simpl. auto.
    + lia.
Qed.

Lemma get_optimal_sp_size_largest_witness :
  get_optimal_sp_size 4 12 = 4 /\
  (1 < get_optimal_sp_size 4 12 -> (get_optimal_sp_size 4 12 | 12)).
Proof.
  split; [reflexivity|].
  exact (proj2 (proj2 (proj2
    (get_optimal_sp_size_largest 4 12 ltac:(lia) ltac:(lia))))).
Defined.

End SeqParallel.

(** ** GPU and VRAM manager ([ovi/utils/gpu_manager.py]) *)

Module ResourcePlanner.
Import Py.
Local Open Scope string_scope.
Local Open Scope Z_scope.

(** *** The two catalogs *)

Record VRAMConfig : Type := {
  vram_mode_name : string;
  fp8 : bool;
  cpu_offload : bool;
  qint8 : bool;
  max_batch_size : Z;
  vram_description : string
}.

Definition VRAM_MODES : list (string * VRAMConfig) :=
  [ ("standard",
     {| vram_mode_name := "standard"; fp8 := false; cpu_offload := false;
        qint8 := false; max_batch_size := 1;
        vram_description := "Best quality for high-end GPUs (32GB+ VRAM)" |});
    ("fp8",
     {| vram_mode_name := "fp8"; fp8 := true; cpu_offload := false;
        qint8 := false; max_batch_size := 1;
        vram_description := "FP8 quantization for 24GB VRAM GPUs" |});
    ("fp8_offload",
     {| vram_mode_name := "fp8_offload"; fp8 := true; cpu_offload := true;
        qint8 := false; max_batch_size := 1;
        vram_description := "FP8 with CPU offload for 16-24GB VRAM" |});
    ("ultra_low",
     {| vram_mode_name := "ultra_low"; fp8 := false; cpu_offload := true;
        qint8 := true; max_batch_size := 1;
        vram_description := "QINT8 with CPU offload for 8-16GB VRAM" |}) ].

Record GPUAllocation : Type := {
  mode : string;
  num_gpus : Z;
  sp_size : Z;
  use_fsdp : bool;
  fsdp_strategy : option string;
  description : string
}.

Definition auto : GPUAllocation :=
  {| mode := "auto"; num_gpus := -1; sp_size := 1; use_fsdp := false;
     fsdp_strategy := None;
     description := "Automatically distribute across available GPUs" |}.

Definition single : GPUAllocation :=
  {| mode := "single"; num_gpus := 1; sp_size := 1; use_fsdp := false;
     fsdp_strategy := None; description := "Use single GPU" |}.

Definition multi_2 : GPUAllocation :=
  {| mode := "multi_2"; num_gpus := 2; sp_size := 2; use_fsdp := false;
     fsdp_strategy := None; description := "Sequence parallel across 2 GPUs" |}.

Definition multi_4 : GPUAllocation :=
  {| mode := "multi_4"; num_gpus := 4; sp_size := 4; use_fsdp := false;
     fsdp_strategy := None; description := "Sequence parallel across 4 GPUs" |}.

Definition multi_8 : GPUAllocation :=
  {| mode := "multi_8"; num_gpus := 8; sp_size := 8; use_fsdp := false;
     fsdp_strategy := None; description := "Sequence parallel across 8 GPUs" |}.

Definition fsdp : GPUAllocation :=
  {| mode := "fsdp"; num_gpus := -1; sp_size := 1; use_fsdp := true;
     fsdp_strategy := Some "FULL_SHARD";
     description := "FSDP sharded inference for memory efficiency" |}.

Definition GPU_ALLOCATIONS : list (string * GPUAllocation) :=
  [ ("auto", auto); ("single", single); ("multi_2", multi_2);
    ("multi_4", multi_4); ("multi_8", multi_8); ("fsdp", fsdp) ].

(** [GPU_ALLOCATIONS[k]] for a key the code writes out or has just checked. *)
Definition alloc_at (k : string) : GPUAllocation :=
  match lookup k GPU_ALLOCATIONS with
  | Some a => a
  | None => auto
  end.

(** *** The CUDA runtime the manager observes

    The device count, each device's total and free memory, and the current
    device, which [torch.cuda.set_device] moves and
    [torch.cuda.mem_get_info] reads. *)

Record cuda : Type := {
  device_count : nat;
  total_memory : nat -> Z;
  free_memory : nat -> Z;
  current_device : nat
}.

Definition set_device (i : nat) (c : cuda) : cuda :=
  {| device_count := device_count c; total_memory := total_memory c;
     free_memory := free_memory c; current_device := i |}.

(** [(free, total)] of the current device. *)
Definition mem_get_info (c : cuda) : Z * Z :=
  (free_memory c (current_device c), total_memory c (current_device c)).

(** *** The manager *)

Record GPUManager : Type := {
  mgr_num_gpus : nat;
  gpu_memory : list Z
}.

Definition _get_gpu_memory (c : cuda) (n : nat) : list Z :=
  map (total_memory c) (seq 0 n).

(** [GPUManager.__init__] *)
Definition init (c : cuda) : GPUManager :=
  {| mgr_num_gpus := device_count c;
     gpu_memory := _get_gpu_memory c (device_count c) |}.

Definition get_available_gpus (self : GPUManager) : list nat :=
  seq 0 (mgr_num_gpus self).

(** [max(l)]: the first greatest element. *)
Fixpoint max_from (best : Z) (l : list Z) : Z :=
  match l with
  | [] => best
  | x :: rest => max_from (if best <? x then x else best) rest
  end.

Definition py_max (l : list Z) : result Z :=
  match l with
  | [] => raise (ValueError "max() arg is an empty sequence")
  | x :: rest => ret (max_from x rest)
  end.

(** [l.index(x)]: the first position holding [x]. *)
Fixpoint index_from (i : nat) (x : Z) (l : list Z) : result nat :=
  match l with
  | [] => raise (ValueError "x is not in list")
  | y :: rest => if y =? x then ret i else index_from (S i) x rest
  end.

Definition py_index (x : Z) (l : list Z) : result nat := index_from 0 x l.

(** The loop of [get_best_gpu]: select each device in turn and read its
    free memory. *)
Fixpoint query_free (ids : list nat) (c : cuda) : list Z * cuda :=
  match ids with
  | [] => ([], c)
  | i :: rest =>
      let c1 := set_device i c in
      let free_mem := fst (mem_get_info c1) in
      let '(more, c2) := query_free rest c1 in
      (free_mem :: more, c2)
  end.

Definition get_best_gpu (self : GPUManager) (c : cuda) : result nat * cuda :=
  if Nat.eqb (mgr_num_gpus self) 0
  then (raise (RuntimeError "No GPUs available"), c)
  else
    let '(free_memory, c') := query_free (seq 0 (mgr_num_gpus self)) c in
    (m <- py_max free_memory ;; py_index m free_memory, c').

(** [allocate_gpus], with the warnings it logs. *)
Definition allocate_gpus (self : GPUManager) (allocation_mode : string)
  : GPUAllocation * list string :=
  let n := Z.of_nat (mgr_num_gpus self) in
  let '(allocation_mode, log) :=
    match lookup allocation_mode GPU_ALLOCATIONS with
    | Some _ => (allocation_mode, [])
    | None =>
        ("auto",
         ["Unknown allocation mode '" ++ allocation_mode ++ "', using 'auto'"])
    end in
  let allocation := alloc_at allocation_mode in
  let allocation :=
    if String.eqb allocation_mode "auto" then
      if n =? 1 then alloc_at "single"
      else if n =? 2 then alloc_at "multi_2"
      else if n >=? 4 then alloc_at "multi_4"
      else alloc_at "single"
    else allocation in
  if (num_gpus allocation >? 0) && (num_gpus allocation >? n) then
    let log := app log
      ["Requested " ++ str_of_int (num_gpus allocation) ++ " GPUs but only "
       ++ str_of_int n ++ " available. Using " ++ str_of_int n
       ++ " GPUs instead."] in
    if n >=? 4 then (alloc_at "multi_4", log)
    else if n =? 2 then (alloc_at "multi_2", log)
    else (alloc_at "single", log)
  else (allocation, log).

(** [get_vram_config]: an unknown name is read as ['standard']. *)
Definition get_vram_config (vram_mode : string) : VRAMConfig :=
  match lookup vram_mode VRAM_MODES with
  | Some config => config
  | None =>
      match lookup "standard" VRAM_MODES with
      | Some config => config
      | None => {| vram_mode_name := ""; fp8 := false; cpu_offload := false;
                   qint8 := false; max_batch_size := 0; vram_description := "" |}
      end
  end.

Definition estimate_vram_usage (resolution : Z * Z) (duration vram_mode : string)
  : result float :=
  let '(height, width) := resolution in
  let frames : Z := if String.eqb duration "5s" then 121 else 241 in
  let base_vram := 80.0%float in
  area_factor <- int_truediv (height * width) (720 * 720) ;;
  let vram := (base_vram * area_factor)%float in
  let vram := if String.eqb duration "10s" then (vram * 1.5)%float else vram in
  let vram_config := get_vram_config vram_mode in
  let vram := if fp8 vram_config then (vram * 0.3)%float else vram in
  let vram := if qint8 vram_config then (vram * 0.3)%float else vram in
  let vram := if cpu_offload vram_config then (vram * 0.4)%float else vram in
  ret vram.

Definition can_run_on_gpu (self : GPUManager) (gpu_id : Z) (resolution : Z * Z)
    (duration vram_mode : string) : result bool :=
  required_vram <- estimate_vram_usage resolution duration vram_mode ;;
  total <- getitem (gpu_memory self) gpu_id ;;
  available_vram <- int_truediv total (1024 ^ 3) ;;
  ret (float_geb available_vram required_vram).

(** The dictionary [get_optimal_settings] returns. *)
Record settings : Type := {
  vram_mode : string;
  gpu_allocation : string;
  reason : string
}.

(** [for gpu_id in range(...): if check(gpu_id): return ...]: the first
    device the check accepts, if any. *)
Fixpoint first_gpu (check : Z -> result bool) (ids : list nat) : result (option nat) :=
  match ids with
  | [] => ret None
  | gpu_id :: rest =>
      ok <- check (Z.of_nat gpu_id) ;;
      if ok : bool then ret (Some gpu_id) else first_gpu check rest
  end.

Definition get_optimal_settings (self : GPUManager) (resolution : Z * Z)
    (duration : string) : result settings :=
  let ids := seq 0 (mgr_num_gpus self) in
  let try_mode m := first_gpu (fun g => can_run_on_gpu self g resolution duration m) ids in
  r <- try_mode "standard" ;;
  match r with
  | Some gpu_id =>
      ret {| vram_mode := "standard"; gpu_allocation := "auto";
             reason := "GPU " ++ str_of_int (Z.of_nat gpu_id)
                       ++ " has sufficient VRAM for standard mode" |}
  | None =>
      r <- try_mode "fp8" ;;
      match r with
      | Some _ =>
          ret {| vram_mode := "fp8"; gpu_allocation := "auto";
                 reason := "Requires FP8 quantization" |}
      | None =>
          r <- try_mode "fp8_offload" ;;
          match r with
          | Some _ =>
              ret {| vram_mode := "fp8_offload"; gpu_allocation := "single";
                     reason := "Requires FP8 + CPU offload" |}
          | None =>
              ret {| vram_mode := "ultra_low"; gpu_allocation := "single";
                     reason := "Requires ultra low VRAM mode" |}
          end
      end
  end.

(** *** The best device *)

Lemma query_free_values ids c :
  fst (query_free ids c) = map (free_memory c) ids.
Proof.
  revert c. induction ids as [|i rest IH]; intros c; simpl; [reflexivity|].
  specialize (IH (set_device i c)).
  destruct (query_free rest (set_device i c)) as [more c2]. simpl in *.
  now rewrite IH.
Qed.

Lemma max_from_bounds best l :
  best <= max_from best l /\ (forall x, In x l -> x <= max_from best l) /\
  (max_from best l = best \/ In (max_from best l) l).
Proof.
  revert best. induction l as [|x rest IH]; intros best; simpl.
  - repeat split; auto; try lia.
  - destruct (IH (if best <? x then x else best)) as (H1 & H2 & H3).
    destruct (Z.ltb_spec best x) as [Hlt|Hge].
    + repeat split; try lia.
      * intros y [<-|Hy]; [lia|auto].
      * destruct H3 as [->|H3]; auto.
    + repeat split; try lia.
      * intros y [<-|Hy]; [lia|auto].
      * destruct H3 as [->|H3]; auto.
Qed.

Lemma index_from_first i x l :
  In x l ->
  exists k, index_from i x l = inr (i + k)%nat /\ nth_error l k = Some x /\
            forall j y, (j < k)%nat -> nth_error l j = Some y -> y <> x.
Proof.
  revert i. induction l as [|y rest IH]; intros i Hin; [destruct Hin|].
  simpl. destruct (Z.eqb_spec y x) as [->|Hne].
  - exists 0%nat. rewrite Nat.add_0_r. repeat split; auto. intros j y Hj. lia.
  - destruct Hin as [->|Hin]; [congruence|].
    destruct (IH (S i) Hin) as (k & Hk & Hnth & Hfirst).
    exists (S k). rewrite Nat.add_succ_r. repeat split; auto.
    intros [|j] z Hj Hz; simpl in Hz.
    + now injection Hz as <-.
    + apply (Hfirst j z); [lia|assumption].
Qed.

(** C9: [get_best_gpu] raises exactly when no device is inventoried, and
    otherwise returns the index of a device whose free memory is the
    greatest (the first such index). *)
Theorem get_best_gpu_most_free (c : cuda) :
  match fst (get_best_gpu (init c) c) with
  | inl e => device_count c = 0%nat /\ e = RuntimeError "No GPUs available"
  | inr best =>
      (0 < device_count c)%nat /\ (best < device_count c)%nat /\
      (forall j, (j < device_count c)%nat -> free_memory c j <= free_memory c best) /\
      (forall j, (j < best)%nat -> free_memory c j < free_memory c best)
  end.
Proof.
  unfold get_best_gpu, init; simpl.
  destruct (Nat.eqb_spec (device_count c) 0) as [H0|Hpos]; simpl; [auto|].
  pose proof (query_free_values (seq 0 (device_count c)) c) as Hq.
  destruct (query_free (seq 0 (device_count c)) c) as [fm c']. simpl in Hq. subst fm.
  simpl.
  set (n := device_count c) in *.
  set (l := map (free_memory c) (seq 0 n)).
  assert (Hnth : forall j, (j < n)%nat -> nth_error l j = Some (free_memory c j)).
  { intros j Hj. unfold l. rewrite nth_error_map, nth_error_seq.
    destruct (Nat.ltb_spec j n); [reflexivity|lia]. }
  assert (Hlen : List.length l = n) by (unfold l; now rewrite length_map, length_seq).
  destruct l as [|x rest] eqn:El; [simpl in Hlen; lia|].
  unfold py_max, bind, ret.
  destruct (max_from_bounds x rest) as (Hx & Hrest & Hmem).
  assert (Hin : In (max_from x rest) (x :: rest)) by (destruct Hmem as [->|?]; simpl; auto).
  destruct (index_from_first 0 _ _ Hin) as (k & Hk & Hkn & Hfirst).
  unfold py_index. rewrite Hk. simpl.
  assert (Hkl : (k < n)%nat).
  { rewrite <- Hlen. apply nth_error_Some. congruence. }
  assert (Hfk : free_memory c k = max_from x rest).
  { rewrite (Hnth k Hkl) in Hkn. congruence. }
  repeat split; try lia.
  - intros j Hj. rewrite Hfk.
    assert (In (free_memory c j) (x :: rest)) as [<-|Hj'] by (eapply nth_error_In; eauto);
      auto.
  - intros j Hj. rewrite Hfk.
    assert (free_memory c j <= max_from x rest).
    { assert (In (free_memory c j) (x :: rest)) as [<-|Hj']
        by (eapply nth_error_In; apply Hnth; lia); auto. }
    assert (free_memory c j <> max_from x rest)
      by (apply (Hfirst j); [assumption|apply Hnth; lia]).
    lia.
Qed.

(** *** Choosing an allocation *)

(** The 1/2/4+ bucketing over the available device count. *)
Definition bucket (n : Z) : GPUAllocation :=
  if n =? 1 then single
  else if n =? 2 then multi_2
  else if n >=? 4 then multi_4
  else single.

(** An allocation is feasible when it asks for no more devices than there
    are. *)
Definition feasible (a : GPUAllocation) (n : Z) : Prop := num_gpus a <= n.

Definition unknown_mode_warning (name : string) : string :=
  "Unknown allocation mode '" ++ name ++ "', using 'auto'".

Lemma catalog_names name :
  lookup name GPU_ALLOCATIONS = None \/
  In name ["auto"; "single"; "multi_2"; "multi_4"; "multi_8"; "fsdp"].
Proof.
  unfold GPU_ALLOCATIONS, lookup.
  repeat match goal with
  | |- context [String.eqb name ?k] =>
      destruct (String.eqb_spec name k) as [->|?]; [right; simpl; tauto|]
  end.
  now left.
Qed.

Lemma lookup_known name :
  In name ["auto"; "single"; "multi_2"; "multi_4"; "multi_8"; "fsdp"] ->
  lookup name GPU_ALLOCATIONS = Some (alloc_at name).
Proof.
  simpl. intros [<-|[<-|[<-|[<-|[<-|[<-|[]]]]]]]; reflexivity.
Qed.

Ltac by_device_count n :=
  destruct (Z.eqb_spec n 1); [subst; reflexivity || (simpl; lia)|];
  destruct (Z.eqb_spec n 2); [subst; reflexivity || (simpl; lia)|];
  destruct (Z.geb_spec n 4); simpl;
  repeat match goal with
  | |- context [?a >? ?b] => destruct (Z.gtb_spec a b); simpl; try lia
  | |- context [?a >=? ?b] => destruct (Z.geb_spec a b); simpl; try lia
  | |- context [?a <? ?b] => destruct (Z.ltb_spec a b); simpl; try lia
  | |- context [?a =? ?b] => destruct (Z.eqb_spec a b); simpl; try lia
  end; try reflexivity; try lia.

Lemma allocate_auto self :
  fst (allocate_gpus self "auto") = bucket (Z.of_nat (mgr_num_gpus self)).
Proof.
  unfold allocate_gpus, bucket. simpl lookup. cbv iota beta.
  change (String.eqb "auto" "auto") with true. cbv iota.
  unfold alloc_at; simpl lookup; cbv iota.
  generalize (Z.of_nat (mgr_num_gpus self)) as n; intros n.
  by_device_count n.
Qed.

Lemma allocate_unknown self name :
  lookup name GPU_ALLOCATIONS = None ->
  fst (allocate_gpus self name) = fst (allocate_gpus self "auto") /\
  snd (allocate_gpus self name)
  = unknown_mode_warning name :: snd (allocate_gpus self "auto").
Proof.
  intros Hnone. unfold allocate_gpus. rewrite Hnone. simpl lookup. cbv iota beta.
  change (String.eqb "auto" "auto") with true. cbv iota.
  unfold alloc_at; simpl lookup.
  set (n := Z.of_nat (mgr_num_gpus self)).
  destruct (n =? 1); [|destruct (n =? 2); [|destruct (n >=? 4)]];
    simpl num_gpus;
    repeat match goal with
    | |- context [if ?c then _ else _] => destruct c
    end; split; reflexivity.
Qed.

Lemma allocate_named self name :
  In name ["single"; "multi_2"; "multi_4"; "multi_8"; "fsdp"] ->
  let n := Z.of_nat (mgr_num_gpus self) in
  let a := alloc_at name in
  fst (allocate_gpus self name)
  = if (num_gpus a >? 0) && (num_gpus a >? n) then bucket n else a.
Proof.
  intros Hin n a. subst a. unfold allocate_gpus, bucket. fold n.
  clearbody n. simpl in Hin.
  destruct Hin as [<-|[<-|[<-|[<-|[<-|[]]]]]]; simpl lookup; cbv iota beta;
    unfold alloc_at; simpl lookup; cbv iota beta; simpl String.eqb; cbv iota;
    simpl num_gpus; by_device_count n.
Qed.

(** The allocation is feasible as soon as one device is present. *)
Lemma allocate_feasible self name :
  (1 <= mgr_num_gpus self)%nat ->
  feasible (fst (allocate_gpus self name)) (Z.of_nat (mgr_num_gpus self)).
Proof.
  intros Hpos. unfold feasible.
  assert (1 <= Z.of_nat (mgr_num_gpus self)) as Hn by lia.
  assert (Hb : num_gpus (bucket (Z.of_nat (mgr_num_gpus self)))
               <= Z.of_nat (mgr_num_gpus self)).
  { unfold bucket. set (n := Z.of_nat (mgr_num_gpus self)) in *.
    destruct (Z.eqb_spec n 1); [simpl; lia|].
    destruct (Z.eqb_spec n 2); [simpl; lia|].
    destruct (Z.geb_spec n 4); simpl; lia. }
  destruct (catalog_names name) as [Hnone|Hin].
  - rewrite (proj1 (allocate_unknown self name Hnone)), allocate_auto. exact Hb.
  - destruct Hin as [<-|Hin]; [rewrite allocate_auto; exact Hb|].
    rewrite (allocate_named self name Hin).
    set (n := Z.of_nat (mgr_num_gpus self)) in *.
    destruct (Z.gtb_spec (num_gpus (alloc_at name)) 0); simpl.
    + destruct (Z.gtb_spec (num_gpus (alloc_at name)) n); [exact Hb|lia].
    + lia.
Qed.

(** C6, as the code has it: [allocate_gpus] is total; an unknown name is
    handled as ['auto'] after one warning; ['auto'] resolves by the device
    count (1: single, 2: multi_2, 4 or more: multi_4, otherwise single); a
    named allocation asking for more devices than there are is replaced by
    the same bucketing; with at least one device the result is feasible;
    ['multi_8'] on two devices gives [multi_2]. *)
Theorem allocate_gpus_degrades (self : GPUManager) (name : string) :
  (1 <= mgr_num_gpus self)%nat ->
  let n := Z.of_nat (mgr_num_gpus self) in
  (lookup name GPU_ALLOCATIONS = None ->
     fst (allocate_gpus self name) = fst (allocate_gpus self "auto") /\
     snd (allocate_gpus self name)
     = unknown_mode_warning name :: snd (allocate_gpus self "auto")) /\
  fst (allocate_gpus self "auto") = bucket n /\
  (In name ["single"; "multi_2"; "multi_4"; "multi_8"; "fsdp"] ->
     fst (allocate_gpus self name)
     = if (num_gpus (alloc_at name) >? 0) && (num_gpus (alloc_at name) >? n)
       then bucket n else alloc_at name) /\
  feasible (fst (allocate_gpus self name)) n /\
  (n = 2 -> fst (allocate_gpus self "multi_8") = multi_2).
Proof.
  intros Hpos n. subst n.
  split; [apply allocate_unknown|].
  split; [apply allocate_auto|].
  split; [apply allocate_named|].
  split; [now apply allocate_feasible|].
  intros H2. rewrite (allocate_named self "multi_8") by (simpl; tauto).
  rewrite H2. reflexivity.
Qed.

(** Two devices, as an inventory. *)
Definition two_devices : GPUManager :=
  {| mgr_num_gpus := 2; gpu_memory := [25769803776; 25769803776] |}.

Lemma allocate_gpus_degrades_witness :
  fst (allocate_gpus two_devices "multi_8") = multi_2 /\
  feasible (fst (allocate_gpus two_devices "multi_8")) 2.
Proof.
  pose proof (allocate_gpus_degrades two_devices "multi_8" ltac:(simpl; lia))
    as (_ & _ & _ & Hfeasible & H2).
  split; [exact (H2 eq_refl)|exact Hfeasible].
Defined.

(** No device at all, as an inventory. *)
Definition no_devices : GPUManager := {| mgr_num_gpus := 0; gpu_memory := [] |}.

(** With no device the result is [single], which asks for one device: the
    allocation returned is not feasible. *)
Lemma allocate_gpus_no_device_infeasible :
  fst (allocate_gpus no_devices "multi_8") = single /\
  fst (allocate_gpus no_devices "auto") = single /\
  num_gpus (fst (allocate_gpus no_devices "multi_8"))
  > Z.of_nat (mgr_num_gpus no_devices).
Proof.
  repeat split.
Qed.

(** *** Estimating VRAM *)





(** *** Recommending settings *)

(** [fits]: the device's total memory, in GB, covers the estimate. *)
Definition fits (self : GPUManager) (gpu_id : nat) (resolution : Z * Z)
    (duration vram_mode : string) : bool :=
  match can_run_on_gpu self (Z.of_nat gpu_id) resolution duration vram_mode with
  | inr b => b
  | inl _ => false
  end.

Definition some_device_fits (self : GPUManager) (resolution : Z * Z)
    (duration vram_mode : string) : bool :=
  existsb (fun g => fits self g resolution duration vram_mode)
          (seq 0 (mgr_num_gpus self)).

(** The priority order of the modes. *)
Definition priority : list string :=
  ["standard"; "fp8"; "fp8_offload"; "ultra_low"].

(** The first mode of the priority order that some device satisfies, and
    ['ultra_low'] when none does. *)
Definition recommended_mode (self : GPUManager) (resolution : Z * Z)
    (duration : string) : string :=
  match find (some_device_fits self resolution duration) priority with
  | Some m => m
  | None => "ultra_low"
  end.

(** Sizes for which the integer divisions stay on the exact path: the pixel
    count and every device's memory have at most 53 bits. *)
Definition plain_sizes (c : cuda) (resolution : Z * Z) : Prop :=
  small (fst resolution * snd resolution) = true /\
  forall i, (i < device_count c)%nat -> small (total_memory c i) = true.

Lemma getitem_init c i :
  (i < device_count c)%nat ->
  getitem (gpu_memory (init c)) (Z.of_nat i) = inr (total_memory c i).
Proof.
  intros Hi. unfold getitem, init, _get_gpu_memory; simpl.
  rewrite length_map, length_seq.
  destruct (Z.ltb_spec (Z.of_nat i) 0); [lia|].
  destruct (Z.ltb_spec (Z.of_nat i) 0); [lia|].
  destruct (Z.leb_spec (Z.of_nat (device_count c)) (Z.of_nat i)); [lia|].
  simpl. rewrite Nat2Z.id, nth_error_map, nth_error_seq.
  destruct (Nat.ltb_spec i (device_count c)); [reflexivity|lia].
Qed.

Lemma int_truediv_small a b :
  small a = true -> small b = true -> b <> 0 ->
  int_truediv a b = inr (float_of_small a / float_of_small b)%float.
Proof.
  intros Ha Hb Hnz. unfold int_truediv. rewrite Ha, Hb.
  destruct (Z.eqb_spec b 0); [contradiction|reflexivity].
Qed.

Lemma estimate_returns resolution duration vram_mode :
  small (fst resolution * snd resolution) = true ->
  exists v, estimate_vram_usage resolution duration vram_mode = inr v.
Proof.
  destruct resolution as [height width]; simpl. intros Hres.
  unfold estimate_vram_usage.
  rewrite int_truediv_small by (auto; discriminate).
  simpl. eauto.
Qed.

Lemma can_run_returns c resolution duration vram_mode i :
  plain_sizes c resolution -> (i < device_count c)%nat ->
  can_run_on_gpu (init c) (Z.of_nat i) resolution duration vram_mode
  = inr (fits (init c) i resolution duration vram_mode).
Proof.
  intros [Hres Hmem] Hi. unfold fits.
  assert (exists b, can_run_on_gpu (init c) (Z.of_nat i) resolution duration vram_mode
                    = inr b) as [b ->]; [|reflexivity].
  unfold can_run_on_gpu.
  destruct (estimate_returns resolution duration vram_mode Hres) as [v ->].
  cbn [bind]. rewrite (getitem_init c i Hi). cbn [bind].
  rewrite int_truediv_small by (auto; discriminate).
  simpl. eauto.
Qed.

Lemma first_gpu_find (check : Z -> result bool) (f : nat -> bool) ids :
  (forall g, In g ids -> check (Z.of_nat g) = inr (f g)) ->
  first_gpu check ids = inr (find f ids).
Proof.
  induction ids as [|g rest IH]; intros H; simpl; [reflexivity|].
  rewrite (H g) by (simpl; auto). simpl.
  destruct (f g); [reflexivity|]. apply IH. intros g' Hg'. apply H. simpl; auto.
Qed.

Lemma try_mode_find c resolution duration vram_mode :
  plain_sizes c resolution ->
  first_gpu (fun g => can_run_on_gpu (init c) g resolution duration vram_mode)
            (seq 0 (device_count c))
  = inr (find (fun g => fits (init c) g resolution duration vram_mode)
              (seq 0 (device_count c))).
Proof.
  intros Hp. apply first_gpu_find. intros g Hg. apply in_seq in Hg.
  apply can_run_returns; [assumption|lia].
Qed.

Lemma first_gpu_cases (check : Z -> result bool) ids :
  match first_gpu check ids with
  | inr (Some g) => In g ids /\ check (Z.of_nat g) = inr true
  | inr None => forall g, In g ids -> check (Z.of_nat g) = inr false
  | inl e => exists g, In g ids /\ check (Z.of_nat g) = inl e
  end.
Proof.
  induction ids as [|g rest IH]; simpl; [intros g []|].
  destruct (check (Z.of_nat g)) as [e|[|]] eqn:E; cbn [bind ret].
  - exists g. auto.
  - auto.
  - destruct (first_gpu check rest) as [e|[g'|]].
    + destruct IH as (g' & Hin & Hg'). exists g'. auto.
    + destruct IH as [Hin Hg']. auto.
    + intros g' [<-|Hin]; auto.
Qed.

Lemma first_gpu_returns (check : Z -> result bool) ids :
  (forall g, In g ids -> exists b, check (Z.of_nat g) = inr b) ->
  exists r, first_gpu check ids = inr r.
Proof.
  induction ids as [|g rest IH]; intros H; simpl; [eexists; reflexivity|].
  destruct (H g (or_introl eq_refl)) as [b ->]. cbn [bind].
  destruct b; [eexists; reflexivity|]. apply IH. intros g' Hg'. apply H. now right.
Qed.

(** A division of integers by a non-zero integer raises only
    [OverflowError]. *)
Lemma int_truediv_raises a b e :
  b <> 0 -> int_truediv a b = inl e -> e = OverflowError.
Proof.
  intros Hb. unfold int_truediv.
  destruct (Z.eqb_spec b 0); [contradiction|].
  destruct (small a && small b); [discriminate|].
  unfold checked. destruct (SFdiv _ _ _ _); try discriminate.
  now intros [= <-].
Qed.

Lemma can_run_raises c resolution duration vram_mode i e :
  (i < device_count c)%nat ->
  can_run_on_gpu (init c) (Z.of_nat i) resolution duration vram_mode = inl e ->
  e = OverflowError.
Proof.
  intros Hi. unfold can_run_on_gpu, estimate_vram_usage.
  destruct resolution as [height width].
  destruct (int_truediv (height * width) (720 * 720)) as [e'|area] eqn:Earea.
  - cbn [bind]. intros [= <-].
    apply int_truediv_raises in Earea; [exact Earea|vm_compute; discriminate].
  - cbn [bind ret]. rewrite (getitem_init c i Hi). cbn [bind].
    destruct (int_truediv (total_memory c i) (1024 ^ 3)) as [e'|avail] eqn:Emem.
    + cbn [bind]. intros [= <-].
      apply int_truediv_raises in Emem; [exact Emem|vm_compute; discriminate].
    + discriminate.
Qed.

Lemma some_device_fits_true self resolution duration vram_mode g :
  In g (seq 0 (mgr_num_gpus self)) ->
  can_run_on_gpu self (Z.of_nat g) resolution duration vram_mode = inr true ->
  some_device_fits self resolution duration vram_mode = true.
Proof.
  intros Hin Hrun. unfold some_device_fits. apply existsb_exists.
  exists g. split; [assumption|]. unfold fits. now rewrite Hrun.
Qed.

Lemma some_device_fits_false self resolution duration vram_mode :
  (forall g, In g (seq 0 (mgr_num_gpus self)) ->
     can_run_on_gpu self (Z.of_nat g) resolution duration vram_mode = inr false) ->
  some_device_fits self resolution duration vram_mode = false.
Proof.
  intros H. unfold some_device_fits.
  destruct (existsb _ _) eqn:E; [|reflexivity].
  apply existsb_exists in E as (g & Hin & Hfit).
  unfold fits in Hfit. rewrite (H g Hin) in Hfit. discriminate.
Qed.

(** C8, as the code has it: [get_optimal_settings] tries the modes in the
    order standard, fp8, fp8_offload and for each scans the devices under
    [can_run_on_gpu]; what it returns is the first mode of the order that
    some device satisfies, with an allocation of the catalog and a
    reason, and ['ultra_low'] when no device satisfies any mode; it
    returns whenever the checks do, as they do when the pixel count and
    the device memories have at most 53 bits; and what it raises is the
    [OverflowError] of a check on a device. *)
Theorem get_optimal_settings_priority (c : cuda) (resolution : Z * Z) (duration : string) :
  let self := init c in
  let run m i := can_run_on_gpu self (Z.of_nat i) resolution duration m in
  (forall s, get_optimal_settings self resolution duration = inr s ->
     vram_mode s = recommended_mode self resolution duration /\
     In (vram_mode s) priority /\
     In (gpu_allocation s) (map fst GPU_ALLOCATIONS) /\
     reason s <> "" /\
     ((forall m, In m priority -> some_device_fits self resolution duration m = false) ->
      vram_mode s = "ultra_low")) /\
  (forall e, get_optimal_settings self resolution duration = inl e ->
     e = OverflowError /\
     exists m i, In m priority /\ (i < device_count c)%nat /\ run m i = inl OverflowError) /\
  ((forall m i, In m priority -> (i < device_count c)%nat -> exists b, run m i = inr b) ->
     exists s, get_optimal_settings self resolution duration = inr s) /\
  (plain_sizes c resolution ->
     forall m i, (i < device_count c)%nat -> exists b, run m i = inr b).
Proof.
  intros self run.
  assert (Hids : forall g, In g (seq 0 (mgr_num_gpus self)) -> (g < device_count c)%nat)
    by (intros g Hg; apply in_seq in Hg; simpl in Hg; lia).
  split; [|split; [|split]].
  - intros s. unfold get_optimal_settings, recommended_mode, priority. cbn [find].
    pose proof (first_gpu_cases
                  (fun g => can_run_on_gpu self g resolution duration "standard")
                  (seq 0 (mgr_num_gpus self))) as H1.
    destruct (first_gpu _ _) as [e|[g|]]; [discriminate| |]; cbn [bind].
    { intros [= <-]. cbn [vram_mode gpu_allocation reason]. destruct H1 as [Hin Hg].
      rewrite (some_device_fits_true _ _ _ _ g Hin Hg).
      repeat split; simpl; auto; try discriminate.
      intros H. specialize (H "standard" (or_introl eq_refl)).
      rewrite (some_device_fits_true _ _ _ _ g Hin Hg) in H. discriminate. }
    rewrite (some_device_fits_false _ _ _ _ H1).
    pose proof (first_gpu_cases
                  (fun g => can_run_on_gpu self g resolution duration "fp8")
                  (seq 0 (mgr_num_gpus self))) as H2.
    destruct (first_gpu _ _) as [e|[g|]]; [discriminate| |]; cbn [bind].
    { intros [= <-]. cbn [vram_mode gpu_allocation reason]. destruct H2 as [Hin Hg].
      rewrite (some_device_fits_true _ _ _ _ g Hin Hg).
      repeat split; simpl; auto; try discriminate.
      intros H. specialize (H "fp8" (or_intror (or_introl eq_refl))).
      rewrite (some_device_fits_true _ _ _ _ g Hin Hg) in H. discriminate. }
    rewrite (some_device_fits_false _ _ _ _ H2).
    pose proof (first_gpu_cases
                  (fun g => can_run_on_gpu self g resolution duration "fp8_offload")
                  (seq 0 (mgr_num_gpus self))) as H3.
    destruct (first_gpu _ _) as [e|[g|]]; [discriminate| |]; cbn [bind].
    { intros [= <-]. cbn [vram_mode gpu_allocation reason]. destruct H3 as [Hin Hg].
      rewrite (some_device_fits_true _ _ _ _ g Hin Hg).
      repeat split; simpl; auto 6; try discriminate.
      intros H. specialize (H "fp8_offload" (or_intror (or_intror (or_introl eq_refl)))).
      rewrite (some_device_fits_true _ _ _ _ g Hin Hg) in H. discriminate. }
    rewrite (some_device_fits_false _ _ _ _ H3).
    intros [= <-]. cbn [vram_mode gpu_allocation reason].
    repeat split; simpl; auto 6; try discriminate.
    destruct (some_device_fits self resolution duration "ultra_low"); reflexivity.
  - intros e. unfold get_optimal_settings.
    assert (Hraise : forall m, In m priority ->
              (exists g, In g (seq 0 (mgr_num_gpus self)) /\
                         can_run_on_gpu self (Z.of_nat g) resolution duration m = inl e) ->
              e = OverflowError /\
              exists m i, In m priority /\ (i < device_count c)%nat /\
                          run m i = inl OverflowError).
    { intros m Hm (g & Hin & Hg).
      pose proof (can_run_raises c resolution duration m g e (Hids g Hin) Hg) as ->.
      split; [reflexivity|]. exists m, g. auto. }
    pose proof (first_gpu_cases
                  (fun g => can_run_on_gpu self g resolution duration "standard")
                  (seq 0 (mgr_num_gpus self))) as H1.
    destruct (first_gpu _ _) as [e1|[g|]]; cbn [bind];
      [intros [= <-]; apply (Hraise "standard"); simpl; auto|discriminate|].
    pose proof (first_gpu_cases
                  (fun g => can_run_on_gpu self g resolution duration "fp8")
                  (seq 0 (mgr_num_gpus self))) as H2.
    destruct (first_gpu _ _) as [e2|[g|]]; cbn [bind];
      [intros [= <-]; apply (Hraise "fp8"); simpl; auto|discriminate|].
    pose proof (first_gpu_cases
                  (fun g => can_run_on_gpu self g resolution duration "fp8_offload")
                  (seq 0 (mgr_num_gpus self))) as H3.
    destruct (first_gpu _ _) as [e3|[g|]]; cbn [bind];
      [intros [= <-]; apply (Hraise "fp8_offload"); simpl; auto|discriminate|discriminate].
  - intros Hall. unfold get_optimal_settings.
    assert (Hret : forall m, In m priority ->
              exists r, first_gpu (fun g => can_run_on_gpu self g resolution duration m)
                                  (seq 0 (mgr_num_gpus self)) = inr r).
    { intros m Hm. apply first_gpu_returns. intros g Hg. apply Hall; auto. }
    destruct (Hret "standard") as [[g|] ->]; [simpl; auto| |]; cbn [bind];
      [eexists; reflexivity|].
    destruct (Hret "fp8") as [[g|] ->]; [simpl; auto| |]; cbn [bind];
      [eexists; reflexivity|].
    destruct (Hret "fp8_offload") as [[g|] ->]; [simpl; auto| |]; cbn [bind];
      eexists; reflexivity.
  - intros Hp m i Hi. eexists. apply can_run_returns; assumption.
Qed.

(** One 24 GiB device. *)
Definition one_24g : cuda :=
  {| device_count := 1; total_memory := fun _ => 24 * 1024 ^ 3;
     free_memory := fun _ => 20 * 1024 ^ 3; current_device := 0 |}.

Lemma get_optimal_settings_priority_witness :
  exists s, get_optimal_settings (init one_24g) (720, 720) "5s" = inr s /\
            vram_mode s = "fp8".
Proof.
  assert (Hp : plain_sizes one_24g (720, 720)).
  { split; [reflexivity|]. intros i _. reflexivity. }
  destruct (get_optimal_settings_priority one_24g (720, 720) "5s")
    as (Hmode & _ & Hret & Hplain).
  destruct (Hret (fun m i _ Hi => Hplain Hp m i Hi)) as [s Hs].
  exists s. split; [exact Hs|].
  destruct (Hmode s Hs) as (-> & _). vm_compute. reflexivity.
Defined.

(** With a device present and a resolution beyond the range of a float,
    the first estimate raises and so does the recommendation. *)
Lemma get_optimal_settings_overflows :
  get_optimal_settings (init one_24g) (10 ^ 200, 10 ^ 200) "5s" = inl OverflowError.
Proof. vm_compute. reflexivity. Qed.

(** *** Further properties of the manager *)

(** [fp8_offload] and [ultra_low] multiply by 0.3 and then by 0.4, in that
    order, so their estimates are the same float. *)
Lemma offload_estimates_agree resolution duration :
  estimate_vram_usage resolution duration "ultra_low"
  = estimate_vram_usage resolution duration "fp8_offload".
Proof.
  destruct resolution as [height width]. unfold estimate_vram_usage.
  destruct (int_truediv (height * width) (720 * 720)); reflexivity.
Qed.

Lemma offload_can_run_agree self gpu_id resolution duration :
  can_run_on_gpu self gpu_id resolution duration "ultra_low"
  = can_run_on_gpu self gpu_id resolution duration "fp8_offload".
Proof.
  unfold can_run_on_gpu. now rewrite offload_estimates_agree.
Qed.

(** X1: for every resolution and duration the estimate for ['ultra_low']
    is the estimate for ['fp8_offload'], and so is the answer of
    [can_run_on_gpu] on every device. *)
Theorem ultra_low_estimate_is_fp8_offload (self : GPUManager) (gpu_id : Z)
    (resolution : Z * Z) (duration : string) :
  estimate_vram_usage resolution duration "ultra_low"
  = estimate_vram_usage resolution duration "fp8_offload" /\
  can_run_on_gpu self gpu_id resolution duration "ultra_low"
  = can_run_on_gpu self gpu_id resolution duration "fp8_offload".
Proof.
  split; [apply offload_estimates_agree|apply offload_can_run_agree].
Qed.

Lemma find_none_all {A : Type} (f : A -> bool) l :
  find f l = None -> forall a, In a l -> f a = false.
Proof.
  induction l as [|x l IH]; simpl; [intros _ a []|].
  destruct (f x) eqn:E; [discriminate|].
  intros H a [<-|Ha]; auto.
Qed.

(** X2: when [get_optimal_settings] recommends ['ultra_low'], no
    inventoried device can run ['ultra_low']: the last resort is returned
    only after ['fp8_offload'], which has the same estimate, fitted
    nowhere. *)
Theorem ultra_low_is_recommended_only_when_it_fits_nowhere (c : cuda)
    (resolution : Z * Z) (duration : string) (s : settings) :
  plain_sizes c resolution ->
  get_optimal_settings (init c) resolution duration = inr s ->
  vram_mode s = "ultra_low" ->
  forall i, (i < device_count c)%nat ->
    can_run_on_gpu (init c) (Z.of_nat i) resolution duration "ultra_low" = inr false.
Proof.
  intros Hp Hs Hmode i Hi.
  rewrite offload_can_run_agree, (can_run_returns c _ _ _ i Hp Hi). f_equal.
  revert Hs. unfold get_optimal_settings. simpl mgr_num_gpus.
  rewrite (try_mode_find c resolution duration "standard" Hp). cbn [bind].
  destruct (find _ _) as [g|]; [intros [= <-]; discriminate Hmode|].
  rewrite (try_mode_find c resolution duration "fp8" Hp). cbn [bind].
  destruct (find _ _) as [g|]; [intros [= <-]; discriminate Hmode|].
  rewrite (try_mode_find c resolution duration "fp8_offload" Hp). cbn [bind].
  destruct (find _ _) as [g|] eqn:E; [intros [= <-]; discriminate Hmode|].
  intros _. apply (find_none_all _ _ E). apply in_seq. lia.
Qed.

(** One 1 GiB device. *)
Definition one_1g : cuda :=
  {| device_count := 1; total_memory := fun _ => 1024 ^ 3;
     free_memory := fun _ => 1024 ^ 3; current_device := 0 |}.

Lemma ultra_low_is_recommended_only_when_it_fits_nowhere_witness :
  can_run_on_gpu (init one_1g) (Z.of_nat 0) (720, 720) "5s" "ultra_low" = inr false.
Proof.
  apply (ultra_low_is_recommended_only_when_it_fits_nowhere one_1g (720, 720) "5s"
           {| vram_mode := "ultra_low"; gpu_allocation := "single";
              reason := "Requires ultra low VRAM mode" |}).
  - split; [reflexivity|]. intros i _. reflexivity.
  - vm_compute. reflexivity.
  - reflexivity.
  - simpl. lia.
Defined.

(** X3: with no device inventoried [get_optimal_settings] returns the
    ['ultra_low'] / ['single'] settings for every resolution and duration,
    without estimating anything and so without raising. *)
Theorem get_optimal_settings_without_devices (c : cuda) (resolution : Z * Z)
    (duration : string) :
  device_count c = 0%nat ->
  get_optimal_settings (init c) resolution duration
  = inr {| vram_mode := "ultra_low"; gpu_allocation := "single";
           reason := "Requires ultra low VRAM mode" |}.
Proof.
  intros H0. unfold get_optimal_settings, init. simpl mgr_num_gpus.
  rewrite H0. reflexivity.
Qed.

(** No device, and a pixel count far beyond what a float can hold. *)
Definition no_cuda : cuda :=
  {| device_count := 0; total_memory := fun _ => 0;
     free_memory := fun _ => 0; current_device := 0 |}.

Lemma get_optimal_settings_without_devices_witness :
  estimate_vram_usage (10 ^ 200, 10 ^ 200) "5s" "standard" = inl OverflowError /\
  exists s, get_optimal_settings (init no_cuda) (10 ^ 200, 10 ^ 200) "5s" = inr s /\
            vram_mode s = "ultra_low".
Proof.
  split; [vm_compute; reflexivity|].
  eexists. split.
  - exact (get_optimal_settings_without_devices no_cuda (10 ^ 200, 10 ^ 200) "5s" eq_refl).
  - reflexivity.
Defined.

(** What [allocate_gpus] can return, with the device count each result
    presupposes. *)
Lemma allocate_cases self name :
  let n := Z.of_nat (mgr_num_gpus self) in
  let r := fst (allocate_gpus self name) in
  r = single \/ (r = multi_2 /\ 2 <= n) \/ (r = multi_4 /\ 4 <= n) \/
  (r = multi_8 /\ 8 <= n /\ name = "multi_8") \/ (r = fsdp /\ name = "fsdp").
Proof.
  intros n r. subst r.
  assert (Hb : bucket n = single \/ (bucket n = multi_2 /\ 2 <= n) \/
               (bucket n = multi_4 /\ 4 <= n)).
  { unfold bucket. destruct (Z.eqb_spec n 1); [auto|].
    destruct (Z.eqb_spec n 2); [right; left; split; [reflexivity|lia]|].
    destruct (Z.geb_spec n 4); [right; right; split; [reflexivity|lia]|auto]. }
  assert (Hbucket : fst (allocate_gpus self "auto") = single \/
                    (fst (allocate_gpus self "auto") = multi_2 /\ 2 <= n) \/
                    (fst (allocate_gpus self "auto") = multi_4 /\ 4 <= n))
    by (rewrite allocate_auto; exact Hb).
  destruct (catalog_names name) as [Hnone|Hin].
  - rewrite (proj1 (allocate_unknown self name Hnone)). tauto.
  - destruct Hin as [<-|Hin]; [tauto|].
    rewrite (allocate_named self name Hin). fold n.
    simpl in Hin.
    destruct Hin as [<-|[<-|[<-|[<-|[<-|[]]]]]]; cbn [alloc_at lookup GPU_ALLOCATIONS];
      simpl String.eqb; cbv iota; simpl num_gpus;
      repeat match goal with
      | |- context [?a >? ?b] => destruct (Z.gtb_spec a b); simpl andb; cbv iota
      end; try tauto;
      try (right; left; split; [reflexivity|lia]);
      try (right; right; left; split; [reflexivity|lia]);
      try (right; right; right; left; repeat split; lia);
      try (right; right; right; right; split; reflexivity).
Qed.

(** X4: [allocate_gpus] never returns the ['auto'] placeholder: the result
    is one of single, multi_2, multi_4, multi_8 and fsdp, a multi_k only
    when at least k devices are present, and multi_8 or fsdp only when
    asked for by name. *)
Theorem allocate_gpus_is_resolved (self : GPUManager) (name : string) :
  let n := Z.of_nat (mgr_num_gpus self) in
  let r := fst (allocate_gpus self name) in
  In r [single; multi_2; multi_4; multi_8; fsdp] /\
  mode r <> "auto" /\
  (r = multi_2 -> 2 <= n) /\ (r = multi_4 -> 4 <= n) /\
  (r = multi_8 -> 8 <= n /\ name = "multi_8") /\
  (r = fsdp -> name = "fsdp").
Proof.
  intros n r. pose proof (allocate_cases self name) as H. cbv zeta in H.
  fold n in H. fold r in H.
  destruct H as [->|[[-> H]|[[-> H]|[[-> H]|[-> H]]]]];
    (split; [simpl; tauto|]); (split; [discriminate|]);
    repeat split; try discriminate; intros; try lia; tauto.
Qed.

(** X5: allocating again under the mode of the allocation returned gives
    the same allocation. *)
Theorem allocate_gpus_idempotent (self : GPUManager) (name : string) :
  fst (allocate_gpus self (mode (fst (allocate_gpus self name))))
  = fst (allocate_gpus self name).
Proof.
  pose proof (allocate_cases self name) as H. cbv zeta in H.
  set (n := Z.of_nat (mgr_num_gpus self)) in *.
  assert (Hsingle : fst (allocate_gpus self "single") = single).
  { rewrite (allocate_named self "single") by (simpl; tauto). fold n.
    cbn [alloc_at lookup GPU_ALLOCATIONS]. simpl String.eqb. cbv iota.
    simpl num_gpus. unfold bucket.
    destruct (Z.gtb_spec 1 n); simpl; [|reflexivity].
    destruct (Z.eqb_spec n 1); [reflexivity|].
    destruct (Z.eqb_spec n 2); [lia|].
    destruct (Z.geb_spec n 4); [lia|reflexivity]. }
  destruct H as [->|[[-> H]|[[-> H]|[[-> [H _]]|[-> _]]]]]; simpl mode.
  - exact Hsingle.
  - rewrite (allocate_named self "multi_2") by (simpl; tauto). fold n.
    cbn [alloc_at lookup GPU_ALLOCATIONS]. simpl String.eqb. cbv iota.
    simpl num_gpus. destruct (Z.gtb_spec 2 n); [lia|reflexivity].
  - rewrite (allocate_named self "multi_4") by (simpl; tauto). fold n.
    cbn [alloc_at lookup GPU_ALLOCATIONS]. simpl String.eqb. cbv iota.
    simpl num_gpus. destruct (Z.gtb_spec 4 n); [lia|reflexivity].
  - rewrite (allocate_named self "multi_8") by (simpl; tauto). fold n.
    cbn [alloc_at lookup GPU_ALLOCATIONS]. simpl String.eqb. cbv iota.
    simpl num_gpus. destruct (Z.gtb_spec 8 n); [lia|reflexivity].
  - rewrite (allocate_named self "fsdp") by (simpl; tauto). reflexivity.
Qed.

Lemma last_cons_default {A : Type} (l : list A) a d :
  last (a :: l) d = last l a.
Proof.
  revert a d. induction l as [|b l IH]; intros a d; [reflexivity|].
  change (last (a :: b :: l) d) with (last (b :: l) d).
  now rewrite (IH b d), (IH b a).
Qed.

Lemma query_free_leaves ids c :
  let c' := snd (query_free ids c) in
  current_device c' = last ids (current_device c) /\
  device_count c' = device_count c /\
  total_memory c' = total_memory c /\
  free_memory c' = free_memory c.
Proof.
  revert c. induction ids as [|i rest IH]; intros c; simpl; [auto|].
  specialize (IH (set_device i c)).
  destruct (query_free rest (set_device i c)) as [more c2]. simpl in *.
  destruct IH as (H1 & H2 & H3 & H4). repeat split; auto.
  rewrite H1. symmetry. apply last_cons_default.
Qed.

(** X6: [get_best_gpu] selects each device in turn to read its free
    memory and does not select the best one afterwards: when it returns,
    the current device is the last device, whichever device is best; when
    it raises, the current device is untouched.  Memory figures and the
    device count are never changed. *)
Theorem get_best_gpu_leaves_last_device_current (c : cuda) :
  let c' := snd (get_best_gpu (init c) c) in
  current_device c'
  = (if Nat.eqb (device_count c) 0 then current_device c
     else (device_count c - 1)%nat) /\
  device_count c' = device_count c /\
  total_memory c' = total_memory c /\
  free_memory c' = free_memory c.
Proof.
  unfold get_best_gpu, init; simpl mgr_num_gpus.
  destruct (Nat.eqb_spec (device_count c) 0) as [H0|Hpos]; [simpl; auto|].
  pose proof (query_free_leaves (seq 0 (device_count c)) c) as H.
  destruct (query_free (seq 0 (device_count c)) c) as [fm c']. simpl in *.
  destruct H as (H1 & H2 & H3 & H4). repeat split; auto.
  rewrite H1. destruct (device_count c) as [|n]; [contradiction|].
  rewrite seq_S, last_last. simpl. lia.
Qed.

Lemma getitem_negative {A : Type} (l : list A) i :
  - Z.of_nat (List.length l) <= i < 0 ->
  getitem l i = getitem l (i + Z.of_nat (List.length l)).
Proof.
  unfold getitem. cbv zeta. generalize (Z.of_nat (List.length l)) as n.
  intros n H.
  assert (E1 : (i <? 0) = true) by (apply Z.ltb_lt; lia).
  assert (E2 : (i + n <? 0) = false) by (apply Z.ltb_ge; lia).
  rewrite E1. cbv iota. rewrite !E2. cbv iota. rewrite ?E2. reflexivity.
Qed.

Lemma getitem_outside {A : Type} (l : list A) i :
  i < - Z.of_nat (List.length l) \/ Z.of_nat (List.length l) <= i ->
  getitem l i = inl IndexError.
Proof.
  unfold getitem. cbv zeta. generalize (Z.of_nat (List.length l)) as n.
  intros n H.
  destruct (Z.ltb_spec i 0); cbv iota.
  - destruct (Z.ltb_spec (i + n) 0); [reflexivity|lia].
  - destruct (Z.ltb_spec i 0); [lia|].
    destruct (Z.leb_spec n i); [reflexivity|lia].
Qed.

(** X7: [can_run_on_gpu] indexes the inventory the way a Python list is
    indexed: a negative [gpu_id] from [-n] on answers for the device
    [gpu_id + n], and once the estimate is computed any [gpu_id] outside
    [-n .. n-1] raises [IndexError]. *)
Theorem can_run_on_gpu_index (self : GPUManager) (gpu_id : Z)
    (resolution : Z * Z) (duration vram_mode : string) :
  small (fst resolution * snd resolution) = true ->
  let n := Z.of_nat (List.length (gpu_memory self)) in
  (- n <= gpu_id < 0 ->
     can_run_on_gpu self gpu_id resolution duration vram_mode
     = can_run_on_gpu self (gpu_id + n) resolution duration vram_mode) /\
  (gpu_id < - n \/ n <= gpu_id ->
     can_run_on_gpu self gpu_id resolution duration vram_mode = inl IndexError).
Proof.
  intros Hres n. unfold can_run_on_gpu.
  destruct (estimate_returns resolution duration vram_mode Hres) as [v ->].
  cbn [bind]. split.
  - intros Hneg. subst n. now rewrite getitem_negative.
  - intros Hout. subst n. now rewrite getitem_outside.
Qed.

Lemma can_run_on_gpu_index_witness :
  can_run_on_gpu two_devices (-1) (720, 720) "5s" "fp8"
  = can_run_on_gpu two_devices 1 (720, 720) "5s" "fp8" /\
  can_run_on_gpu two_devices 2 (720, 720) "5s" "fp8" = inl IndexError.
Proof.
  destruct (can_run_on_gpu_index two_devices (-1) (720, 720) "5s" "fp8" eq_refl)
    as [Hneg _].
  destruct (can_run_on_gpu_index two_devices 2 (720, 720) "5s" "fp8" eq_refl)
    as [_ Hout].
  split; [apply Hneg; simpl; lia|apply Hout; simpl; lia].
Defined.

(** X8: [get_vram_config] returns, for each of the four catalog names, the
    configuration that carries that name, and for every other name the
    ['standard'] configuration. *)
Theorem get_vram_config_by_name (vram_mode : string) :
  (In vram_mode ["standard"; "fp8"; "fp8_offload"; "ultra_low"] ->
     vram_mode_name (get_vram_config vram_mode) = vram_mode) /\
  (~ In vram_mode ["standard"; "fp8"; "fp8_offload"; "ultra_low"] ->
     get_vram_config vram_mode = get_vram_config "standard").
Proof.
  split.
  - simpl. intros [<-|[<-|[<-|[<-|[]]]]]; reflexivity.
  - intros Hnot. unfold get_vram_config at 1. unfold VRAM_MODES, lookup.
    repeat match goal with
    | |- context [String.eqb vram_mode ?k] =>
        destruct (String.eqb_spec vram_mode k) as [->|?];
          [exfalso; apply Hnot; simpl; tauto|]
    end.
    reflexivity.
Qed.

(** The module-level [_gpu_manager] and [get_gpu_manager]: the manager is
    built on the first call and kept. *)
Definition get_gpu_manager (_gpu_manager : option GPUManager) (c : cuda)
  : GPUManager * option GPUManager :=
  match _gpu_manager with
  | None => let m := init c in (m, Some m)
  | Some m => (m, Some m)
  end.

(** X9: whatever the global held before, a second [get_gpu_manager]
    returns the manager the first call returned, even when the devices
    have changed in between: the inventory is taken at most once. *)
Theorem get_gpu_manager_is_cached (g : option GPUManager) (c1 c2 : cuda) :
  let '(m1, g1) := get_gpu_manager g c1 in
  let '(m2, g2) := get_gpu_manager g1 c2 in
  m2 = m1 /\ g2 = g1 /\ g1 = Some m1 /\ (g = None -> m1 = init c1).
Proof.
  destruct g as [m|]; simpl; repeat split; auto; discriminate.
Qed.

End ResourcePlanner.

(** ** Sharding strategy ([ovi/distributed_comms/distributed/fsdp.py]) *)

Module ShardingPlanner.
Import Py.

(** [torch.distributed.fsdp.ShardingStrategy]; the specification's
    GRAD_OP_SHARD is [SHARD_GRAD_OP]. *)
Inductive ShardingStrategy : Type :=
| FULL_SHARD
| SHARD_GRAD_OP
| NO_SHARD
| HYBRID_SHARD
| _HYBRID_SHARD_ZERO2.

Definition get_optimal_sharding_strategy (num_gpus : Z)
    (model_size_gb available_memory_gb : float) : result ShardingStrategy :=
  memory_per_gpu <- float_truediv_int model_size_gb num_gpus ;;
  if (memory_per_gpu <? available_memory_gb * 0.5)%float then ret SHARD_GRAD_OP
  else if (memory_per_gpu <? available_memory_gb * 0.8)%float then ret FULL_SHARD
  else ret HYBRID_SHARD.

(** The two thresholds are NaN together. *)
Lemma thresholds_nan_together (a : float) :
  Prim2SF (a * 0.8)%float <> S754_nan -> Prim2SF (a * 0.5)%float <> S754_nan.
Proof.
  intros H8.
  assert (Ha : Prim2SF a <> S754_nan).
  { intros Ha. apply H8. now apply FloatFacts.mul_nan. }
  now apply (FloatFacts.mul_not_nan a 0.5%float false 4503599627370496 (-53)).
Qed.

Lemma float_of_small_nonzero_any n :
  n <> 0 -> small n = true -> (float_of_small n =? 0)%float = false.
Proof.
  intros Hnz Hs. unfold small in Hs. apply Z.ltb_lt in Hs.
  destruct (Z.lt_trichotomy n 0) as [Hneg|[H0|Hpos]]; [|contradiction|].
  - unfold float_of_small.
    destruct (Z.ltb_spec n 0); [|lia].
    rewrite eqb_spec, opp_spec, of_uint63_spec, Uint63.of_Z_spec.
    rewrite Z.mod_small
      by (split; [lia|]; apply Z.lt_trans with (2 ^ 53); [lia|reflexivity]).
    destruct n as [|p|p]; try lia. simpl Z.abs.
    destruct (FloatFacts.binary_normalize_small p Hs) as (m & e & ->). reflexivity.
  - apply FloatFacts.float_of_small_nonzero. rewrite Z.abs_eq in Hs by lia. lia.
Qed.

(** Beyond 53 bits the conversion rounds to nearest: it gives a finite
    float in canonical form, or overflows from [2 ^ 1023] on. *)
Lemma binary64_of_pos s p :
  (binary_round prec emax s p 0 = S754_infinity s /\ 2 ^ 1023 <= Zpos p) \/
  (exists m e, binary_round prec emax s p 0 = S754_finite s m e /\
               bounded prec emax m e = true).
Proof.
  destruct (Rounding.binary_round_spec prec emax eq_refl eq_refl s p 0)
    as [[Hinf Hov]|(m & e & Hr & Hb & _)].
  - vm_compute. discriminate.
  - left. split; [exact Hinf|].
    change (2 ^ (emax - (3 - emax - prec) - 1)) with (2 ^ 1023 * 2 ^ 1074) in Hov.
    change (0 - (3 - emax - prec)) with 1074 in Hov.
    assert (0 < 2 ^ 1074) by (apply Z.pow_pos_nonneg; lia).
    nia.
  - right. exists m, e. split; assumption.
Qed.

(** [float(n)] for [n <> 0] is never zero. *)
Lemma float_of_int_nonzero n d :
  n <> 0 -> float_of_int n = inr d -> (d =? 0)%float = false.
Proof.
  intros Hn. unfold float_of_int. destruct (small n) eqn:Hs.
  - intros [= <-]. now apply float_of_small_nonzero_any.
  - destruct n as [|p|p]; [contradiction| |]; cbn [binary_normalize].
    + destruct (binary64_of_pos false p) as [[-> _]|(m & e & -> & Hb)]; [discriminate|].
      cbn [checked]. unfold ret. intros Hd.
      assert (d = SF2Prim (S754_finite false m e)) as -> by congruence.
      rewrite eqb_spec, Prim2SF_SF2Prim by exact Hb. reflexivity.
    + destruct (binary64_of_pos true p) as [[-> _]|(m & e & -> & Hb)]; [discriminate|].
      cbn [checked]. unfold ret. intros Hd.
      assert (d = SF2Prim (S754_finite true m e)) as -> by congruence.
      rewrite eqb_spec, Prim2SF_SF2Prim by exact Hb. reflexivity.
Qed.

(** [float(n)] raises nothing but [OverflowError], and only from
    [2 ^ 1023] on. *)
Lemma float_of_int_raises n e :
  float_of_int n = inl e -> e = OverflowError /\ 2 ^ 1023 <= Z.abs n.
Proof.
  unfold float_of_int. destruct (small n); [discriminate|].
  destruct n as [|p|p]; [discriminate| |]; cbn [binary_normalize].
  - destruct (binary64_of_pos false p) as [[-> Hov]|(m & e' & -> & _)];
      [|discriminate].
    cbn [checked raise]. intros [= <-]. split; [reflexivity|exact Hov].
  - destruct (binary64_of_pos true p) as [[-> Hov]|(m & e' & -> & _)];
      [|discriminate].
    cbn [checked raise]. intros [= <-]. split; [reflexivity|exact Hov].
Qed.

(** C5, as the code has it: the device count is converted to a float
    first.  When the conversion returns [d] (it does below [2 ^ 1023], and
    exactly below [2 ^ 53]), [per_device = model_size / d] and the strategy
    is SHARD_GRAD_OP exactly when [per_device < 0.5 * available],
    FULL_SHARD exactly when [0.5 * available <= per_device < 0.8 *
    available], and HYBRID_SHARD otherwise; when it does not, the call
    raises [OverflowError].  The three sample points give FULL_SHARD,
    SHARD_GRAD_OP and HYBRID_SHARD. *)
Theorem get_optimal_sharding_strategy_thresholds (num_gpus : Z)
    (model_size_gb available_memory_gb : float) :
  0 < num_gpus ->
  let r := get_optimal_sharding_strategy num_gpus model_size_gb available_memory_gb in
  (forall d, float_of_int num_gpus = inr d ->
     let per_device := (model_size_gb / d)%float in
     let low := (0.5 * available_memory_gb)%float in
     let high := (0.8 * available_memory_gb)%float in
     float_truediv_int model_size_gb num_gpus = inr per_device /\
     (r = inr SHARD_GRAD_OP <-> (per_device <? low)%float = true) /\
     (r = inr FULL_SHARD <->
        (low <=? per_device)%float = true /\ (per_device <? high)%float = true) /\
     (r = inr HYBRID_SHARD <->
        (per_device <? low)%float = false /\
        ~ ((low <=? per_device)%float = true /\ (per_device <? high)%float = true))) /\
  (forall e, float_of_int num_gpus = inl e ->
     e = OverflowError /\ r = inl OverflowError /\ 2 ^ 1023 <= num_gpus) /\
  (num_gpus < 2 ^ 1023 -> exists d, float_of_int num_gpus = inr d) /\
  (num_gpus < 2 ^ 53 -> float_of_int num_gpus = inr (float_of_small num_gpus)) /\
  get_optimal_sharding_strategy 4 40.0 16.0 = inr FULL_SHARD /\
  get_optimal_sharding_strategy 4 20.0 16.0 = inr SHARD_GRAD_OP /\
  get_optimal_sharding_strategy 2 40.0 16.0 = inr HYBRID_SHARD.
Proof.
  intros Hn r.
  split; [|split; [|split; [|split; [|repeat split; vm_compute; reflexivity]]]].
  - intros d Hd per_device low high.
    assert (Hdiv : float_truediv_int model_size_gb num_gpus = inr per_device).
    { unfold float_truediv_int. rewrite Hd. cbn [bind].
      rewrite (float_of_int_nonzero num_gpus d) by (lia || assumption). reflexivity. }
    split; [exact Hdiv|].
    assert (Hr : r = if (per_device <? low)%float then inr SHARD_GRAD_OP
                     else if (per_device <? high)%float then inr FULL_SHARD
                     else inr HYBRID_SHARD).
    { subst r low high. unfold get_optimal_sharding_strategy.
      rewrite Hdiv. cbn [bind].
      rewrite (FloatFacts.mul_comm available_memory_gb 0.5),
              (FloatFacts.mul_comm available_memory_gb 0.8).
      destruct (per_device <? 0.5 * available_memory_gb)%float; [reflexivity|].
      destruct (per_device <? 0.8 * available_memory_gb)%float; reflexivity. }
    assert (Hcmp : (per_device <? low)%float = false ->
                   (per_device <? high)%float = true ->
                   (low <=? per_device)%float = true).
    { intros Hlow Hhigh. apply FloatFacts.ltb_not_nan in Hhigh as [Hp Hh].
      apply FloatFacts.not_ltb_leb; [assumption| |assumption].
      subst low high. rewrite FloatFacts.mul_comm.
      apply thresholds_nan_together. now rewrite FloatFacts.mul_comm. }
    split; [|split].
    + rewrite Hr. destruct (per_device <? low)%float;
        [|destruct (per_device <? high)%float]; split; congruence.
    + rewrite Hr. split.
      * destruct (per_device <? low)%float eqn:E1; [discriminate|].
        destruct (per_device <? high)%float eqn:E2; [|discriminate].
        intros _. split; [now apply Hcmp|reflexivity].
      * intros [Hle Hlt]. rewrite (FloatFacts.leb_not_ltb _ _ Hle), Hlt. reflexivity.
    + rewrite Hr. split.
      * destruct (per_device <? low)%float eqn:E1; [discriminate|].
        destruct (per_device <? high)%float eqn:E2; [discriminate|].
        intros _. split; [reflexivity|]. intros [_ H]. discriminate.
      * intros [Hlow Hnot]. rewrite Hlow.
        destruct (per_device <? high)%float eqn:E2; [|reflexivity].
        exfalso. apply Hnot. split; [now apply Hcmp|reflexivity].
  - intros e He. destruct (float_of_int_raises num_gpus e He) as [-> Hbig].
    split; [reflexivity|]. split; [|lia].
    subst r. unfold get_optimal_sharding_strategy, float_truediv_int.
    rewrite He. reflexivity.
  - intros Hlt. destruct (float_of_int num_gpus) as [e|d] eqn:E; [|eauto].
    destruct (float_of_int_raises num_gpus e E) as [_ Hbig]. lia.
  - intros Hlt. unfold float_of_int.
    rewrite (FloatFacts.small_pos num_gpus) by lia. reflexivity.
Qed.

Lemma get_optimal_sharding_strategy_thresholds_witness :
  float_truediv_int 40.0 4 = inr 10.0%float /\
  get_optimal_sharding_strategy 4 40.0 16.0 = inr FULL_SHARD /\
  float_truediv_int 40.0 (2 ^ 53 + 1) = inr (40.0 / 9007199254740992.0)%float.
Proof.
  pose proof (get_optimal_sharding_strategy_thresholds 4 40.0 16.0 eq_refl)
    as (Hret & _ & _ & _ & Hfull & _).
  destruct (Hret 4%float eq_refl) as (Hdiv & _).
  pose proof (get_optimal_sharding_strategy_thresholds (2 ^ 53 + 1) 40.0 16.0 eq_refl)
    as (Hbig & _).
  destruct (Hbig 9007199254740992.0%float eq_refl) as (Hdivbig & _).
  split; [exact Hdiv|]. split; [exact Hfull|exact Hdivbig].
Defined.

(** A device count beyond the range of a float: the division raises. *)
Lemma get_optimal_sharding_strategy_overflows :
  get_optimal_sharding_strategy (10 ^ 400) 40.0 16.0 = inl OverflowError.
Proof. vm_compute. reflexivity. Qed.

(** *** Division by the device count *)

Lemma strategy_of_per_device num_gpus model_size_gb available_memory_gb :
  num_gpus <> 0 -> small num_gpus = true ->
  get_optimal_sharding_strategy num_gpus model_size_gb available_memory_gb
  = let per_device := (model_size_gb / float_of_small num_gpus)%float in
    if (per_device <? available_memory_gb * 0.5)%float then inr SHARD_GRAD_OP
    else if (per_device <? available_memory_gb * 0.8)%float then inr FULL_SHARD
    else inr HYBRID_SHARD.
Proof.
  intros Hnz Hs. unfold get_optimal_sharding_strategy, float_truediv_int, float_of_int.
  rewrite Hs. cbn [bind ret]. rewrite (float_of_small_nonzero_any _ Hnz Hs).
  cbn [bind ret]. cbv zeta.
  destruct (_ <? _)%float; [reflexivity|]. destruct (_ <? _)%float; reflexivity.
Qed.

(** X10: for a device count of at most 53 bits,
    [get_optimal_sharding_strategy] raises exactly when the count is zero
    (the division raises [ZeroDivisionError]); for every other count,
    negative ones included, it returns SHARD_GRAD_OP, FULL_SHARD or
    HYBRID_SHARD, never NO_SHARD. *)
Theorem sharding_strategy_raises_iff_no_device (num_gpus : Z)
    (model_size_gb available_memory_gb : float) :
  small num_gpus = true ->
  (num_gpus = 0 ->
     get_optimal_sharding_strategy num_gpus model_size_gb available_memory_gb
     = inl ZeroDivisionError) /\
  (num_gpus <> 0 ->
     exists s,
       get_optimal_sharding_strategy num_gpus model_size_gb available_memory_gb = inr s /\
       In s [SHARD_GRAD_OP; FULL_SHARD; HYBRID_SHARD]).
Proof.
  intros Hs. split.
  - intros ->. reflexivity.
  - intros Hnz. rewrite (strategy_of_per_device _ _ _ Hnz Hs). cbv zeta.
    destruct (_ <? _)%float; [eexists; split; [reflexivity|simpl; tauto]|].
    destruct (_ <? _)%float; eexists; split; try reflexivity; simpl; tauto.
Qed.

Lemma sharding_strategy_raises_iff_no_device_witness :
  get_optimal_sharding_strategy 0 40.0 16.0 = inl ZeroDivisionError /\
  exists s, get_optimal_sharding_strategy (-2) 40.0 16.0 = inr s.
Proof.
  destruct (sharding_strategy_raises_iff_no_device 0 40.0 16.0 eq_refl) as [H0 _].
  destruct (sharding_strategy_raises_iff_no_device (-2) 40.0 16.0 eq_refl) as [_ Hn].
  split; [exact (H0 eq_refl)|].
  destruct (Hn ltac:(discriminate)) as (s & Hs & _). exists s. exact Hs.
Defined.

(** *** Wrapping a model

    [FullyShardedDataParallel] is the framework's; the wrapper is kept as
    the arguments the code builds for it. *)

Inductive dtype : Type := bfloat16 | float16 | float32.

Record MixedPrecision : Type := {
  param_dtype : dtype;
  reduce_dtype : dtype;
  buffer_dtype : dtype
}.

(** What the planner reads of a model, its submodules numbered: the
    [blocks] attribute when the model has one, and the element count of
    each parameter. *)
Record nn_model : Type := {
  blocks : option (list nat);
  numels : list Z
}.

Record FSDP : Type := {
  module : nn_model;
  process_group : option nat;
  sharding_strategy : ShardingStrategy;
  (** the [lambda_fn] of the auto-wrap policy: whether a submodule is a
      wrap unit *)
  lambda_fn : nat -> result bool;
  mixed_precision : MixedPrecision;
  device_id : Z;
  (** [CPUOffload(offload_params=...)], when one is passed *)
  cpu_offload : option bool;
  sync_module_states : bool;
  use_orig_params : bool;
  (** whether activation checkpointing was applied to the wrapper *)
  checkpointed : bool
}.

(** [lambda m: m in model.blocks] *)
Definition in_blocks (model : nn_model) (m : nat) : result bool :=
  match blocks model with
  | Some bs => ret (existsb (Nat.eqb m) bs)
  | None => raise (AttributeError "object has no attribute 'blocks'")
  end.

(** [lambda m: m in getattr(model, 'blocks', [])] *)
Definition in_blocks_or_none (model : nn_model) (m : nat) : result bool :=
  ret (existsb (Nat.eqb m) (match blocks model with Some bs => bs | None => [] end)).

Definition shard_model (model : nn_model) (device_id : Z)
    (param_dtype reduce_dtype buffer_dtype : dtype) (process_group : option nat)
    (sharding_strategy : ShardingStrategy) (sync_module_states : bool) : FSDP :=
  {| module := model; process_group := process_group;
     sharding_strategy := sharding_strategy;
     lambda_fn := in_blocks model;
     mixed_precision := {| param_dtype := param_dtype; reduce_dtype := reduce_dtype;
                           buffer_dtype := buffer_dtype |};
     device_id := device_id; cpu_offload := None;
     sync_module_states := sync_module_states; use_orig_params := false;
     checkpointed := false |}.

Definition with_checkpointing (f : FSDP) : FSDP :=
  {| module := module f; process_group := process_group f;
     sharding_strategy := sharding_strategy f; lambda_fn := lambda_fn f;
     mixed_precision := mixed_precision f; device_id := device_id f;
     cpu_offload := cpu_offload f; sync_module_states := sync_module_states f;
     use_orig_params := use_orig_params f; checkpointed := true |}.

(** [shard_model_for_inference]: when checkpointing is applied, [check_fn]
    evaluates [model.blocks[0]] on the first submodule it is asked about,
    and the wrapper always has one. *)
Definition shard_model_for_inference (model : nn_model) (device_id : Z)
    (param_dtype reduce_dtype buffer_dtype : dtype) (process_group : option nat)
    (sharding_strategy : ShardingStrategy)
    (cpu_offload use_activation_checkpointing : bool) : result FSDP :=
  let cpu_offload_config := if cpu_offload then Some true else None in
  let sharded_model :=
    {| module := model; process_group := process_group;
       sharding_strategy := sharding_strategy;
       lambda_fn := in_blocks_or_none model;
       mixed_precision := {| param_dtype := param_dtype; reduce_dtype := reduce_dtype;
                             buffer_dtype := buffer_dtype |};
       device_id := device_id; cpu_offload := cpu_offload_config;
       sync_module_states := true; use_orig_params := true;
       checkpointed := false |} in
  match use_activation_checkpointing, blocks model with
  | true, Some bs =>
      first <- getitem bs 0 ;;
      ret (with_checkpointing sharded_model)
  | _, _ => ret sharded_model
  end.

Definition configure_fsdp_for_ampere (model : nn_model) (device_id num_gpus : Z)
    (cpu_offload : bool) : result FSDP :=
  let param_dtype := bfloat16 in
  let total_params := fold_left Z.add (numels model) 0 in
  model_size_gb <- int_truediv (total_params * 2) (1024 ^ 3) ;;
  let available_memory_gb := 20.0%float in
  sharding_strategy <-
    get_optimal_sharding_strategy num_gpus model_size_gb available_memory_gb ;;
  shard_model_for_inference model device_id param_dtype float32 float32 None
    sharding_strategy cpu_offload false.

(** X11: the two wrap policies select the same submodules, the members of
    [blocks], on a model that has blocks; on a model without the attribute
    the inference policy selects nothing, while the training policy of
    [shard_model] raises [AttributeError] for every submodule it is asked
    about. *)
Theorem wrap_policies (model : nn_model) (device_id : Z)
    (p r b : dtype) (pg : option nat) (s : ShardingStrategy)
    (sync offload : bool) (m : nat) :
  let training := shard_model model device_id p r b pg s sync in
  exists inference,
    shard_model_for_inference model device_id p r b pg s offload false = inr inference /\
    (forall bs, blocks model = Some bs ->
       lambda_fn training m = inr (existsb (Nat.eqb m) bs) /\
       lambda_fn inference m = lambda_fn training m /\
       (lambda_fn inference m = inr true <-> In m bs)) /\
    (blocks model = None ->
       lambda_fn inference m = inr false /\
       exists e, lambda_fn training m = inl (AttributeError e)).
Proof.
  intros training. eexists. split; [reflexivity|].
  cbn [lambda_fn training shard_model]. unfold in_blocks, in_blocks_or_none.
  split.
  - intros bs ->. repeat split; try reflexivity.
    + intros [= H]. apply existsb_exists in H as (x & Hx & Hm).
      apply Nat.eqb_eq in Hm. now subst.
    + intros H. unfold ret. f_equal. apply existsb_exists. exists m.
      split; [assumption|apply Nat.eqb_refl].
  - intros ->. split; [reflexivity|eexists; reflexivity].
Qed.

(** X12: [shard_model_for_inference] raises exactly when activation
    checkpointing is asked for on a model whose [blocks] is present and
    empty ([model.blocks[0]] raises [IndexError]); otherwise it returns a
    wrapper that syncs module states and keeps the original parameters,
    offloads parameters exactly when asked, and is checkpointed exactly
    when asked on a model with blocks. *)
Theorem shard_model_for_inference_checkpointing (model : nn_model)
    (device_id : Z) (p r b : dtype) (pg : option nat) (s : ShardingStrategy)
    (offload ckpt : bool) :
  let res := shard_model_for_inference model device_id p r b pg s offload ckpt in
  (res = inl IndexError <-> ckpt = true /\ blocks model = Some []) /\
  (~ (ckpt = true /\ blocks model = Some []) ->
   exists f, res = inr f /\
     sync_module_states f = true /\ use_orig_params f = true /\
     sharding_strategy f = s /\
     cpu_offload f = (if offload then Some true else None) /\
     checkpointed f
     = match ckpt, blocks model with
       | true, Some (_ :: _) => true
       | _, _ => false
       end).
Proof.
  intros res. subst res. unfold shard_model_for_inference.
  destruct ckpt; [destruct (blocks model) as [[|first bs]|] eqn:Eb|];
    cbn [getitem bind ret List.length]; simpl;
    (split; [split; [try discriminate; auto|intros [H1 H2]; try discriminate; auto]|]);
    try (intros Hnot; eexists; split; [reflexivity|]; repeat split; reflexivity).
  intros Hnot. exfalso. apply Hnot. auto.
Qed.

(** X13: with a parameter count and a device count of at most 53 bits,
    [configure_fsdp_for_ampere] raises exactly when the device count is
    zero; otherwise it returns a wrapper with bf16 parameters, fp32
    reduction and buffers, no activation checkpointing, offload as asked,
    and the strategy cut at 10 and 16 GB per device (half and four fifths
    of the 20 GB it assumes), the model counted at two bytes per
    parameter. *)
Theorem configure_fsdp_for_ampere_cutoffs (model : nn_model)
    (device_id num_gpus : Z) (offload : bool) :
  let total_params := fold_left Z.add (numels model) 0 in
  small (total_params * 2) = true ->
  small num_gpus = true ->
  let per_device :=
    (float_of_small (total_params * 2) / float_of_small (1024 ^ 3)
     / float_of_small num_gpus)%float in
  (num_gpus = 0 ->
     configure_fsdp_for_ampere model device_id num_gpus offload
     = inl ZeroDivisionError) /\
  (num_gpus <> 0 ->
     exists f,
       configure_fsdp_for_ampere model device_id num_gpus offload = inr f /\
       mixed_precision f
       = {| param_dtype := bfloat16; reduce_dtype := float32;
            buffer_dtype := float32 |} /\
       checkpointed f = false /\
       cpu_offload f = (if offload then Some true else None) /\
       sharding_strategy f
       = (if (per_device <? 10.0)%float then SHARD_GRAD_OP
          else if (per_device <? 16.0)%float then FULL_SHARD
          else HYBRID_SHARD)).
Proof.
  intros total_params Hp Hn per_device. unfold configure_fsdp_for_ampere.
  fold total_params.
  rewrite ResourcePlanner.int_truediv_small by (auto; discriminate).
  cbn [bind]. split.
  - intros ->. reflexivity.
  - intros Hnz. rewrite (strategy_of_per_device _ _ _ Hnz Hn). cbv zeta.
    fold per_device.
    change (20.0 * 0.5)%float with 10.0%float.
    change (20.0 * 0.8)%float with 16.0%float.
    destruct (per_device <? 10.0)%float;
      [|destruct (per_device <? 16.0)%float];
      cbn [bind]; eexists; (split; [reflexivity|]); repeat split.
Qed.

(** A model of seven billion parameters. *)
Definition seven_billion : nn_model :=
  {| blocks := Some [1; 2]%nat;
     numels := [3000000000; 4000000000] |}.

Lemma configure_fsdp_for_ampere_cutoffs_witness :
  configure_fsdp_for_ampere seven_billion 0 0 false = inl ZeroDivisionError /\
  exists f, configure_fsdp_for_ampere seven_billion 0 1 false = inr f /\
            sharding_strategy f = FULL_SHARD.
Proof.
  destruct (configure_fsdp_for_ampere_cutoffs seven_billion 0 0 false eq_refl eq_refl)
    as [H0 _].
  destruct (configure_fsdp_for_ampere_cutoffs seven_billion 0 1 false eq_refl eq_refl)
    as [_ H1].
  split; [exact (H0 eq_refl)|].
  destruct (H1 ltac:(discriminate)) as (f & Hf & _ & _ & _ & Hs).
  exists f. split; [exact Hf|]. rewrite Hs. reflexivity.
Defined.

End ShardingPlanner.

(** ** Two-dimensional tensors

    A weight is a tensor of two axes with binary32 entries, the dtype that
    [nn.Linear] and [torch.zeros] allocate by default: its shape and its
    rows.  Every operation rounds to binary32, an in-place one included,
    and a Python float that meets a tensor is converted to binary32 first.
    The order in which a matrix product sums its terms is the backend's;
    here it is left to right. *)

Module Tensor.
Import Py.

(** A binary32 number: 24 bits of precision, exponents below 128. *)
Abbreviation f32 := spec_float.

Definition add32 : f32 -> f32 -> f32 := SFadd 24 128.
Definition sub32 : f32 -> f32 -> f32 := SFsub 24 128.
Definition mul32 : f32 -> f32 -> f32 := SFmul 24 128.

(** The binary32 nearest to a Python float. *)
Definition to32 (x : float) : f32 :=
  match Prim2SF x with
  | S754_finite s m e => binary_round 24 128 s m e
  | sf => sf
  end.



Record tensor : Type := {
  rows : nat;
  cols : nat;
  data : list (list f32)
}.

(** [t[i, j]] *)
Definition get (t : tensor) (i j : nat) : f32 :=
  nth j (nth i (data t) []) (S754_zero false).

(** The tensor of shape [r x c] whose entry [(i, j)] is [f i j]. *)
Definition tabulate (r c : nat) (f : nat -> nat -> f32) : tensor :=
  {| rows := r; cols := c;
     data := map (fun i => map (fun j => f i j) (seq 0 c)) (seq 0 r) |}.

Definition of_rows (l : list (list f32)) : tensor :=
  {| rows := List.length l;
     cols := match l with [] => 0 | r :: _ => List.length r end;
     data := l |}.

(** [torch.tensor(l, dtype=torch.float32)] *)
Definition of_floats (l : list (list float)) : tensor :=
  of_rows (map (map to32) l).

Definition zeros (r c : nat) : tensor := tabulate r c (fun _ _ => S754_zero false).

(** [t.T] *)
Definition transpose (t : tensor) : tensor :=
  tabulate (cols t) (rows t) (fun i j => get t j i).

(** [t * s] for a Python float [s]. *)
Definition scale (t : tensor) (s : float) : tensor :=
  tabulate (rows t) (cols t) (fun i j => mul32 (get t i j) (to32 s)).

Definition dot (a b : tensor) (i j : nat) : f32 :=
  fold_left (fun acc k => add32 acc (mul32 (get a i k) (get b k j)))
            (seq 0 (cols a)) (S754_zero false).

(** [a @ b] *)
Definition matmul (a b : tensor) : result tensor :=
  if Nat.eqb (cols a) (rows b)
  then ret (tabulate (rows a) (cols b) (dot a b))
  else raise (RuntimeError "mat1 and mat2 shapes cannot be multiplied").

(** Whether [d] broadcasts to the shape [r x c]: each axis agrees or has
    size one. *)
Definition broadcasts (d : tensor) (r c : nat) : bool :=
  (Nat.eqb (rows d) r || Nat.eqb (rows d) 1) &&
  (Nat.eqb (cols d) c || Nat.eqb (cols d) 1).

(** The entry of [d] that position [(i, j)] of the broadcast reads. *)
Definition bget (d : tensor) (i j : nat) : f32 :=
  get d (if Nat.eqb (rows d) 1 then 0 else i) (if Nat.eqb (cols d) 1 then 0 else j).

(** [w op= d], in place on [w]: [d] is broadcast to the shape of [w]. *)
Definition inplace (op : f32 -> f32 -> f32) (w d : tensor) : result tensor :=
  if broadcasts d (rows w) (cols w)
  then ret (tabulate (rows w) (cols w) (fun i j => op (get w i j) (bget d i j)))
  else raise (RuntimeError "output shape does not match the broadcast shape").

Definition iadd : tensor -> tensor -> result tensor := inplace add32.
Definition isub : tensor -> tensor -> result tensor := inplace sub32.

Lemma get_tabulate r c f i j :
  (i < r)%nat -> (j < c)%nat -> get (tabulate r c f) i j = f i j.
Proof.
  intros Hi Hj. unfold get, tabulate; simpl.
  rewrite (nth_indep _ [] (map (fun j => f 0%nat j) (seq 0 c)))
    by (now rewrite length_map, length_seq).
  rewrite (map_nth (fun i => map (fun j => f i j) (seq 0 c)) (seq 0 r) 0%nat i).
  rewrite seq_nth by assumption. simpl.
  rewrite (nth_indep _ (S754_zero false) (f i 0%nat))
    by (now rewrite length_map, length_seq).
  rewrite (map_nth (fun j => f i j) (seq 0 c) 0%nat j).
  now rewrite seq_nth.
Qed.


(** *** Rounding of a sum and of a difference

    Below the overflow threshold the result is a number within
    [2 ^ -24] of the exact one, relatively. *)



End Tensor.

(** ** LoRA layers ([ovi/modules/lora_lightning.py]) *)

Module Adapter.
Import Py Tensor.
Local Open Scope string_scope.
Local Open Scope Z_scope.

(** [nn.Linear]: the weight has shape [out_features x in_features]; the
    bias is never touched by the adapter code and is left out. *)
Record Linear : Type := {
  in_features : nat;
  out_features : nat;
  weight : tensor
}.

Record LoRALayer : Type := {
  rank : Z;
  alpha : float;
  scaling : float;
  lora_A : tensor;
  lora_B : tensor
}.

Record LoRALinear : Type := {
  base_layer : Linear;
  lora : LoRALayer;
  merged : bool
}.

Definition with_weight (b : Linear) (w : tensor) : Linear :=
  {| in_features := in_features b; out_features := out_features b; weight := w |}.

(** [LoRALayer.__init__]: [kaiming] stands for the random draw of
    [kaiming_uniform_] on a tensor of the given shape. *)
Definition LoRALayer_init (kaiming : nat -> nat -> tensor)
    (in_f out_f : nat) (rank : Z) (alpha : float) : result LoRALayer :=
  scaling <- float_truediv_int alpha rank ;;
  if rank <? 0 then raise (RuntimeError "negative dimension")
  else ret {| rank := rank; alpha := alpha; scaling := scaling;
              lora_A := kaiming in_f (Z.to_nat rank);
              lora_B := zeros (Z.to_nat rank) out_f |}.

(** [LoRALinear.__init__] *)
Definition LoRALinear_init (kaiming : nat -> nat -> tensor)
    (base : Linear) (rank : Z) (alpha : float) : result LoRALinear :=
  l <- LoRALayer_init kaiming (in_features base) (out_features base) rank alpha ;;
  ret {| base_layer := base; lora := l; merged := false |}.

(** [lora_A @ lora_B * scaling] *)
Definition lora_weight (l : LoRALayer) : result tensor :=
  ab <- matmul (lora_A l) (lora_B l) ;;
  ret (scale ab (scaling l)).

Definition merge_weights (self : LoRALinear) : result LoRALinear :=
  if merged self then ret self
  else
    lw <- lora_weight (lora self) ;;
    w <- iadd (weight (base_layer self)) (transpose lw) ;;
    ret {| base_layer := with_weight (base_layer self) w;
           lora := lora self; merged := true |}.








(** What merge does to an unmerged layer whose adapter fits: it adds the
    product [ab] of the two matrices, times the scaling, transposed. *)
Lemma merge_adds self ab :
  merged self = false ->
  matmul (lora_A (lora self)) (lora_B (lora self)) = inr ab ->
  let w := weight (base_layer self) in
  let d := transpose (scale ab (scaling (lora self))) in
  broadcasts d (rows w) (cols w) = true ->
  merge_weights self
  = inr {| base_layer :=
             with_weight (base_layer self)
               (tabulate (rows w) (cols w)
                  (fun i j => add32 (get w i j) (bget d i j)));
           lora := lora self; merged := true |}.
Proof.
  intros Hm Hab w d Hb. unfold merge_weights, lora_weight. rewrite Hm, Hab.
  cbn [bind ret]. fold d. unfold iadd, inplace. fold w. rewrite Hb. reflexivity.
Qed.




(** *** The drift of an entry over repeated round trips *)










(** *** A freshly built adapter *)

(** Neither infinite nor NaN. *)
Definition finite (x : f32) : bool :=
  match x with
  | S754_zero _ | S754_finite _ _ _ => true
  | _ => false
  end.

Definition zero (x : f32) : bool :=
  match x with
  | S754_zero _ => true
  | _ => false
  end.

Lemma get_tabulate_total r c f i j :
  get (tabulate r c f) i j
  = if (Nat.ltb i r && Nat.ltb j c)%bool then f i j else S754_zero false.
Proof.
  destruct (Nat.ltb_spec i r) as [Hi|Hi]; simpl.
  - destruct (Nat.ltb_spec j c) as [Hj|Hj]; [now apply get_tabulate|].
    unfold get, tabulate; simpl.
    rewrite (nth_indep _ [] (map (fun j => f 0%nat j) (seq 0 c)))
      by (now rewrite length_map, length_seq).
    rewrite (map_nth (fun i => map (fun j => f i j) (seq 0 c)) (seq 0 r) 0%nat i).
    apply nth_overflow. now rewrite length_map, length_seq.
  - unfold get, tabulate; simpl.
    rewrite (nth_overflow _ []) by (now rewrite length_map, length_seq).
    now destruct j.
Qed.

Lemma zero_tabulate r c f :
  (forall i j, zero (f i j) = true) ->
  forall i j, zero (get (tabulate r c f) i j) = true.
Proof.
  intros H i j. rewrite get_tabulate_total.
  destruct (_ && _)%bool; [apply H|reflexivity].
Qed.

Lemma mul_zero_r x y : finite x = true -> zero y = true -> zero (mul32 x y) = true.
Proof.
  unfold finite, zero. destruct x; destruct y; simpl; congruence.
Qed.

Lemma mul_zero_l x y : zero x = true -> finite y = true -> zero (mul32 x y) = true.
Proof.
  unfold finite, zero. destruct x; destruct y; simpl; congruence.
Qed.

Lemma add_zero_zero a t :
  a = S754_zero false -> zero t = true -> add32 a t = S754_zero false.
Proof.
  unfold zero. intros ->. destruct t as [[|]| | |]; simpl; congruence.
Qed.

(** Adding a zero gives the number back, but for a negative zero, which
    adding a positive zero makes positive. *)
Lemma add_zero_cases w z :
  zero z = true ->
  add32 w z = w \/ (w = S754_zero true /\ add32 w z = S754_zero false).
Proof.
  unfold zero. destruct z as [sz| | |]; try discriminate. intros _.
  destruct w as [[|]| | |]; destruct sz; simpl; auto.
Qed.

Lemma dot_zeros a b i j :
  (forall k, finite (get a i k) = true) ->
  (forall k, zero (get b k j) = true) ->
  dot a b i j = S754_zero false.
Proof.
  intros Ha Hb. unfold dot.
  assert (H : forall l acc, acc = S754_zero false ->
            fold_left (fun acc k => add32 acc (mul32 (get a i k) (get b k j))) l acc
            = S754_zero false).
  { induction l as [|k l IH]; intros acc Hacc; [exact Hacc|].
    simpl. apply IH. apply add_zero_zero; [exact Hacc|].
    apply mul_zero_r; auto. }
  apply H. reflexivity.
Qed.

Lemma get_zeros r c i j : get (zeros r c) i j = S754_zero false.
Proof.
  unfold zeros. rewrite get_tabulate_total. now destruct (_ && _)%bool.
Qed.

Lemma LoRALinear_init_inv kaiming base rank alpha fresh :
  LoRALinear_init kaiming base rank alpha = inr fresh ->
  exists s,
    float_truediv_int alpha rank = inr s /\
    fresh = {| base_layer := base;
               lora := {| rank := rank; alpha := alpha; scaling := s;
                          lora_A := kaiming (in_features base) (Z.to_nat rank);
                          lora_B := zeros (Z.to_nat rank) (out_features base) |};
               merged := false |}.
Proof.
  unfold LoRALinear_init, LoRALayer_init.
  destruct (float_truediv_int alpha rank) as [e|s]; [discriminate|].
  cbn [bind ret]. destruct (rank <? 0); [discriminate|].
  cbn [bind ret]. intros [= <-]. exists s. split; reflexivity.
Qed.

(** The constructor sets the scaling to [alpha / rank]. *)
Lemma LoRALinear_init_scaling kaiming base rank alpha fresh :
  LoRALinear_init kaiming base rank alpha = inr fresh ->
  merged fresh = false /\
  float_truediv_int (Adapter.alpha (lora fresh)) (Adapter.rank (lora fresh))
  = inr (scaling (lora fresh)).
Proof.
  intros H. destruct (LoRALinear_init_inv _ _ _ _ _ H) as (s & Hs & ->).
  split; [reflexivity|exact Hs].
Qed.

(** X20 ([LoRALayer.__init__], [merge_weights]).  A wrapper as
    [LoRALinear.__init__] builds it has [lora_B] all zero, so merging it
    succeeds and gives every base weight back: the entry is unchanged, but
    for a negative zero, which may come back as a positive zero.  The draw
    for [lora_A] is finite, the scaling is finite as the binary32 number
    the product takes it for, and the weight has the shape the layer
    announces. *)
Theorem merge_fresh_adapter kaiming base rank alpha fresh :
  (forall r c, rows (kaiming r c) = r /\ cols (kaiming r c) = c) ->
  (forall r c i j, finite (get (kaiming r c) i j) = true) ->
  rows (weight base) = out_features base ->
  cols (weight base) = in_features base ->
  LoRALinear_init kaiming base rank alpha = inr fresh ->
  finite (to32 (scaling (lora fresh))) = true ->
  exists m,
    merge_weights fresh = inr m /\ merged m = true /\
    forall i j, (i < out_features base)%nat -> (j < in_features base)%nat ->
      get (weight (base_layer m)) i j = get (weight base) i j
      \/ (get (weight base) i j = S754_zero true
          /\ get (weight (base_layer m)) i j = S754_zero false).
Proof.
  intros Hshape Hfin Hrows Hcols Hinit Hs.
  destruct (LoRALinear_init_inv _ _ _ _ _ Hinit) as (s & _ & ->).
  cbn [lora scaling] in Hs.
  set (A := kaiming (in_features base) (Z.to_nat rank)).
  set (B := zeros (Z.to_nat rank) (out_features base)).
  set (ab := tabulate (rows A) (cols B) (dot A B)).
  set (d := transpose (scale ab s)).
  set (l := {| base_layer := base;
               lora := {| rank := rank; alpha := alpha; scaling := s;
                          lora_A := A; lora_B := B |};
               merged := false |}).
  assert (Hab : matmul (lora_A (lora l)) (lora_B (lora l)) = inr ab).
  { unfold matmul. cbn [l lora lora_A lora_B].
    replace (Nat.eqb (cols A) (rows B)) with true; [reflexivity|].
    symmetry. apply Nat.eqb_eq. unfold A, B.
    destruct (Hshape (in_features base) (Z.to_nat rank)) as [_ ->]. reflexivity. }
  assert (Hb : broadcasts d (rows (weight base)) (cols (weight base)) = true).
  { unfold broadcasts, d, ab, A, B. simpl.
    destruct (Hshape (in_features base) (Z.to_nat rank)) as [-> _].
    rewrite Hrows, Hcols, !Nat.eqb_refl. reflexivity. }
  assert (Hzero : forall i j, zero (get d i j) = true).
  { unfold d, transpose. apply zero_tabulate. intros i j.
    unfold scale. apply zero_tabulate. intros i' j'.
    apply mul_zero_l; [|exact Hs].
    unfold ab. apply zero_tabulate. intros i2 j2.
    rewrite dot_zeros; [reflexivity| |].
    - intros k. apply Hfin.
    - intros k. unfold B. rewrite get_zeros. reflexivity. }
  eexists. split; [exact (merge_adds l ab eq_refl Hab Hb)|].
  split; [reflexivity|].
  intros i j Hi Hj. cbn [l base_layer with_weight weight].
  rewrite get_tabulate by (rewrite ?Hrows, ?Hcols; assumption).
  apply add_zero_cases. unfold bget. apply Hzero.
Qed.

Definition unit_linear : Linear :=
  {| in_features := 2; out_features := 1; weight := of_floats [[1.0; (-0)]%float] |}.

Lemma merge_fresh_adapter_witness :
  exists m,
    merge_weights
      {| base_layer := unit_linear;
         lora := {| rank := 4; alpha := 1; scaling := 0.25;
                    lora_A := tabulate 2 4 (fun _ _ => to32 0.5);
                    lora_B := zeros 4 1 |};
         merged := false |} = inr m /\ merged m = true /\
    forall i j, (i < 1)%nat -> (j < 2)%nat ->
      get (weight (base_layer m)) i j = get (weight unit_linear) i j
      \/ (get (weight unit_linear) i j = S754_zero true
          /\ get (weight (base_layer m)) i j = S754_zero false).
Proof.
  apply (merge_fresh_adapter (fun r c => tabulate r c (fun _ _ => to32 0.5))
           unit_linear 4 1%float).
  - intros r c. split; reflexivity.
  - intros r c i j. rewrite get_tabulate_total.
    destruct (_ && _)%bool; reflexivity.
  - reflexivity.
  - reflexivity.
  - reflexivity.
  - reflexivity.
Defined.

(** X21 ([LoRALayer.__init__], [LoRALinear.__init__]).  A rank of zero
    makes the constructor raise [ZeroDivisionError] at [alpha / rank]; a
    negative rank of at most 53 bits passes the division and fails at the
    allocation of the matrices; a positive one gives an unmerged wrapper
    around the same base layer with [scaling = alpha / float(rank)] and
    [lora_B] all zero. *)
Theorem LoRALinear_init_rank kaiming base rank alpha :
  small rank = true ->
  LoRALinear_init kaiming base rank alpha
  = if rank =? 0 then inl ZeroDivisionError
    else if rank <? 0 then inl (RuntimeError "negative dimension")
    else inr {| base_layer := base;
                lora := {| rank := rank; alpha := alpha;
                           scaling := (alpha / float_of_small rank)%float;
                           lora_A := kaiming (in_features base) (Z.to_nat rank);
                           lora_B := zeros (Z.to_nat rank) (out_features base) |};
                merged := false |}.
Proof.
  intros Hsmall. unfold LoRALinear_init, LoRALayer_init, float_truediv_int, float_of_int.
  rewrite Hsmall. cbn [bind ret].
  destruct (Z.eqb_spec rank 0) as [->|Hne]; [reflexivity|].
  rewrite (ShardingPlanner.float_of_small_nonzero_any rank Hne Hsmall).
  cbn [bind ret]. destruct (rank <? 0); reflexivity.
Qed.

Lemma LoRALinear_init_rank_witness :
  LoRALinear_init (fun r c => zeros r c) unit_linear 0 1%float = inl ZeroDivisionError.
Proof.
  apply (LoRALinear_init_rank (fun r c => zeros r c) unit_linear 0 1%float).
  reflexivity.
Defined.

(** *** Configurations *)

(** A configuration dictionary; the presets alone have the key
    ['merge']. *)
Record LoRAConfig : Type := {
  cfg_rank : Z;
  cfg_alpha : float;
  cfg_target_modules : list string;
  cfg_dropout : float;
  cfg_merge : option bool
}.

Definition create_lora_config (rank : Z) (alpha : float)
    (target_modules : option (list string)) (dropout : float) : LoRAConfig :=
  let target_modules :=
    match target_modules with
    | None => ["q"; "k"; "v"; "o"]
    | Some t => t
    end in
  {| cfg_rank := rank; cfg_alpha := alpha; cfg_target_modules := target_modules;
     cfg_dropout := dropout; cfg_merge := None |}.

Definition LORA_CONFIGS : list (string * LoRAConfig) :=
  [ ("lightning",
     {| cfg_rank := 4; cfg_alpha := 4.0; cfg_target_modules := ["q"; "v"];
        cfg_dropout := 0.0; cfg_merge := Some true |});
    ("quality",
     {| cfg_rank := 16; cfg_alpha := 16.0;
        cfg_target_modules := ["q"; "k"; "v"; "o"];
        cfg_dropout := 0.1; cfg_merge := Some false |});
    ("balanced",
     {| cfg_rank := 8; cfg_alpha := 8.0; cfg_target_modules := ["q"; "v"; "o"];
        cfg_dropout := 0.05; cfg_merge := Some true |}) ].

Definition get_lora_config (preset : string) : result LoRAConfig :=
  match lookup preset LORA_CONFIGS with
  | None =>
      raise (ValueError ("Unknown preset: " ++ preset
                         ++ ". Choose from ['lightning', 'quality', 'balanced']"))
  | Some c => ret c
  end.

(** X28 ([get_lora_config], [LORA_CONFIGS], [create_lora_config],
    [LoRALayer.__init__]).  [get_lora_config] raises [ValueError] exactly
    on a name other than [lightning], [quality] and [balanced]; for each
    preset it returns, [LoRALayer.__init__] with the preset's rank and
    alpha succeeds with a scaling of exactly 1.0, and the preset's target
    modules are among the default ones of [create_lora_config]. *)
Theorem get_lora_config_presets (preset : string) :
  match get_lora_config preset with
  | inl e =>
      ~ In preset ["lightning"; "quality"; "balanced"] /\
      e = ValueError ("Unknown preset: " ++ preset
                      ++ ". Choose from ['lightning', 'quality', 'balanced']")
  | inr c =>
      In preset ["lightning"; "quality"; "balanced"] /\
      (forall kaiming in_f out_f,
         exists l,
           LoRALayer_init kaiming in_f out_f (cfg_rank c) (cfg_alpha c) = inr l /\
           scaling l = 1%float) /\
      incl (cfg_target_modules c)
           (cfg_target_modules (create_lora_config 4 1%float None 0%float))
  end.
Proof.
  unfold get_lora_config, LORA_CONFIGS. cbn [lookup].
  destruct (String.eqb_spec preset "lightning") as [->|H1].
  { split; [simpl; auto|]. split.
    - intros. eexists. split; reflexivity.
    - intros x Hx. simpl in *. intuition. }
  destruct (String.eqb_spec preset "quality") as [->|H2].
  { split; [simpl; auto|]. split.
    - intros. eexists. split; reflexivity.
    - intros x Hx. simpl in *. intuition. }
  destruct (String.eqb_spec preset "balanced") as [->|H3].
  { split; [simpl; auto|]. split.
    - intros. eexists. split; reflexivity.
    - intros x Hx. simpl in *. intuition. }
  split; [|reflexivity]. simpl. intuition.
Qed.

End Adapter.

(** ** The adapter manager over a model ([LoRAManager])

    A model is a graph of module objects held in a store and named by their
    position in it: a wrapper and the tree share the base layer they both
    point to, and [setattr] rewires the tree in place while
    [named_modules] is still walking it. *)

Module AdapterManager.
Import Py Tensor Adapter.
Local Open Scope string_scope.

Definition oid : Type := nat.

(** What a module object is, besides its children. *)
Inductive payload : Type :=
| PModule
| PLinear (l : Linear)
| PLoRALinear (merged : bool)
| PLoRALayer (l : LoRALayer)
| PIdentity.

(** A module object: [_modules] is the ordered dictionary of its
    children. *)
Record module : Type := {
  payload_of : payload;
  _modules : list (string * oid)
}.

Definition heap : Type := list module.

Definition deref (h : heap) (o : oid) : result module :=
  match nth_error h o with
  | Some m => ret m
  | None => raise (RuntimeError "dangling module reference")
  end.

Fixpoint update {A : Type} (l : list A) (i : nat) (x : A) : list A :=
  match l, i with
  | [], _ => []
  | _ :: rest, O => x :: rest
  | a :: rest, S k => a :: update rest k x
  end.

Definition alloc (h : heap) (m : module) : heap * oid :=
  (app h [m], List.length h).

(** [d[k] = v]: an existing key keeps its place. *)
Fixpoint dict_set {V : Type} (k : string) (v : V) (d : list (string * V))
  : list (string * V) :=
  match d with
  | [] => [(k, v)]
  | (k', v') :: rest =>
      if String.eqb k k' then (k, v) :: rest else (k', v') :: dict_set k v rest
  end.

(** [s.split('.')] *)
Fixpoint split_dot (s : string) : list string :=
  match s with
  | EmptyString => [""]
  | String c rest =>
      let parts := split_dot rest in
      if Ascii.eqb c "."%char then "" :: parts
      else match parts with
           | p :: ps => String c p :: ps
           | [] => [String c ""]
           end
  end.

(** ['.'.join(l)] *)
Definition join_dot (l : list string) : string := String.concat "." l.

(** [sub in s] *)
Fixpoint contains (sub s : string) : bool :=
  if String.prefix sub s then true
  else match s with
       | EmptyString => false
       | String _ rest => contains sub rest
       end.

(** [getattr(mod, item)] where a module is expected. *)
Definition get_child (h : heap) (o : oid) (item : string) : result oid :=
  m <- deref h o ;;
  match lookup item (_modules m) with
  | Some c => ret c
  | None => raise (AttributeError ("module has no attribute `" ++ item ++ "`"))
  end.

Fixpoint walk (h : heap) (o : oid) (atoms : list string) : result oid :=
  match atoms with
  | [] => ret o
  | item :: rest => c <- get_child h o item ;; walk h c rest
  end.

(** [nn.Module.get_submodule] *)
Definition get_submodule (h : heap) (self : oid) (target : string) : result oid :=
  if String.eqb target "" then ret self else walk h self (split_dot target).

(** [setattr(parent, name, value)] for a module value. *)
Definition setattr (h : heap) (parent : oid) (name : string) (value : oid)
  : result heap :=
  m <- deref h parent ;;
  ret (update h parent {| payload_of := payload_of m;
                          _modules := dict_set name value (_modules m) |}).

(** *** [named_modules] as a generator

    A frame is either a module about to be entered or a module whose
    children are being listed, with the position reached; the children are
    read from the store when the generator resumes, so a child replaced in
    the meantime is seen as replaced. *)

Inductive frame : Type :=
| Enter (prefix : string) (o : oid)
| Items (prefix : string) (o : oid) (i : nat).

Record generator : Type := {
  memo : list oid;
  stack : list frame
}.

Definition named_modules (model : oid) : generator :=
  {| memo := []; stack := [Enter "" model] |}.

Definition submodule_prefix (prefix name : string) : string :=
  prefix ++ (if String.eqb prefix "" then "" else ".") ++ name.

(** [for name, module in model.named_modules(): body]; [None] when the
    fuel runs out, one unit being spent per generator step. *)
Fixpoint for_named_modules (fuel : nat)
    (body : string -> oid -> heap -> result heap)
    (g : generator) (h : heap) : option (result heap) :=
  match fuel with
  | O => None
  | S fuel =>
      match stack g with
      | [] => Some (ret h)
      | Enter p o :: rest =>
          if existsb (Nat.eqb o) (memo g)
          then for_named_modules fuel body {| memo := memo g; stack := rest |} h
          else match body p o h with
               | inl e => Some (inl e)
               | inr h' =>
                   for_named_modules fuel body
                     {| memo := o :: memo g; stack := Items p o 0 :: rest |} h'
               end
      | Items p o i :: rest =>
          match deref h o with
          | inl e => Some (inl e)
          | inr m =>
              match nth_error (_modules m) i with
              | None =>
                  for_named_modules fuel body {| memo := memo g; stack := rest |} h
              | Some (name, child) =>
                  for_named_modules fuel body
                    {| memo := memo g;
                       stack := Enter (submodule_prefix p name) child
                                :: Items p o (S i) :: rest |} h
              end
          end
      end
  end.

(** *** Merging through the store *)

(** [type(module).__name__] *)
Definition class_name (p : payload) : string :=
  match p with
  | PModule => "Module"
  | PLinear _ => "Linear"
  | PLoRALinear _ => "LoRALinear"
  | PLoRALayer _ => "LoRALayer"
  | PIdentity => "Identity"
  end.

Definition no_attribute (p : payload) (attr : string) : exn :=
  AttributeError ("'" ++ class_name p ++ "' object has no attribute '" ++ attr ++ "'").

(** [self.base_layer.weight]: only a linear layer has one. *)
Definition weight_owner (h : heap) (o : oid) : result Linear :=
  m <- deref h o ;;
  match payload_of m with
  | PLinear l => ret l
  | p => raise (no_attribute p "weight")
  end.

Definition lora_of (h : heap) (self : oid) : result LoRALayer :=
  lo <- get_child h self "lora" ;;
  m <- deref h lo ;;
  match payload_of m with
  | PLoRALayer l => ret l
  | p => raise (no_attribute p "lora_A")
  end.

Definition set_payload (h : heap) (o : oid) (p : payload) : result heap :=
  m <- deref h o ;;
  ret (update h o {| payload_of := p; _modules := _modules m |}).

(** [LoRALinear.merge_weights] and [unmerge_weights] on the object [self]:
    the base weight is updated in place. *)
Definition rewrite_base (op : tensor -> tensor -> result tensor)
    (flag : bool) (h : heap) (self : oid) : result heap :=
  l <- lora_of h self ;;
  lw <- lora_weight l ;;
  b <- get_child h self "base_layer" ;;
  base <- weight_owner h b ;;
  w <- op (weight base) (transpose lw) ;;
  h <- set_payload h b (PLinear (with_weight base w)) ;;
  set_payload h self (PLoRALinear flag).

Definition merge_at (h : heap) (self : oid) : result heap :=
  m <- deref h self ;;
  match payload_of m with
  | PLoRALinear true => ret h
  | PLoRALinear false => rewrite_base iadd true h self
  | p => raise (no_attribute p "merged")
  end.

Definition unmerge_at (h : heap) (self : oid) : result heap :=
  m <- deref h self ;;
  match payload_of m with
  | PLoRALinear false => ret h
  | PLoRALinear true => rewrite_base isub false h self
  | p => raise (no_attribute p "merged")
  end.

(** *** The manager *)

Definition state_dict : Type := list (string * tensor).

Record LoRAManager : Type := {
  adapters : list (string * state_dict);
  active_adapter : option string
}.

Definition new_manager : LoRAManager := {| adapters := []; active_adapter := None |}.

(** What is stored: at each path nothing, or something that [torch.load]
    reads as a state dict or fails on (a directory, a file that is no
    checkpoint) with the exception it raises. *)
Definition storage : Type := string -> option (result state_dict).

(** [load_adapter] *)
Definition load_adapter (disk : storage)
    (self : LoRAManager) (name path : string) : result LoRAManager :=
  match disk path with
  | None => raise (FileNotFoundError ("LoRA adapter not found: " ++ path))
  | Some loaded =>
      state_dict <- loaded ;;
      ret {| adapters := dict_set name state_dict (adapters self);
             active_adapter := active_adapter self |}
  end.

Definition is_linear (h : heap) (o : oid) : bool :=
  match nth_error h o with
  | Some {| payload_of := PLinear _ |} => true
  | _ => false
  end.

Definition parent_of (h : heap) (model : oid) (name : string) : result oid :=
  let parent_name := join_dot (removelast (split_dot name)) in
  if String.eqb parent_name "" then ret model else get_submodule h model parent_name.

Definition child_name_of (name : string) : string := last (split_dot name) "".

(** The body of the loop of [apply_adapter]. *)
Definition adapt (kaiming : nat -> nat -> tensor) (adapter_state : state_dict)
    (target_modules : list string) (rank : Z) (alpha : float) (merge : bool)
    (model : oid) (name : string) (module : oid) (h : heap) : result heap :=
  let should_adapt := existsb (fun target => contains target name) target_modules in
  if should_adapt && is_linear h module then
    parent <- parent_of h model name ;;
    base <- weight_owner h module ;;
    fresh <- LoRALinear_init kaiming base rank alpha ;;
    let l :=
      match lookup (name ++ ".lora_A") adapter_state,
            lookup (name ++ ".lora_B") adapter_state with
      | Some a, Some b =>
          {| rank := Adapter.rank (lora fresh); alpha := Adapter.alpha (lora fresh);
             scaling := scaling (lora fresh); lora_A := a; lora_B := b |}
      | _, _ => lora fresh
      end in
    let '(h, dropout) := alloc h {| payload_of := PIdentity; _modules := [] |} in
    let '(h, lo) :=
      alloc h {| payload_of := PLoRALayer l; _modules := [("dropout", dropout)] |} in
    let '(h, lora_linear) :=
      alloc h {| payload_of := PLoRALinear false;
                 _modules := [("base_layer", module); ("lora", lo)] |} in
    h <- setattr h parent (child_name_of name) lora_linear ;;
    if merge then merge_at h lora_linear else ret h
  else ret h.

Definition default_targets : list string := ["q"; "k"; "v"; "o"].

Definition apply_adapter (fuel : nat) (kaiming : nat -> nat -> tensor)
    (self : LoRAManager) (h : heap) (model : oid) (adapter_name : string)
    (target_modules : option (list string)) (rank : Z) (alpha : float)
    (merge : bool) : option (result (LoRAManager * heap)) :=
  match lookup adapter_name (adapters self) with
  | None => Some (raise (ValueError ("Adapter '" ++ adapter_name ++ "' not loaded")))
  | Some adapter_state =>
      let targets :=
        match target_modules with Some t => t | None => default_targets end in
      match for_named_modules fuel
              (adapt kaiming adapter_state targets rank alpha merge model)
              (named_modules model) h with
      | None => None
      | Some (inl e) => Some (inl e)
      | Some (inr h') =>
          Some (ret ({| adapters := adapters self;
                        active_adapter := Some adapter_name |}, h'))
      end
  end.

(** The body of the loop of [remove_adapter]. *)
Definition restore (model : oid) (name : string) (module : oid) (h : heap)
  : result heap :=
  m <- deref h module ;;
  match payload_of m with
  | PLoRALinear merged =>
      h <- (if merged then unmerge_at h module else ret h) ;;
      parent <- parent_of h model name ;;
      base <- get_child h module "base_layer" ;;
      setattr h parent (child_name_of name) base
  | _ => ret h
  end.

Definition remove_adapter (fuel : nat) (self : LoRAManager) (h : heap)
    (model : oid) : option (result (LoRAManager * heap)) :=
  match active_adapter self with
  | None => Some (ret (self, h))
  | Some _ =>
      match for_named_modules fuel (restore model) (named_modules model) h with
      | None => None
      | Some (inl e) => Some (inl e)
      | Some (inr h') =>
          Some (ret ({| adapters := adapters self; active_adapter := None |}, h'))
      end
  end.

(** The object found at a dotted name, with what it is. *)
Definition at_name (h : heap) (model : oid) (name : string)
  : result (oid * payload) :=
  o <- get_submodule h model name ;;
  m <- deref h o ;;
  ret (o, payload_of m).

Lemma nth_error_update_ne {A : Type} (l : list A) i j x :
  i <> j -> nth_error (update l i x) j = nth_error l j.
Proof.
  revert i j. induction l as [|a l IH]; intros [|i] [|j] H; simpl; auto;
    try contradiction.
Qed.

(** On a wrapper held in the store, [merge_at] is [merge_weights] on the
    layer the wrapper denotes, written back to the base layer and the
    flag. *)
Lemma merge_at_agrees h self b lo kb kl base l :
  nth_error h self
  = Some {| payload_of := PLoRALinear false;
            _modules := [("base_layer", b); ("lora", lo)] |} ->
  nth_error h b = Some {| payload_of := PLinear base; _modules := kb |} ->
  nth_error h lo = Some {| payload_of := PLoRALayer l; _modules := kl |} ->
  b <> self ->
  merge_at h self
  = (m <- merge_weights {| base_layer := base; lora := l; merged := false |} ;;
     ret (update
            (update h b {| payload_of := PLinear (base_layer m); _modules := kb |})
            self {| payload_of := PLoRALinear (merged m);
                    _modules := [("base_layer", b); ("lora", lo)] |})).
Proof.
  intros Hself Hb Hlo Hne.
  unfold merge_at, deref. rewrite Hself. cbn [bind ret payload_of].
  unfold rewrite_base, lora_of, get_child, deref. rewrite Hself.
  cbn [bind ret _modules lookup]. simpl String.eqb. cbv iota.
  cbn [bind ret]. rewrite Hlo. cbn [bind ret payload_of].
  unfold merge_weights. cbn [merged lora base_layer].
  destruct (lora_weight l) as [e|lw]; [reflexivity|]. cbn [bind].
  unfold weight_owner, deref. rewrite Hb. cbn [bind ret payload_of].
  destruct (iadd (weight base) (transpose lw)) as [e|w]; [reflexivity|].
  cbn [bind ret]. unfold set_payload, deref. rewrite Hb.
  cbn [bind ret _modules]. rewrite (nth_error_update_ne h b self _ Hne), Hself.
  reflexivity.
Qed.

(** *** One linear layer, two adapters *)

Definition q_proj : Linear :=
  {| in_features := 1; out_features := 1; weight := of_floats [[1.0]%float] |}.

(** A model whose only child is the linear layer [q]. *)
Definition one_linear_model : heap :=
  [ {| payload_of := PModule; _modules := [("q", 1%nat)] |};
    {| payload_of := PLinear q_proj; _modules := [] |} ].

Definition draw (r c : nat) : tensor := tabulate r c (fun _ _ => to32 0.5).

(** Adapters ["a"] and ["b"], both loaded. *)
Definition two_loaded : LoRAManager :=
  {| adapters := [("a", []); ("b", [])]; active_adapter := None |}.

Definition and_then {A B : Type} (x : option (result A))
    (f : A -> option (result B)) : option (result B) :=
  match x with
  | None => None
  | Some (inl e) => Some (inl e)
  | Some (inr a) => f a
  end.

Definition apply_once (merge : bool) : option (result (LoRAManager * heap)) :=
  apply_adapter 64 draw two_loaded one_linear_model 0%nat "a" None 4 1.0 merge.

Definition apply_twice (merge : bool) : option (result (LoRAManager * heap)) :=
  and_then (apply_once merge) (fun s =>
    apply_adapter 64 draw (fst s) (snd s) 0%nat "b" None 4 1.0 merge).

(** One apply followed by remove gives back the model as it was: [q] is
    the linear layer again, with its weight. *)
Lemma apply_remove_restores :
  exists mgr h,
    and_then (apply_once true) (fun s => remove_adapter 64 (fst s) (snd s) 0%nat)
    = Some (inr (mgr, h)) /\
    active_adapter mgr = None /\
    at_name h 0%nat "q" = inr (1%nat, PLinear q_proj).
Proof.
  eexists _, _. split; [vm_compute; reflexivity|]. split; reflexivity.
Qed.

(** C1, on the code: after apply ["a"] then apply ["b"] the active adapter
    is ["b"], but [q] is a wrapper whose base layer is a second wrapper,
    and remove then raises (merged wrappers) or leaves a wrapper in place
    of [q] (unmerged wrappers). *)
Theorem second_apply_stacks_wrappers :
  (exists mgr h oq ob,
     apply_twice true = Some (inr (mgr, h)) /\
     active_adapter mgr = Some "b" /\
     at_name h 0%nat "q" = inr (oq, PLoRALinear true) /\
     at_name h 0%nat "q.base_layer" = inr (ob, PLoRALinear true) /\
     at_name h 0%nat "q.base_layer.base_layer" = inr (1%nat, PLinear q_proj) /\
     remove_adapter 64 mgr h 0%nat
     = Some (inl (AttributeError "'LoRALinear' object has no attribute 'weight'"))) /\
  (exists mgr h mgr' h' oq,
     apply_twice false = Some (inr (mgr, h)) /\
     remove_adapter 64 mgr h 0%nat = Some (inr (mgr', h')) /\
     active_adapter mgr' = None /\
     at_name h' 0%nat "q" = inr (oq, PLoRALinear false)).
Proof.
  split.
  - eexists _, _, _, _. split; [vm_compute; reflexivity|].
    repeat split; vm_compute; reflexivity.
  - eexists _, _, _, _, _. split; [vm_compute; reflexivity|].
    split; [vm_compute; reflexivity|]. split; vm_compute; reflexivity.
Qed.

(** *** The registry of adapters *)

Lemma lookup_dict_set_eq {V : Type} k (v : V) d :
  lookup k (dict_set k v d) = Some v.
Proof.
  induction d as [|[k' v'] d IH]; simpl.
  - now rewrite String.eqb_refl.
  - destruct (String.eqb k k') eqn:E; simpl; rewrite ?String.eqb_refl, ?E; auto.
Qed.

Lemma lookup_dict_set_ne {V : Type} k k' (v : V) d :
  k' <> k -> lookup k' (dict_set k v d) = lookup k' d.
Proof.
  intros Hne. apply String.eqb_neq in Hne.
  induction d as [|[k0 v0] d IH]; simpl.
  - now rewrite Hne.
  - destruct (String.eqb_spec k k0) as [->|Hk]; simpl.
    + now rewrite Hne.
    + now rewrite IH.
Qed.

Lemma length_dict_set {V : Type} k (v : V) d :
  List.length (dict_set k v d)
  = (List.length d + match lookup k d with Some _ => 0 | None => 1 end)%nat.
Proof.
  induction d as [|[k' v'] d IH]; simpl; [reflexivity|].
  destruct (String.eqb k k'); simpl; [lia|]. rewrite IH. lia.
Qed.

(** X14: [load_adapter] raises [FileNotFoundError] when nothing is found
    at the path, and what [torch.load] raises when it fails on what is
    there, registering nothing in either case; when the load succeeds the
    state read is what the registry then holds under the name, replacing
    an adapter of the same name without duplicating the entry, every
    other adapter and the active adapter being left as they were. *)
Theorem load_adapter_registers (disk : storage)
    (self : LoRAManager) (name path : string) :
  match disk path with
  | None =>
      load_adapter disk self name path
      = inl (FileNotFoundError ("LoRA adapter not found: " ++ path))
  | Some (inl e) => load_adapter disk self name path = inl e
  | Some (inr sd) =>
      exists self',
        load_adapter disk self name path = inr self' /\
        lookup name (adapters self') = Some sd /\
        (forall other, other <> name ->
           lookup other (adapters self') = lookup other (adapters self)) /\
        active_adapter self' = active_adapter self /\
        List.length (adapters self')
        = (List.length (adapters self)
           + match lookup name (adapters self) with Some _ => 0 | None => 1 end)%nat
  end.
Proof.
  unfold load_adapter. destruct (disk path) as [[e|sd]|]; [reflexivity| |reflexivity].
  eexists. split; [reflexivity|]. cbn [adapters active_adapter].
  split; [apply lookup_dict_set_eq|].
  split; [intros other Hne; now apply lookup_dict_set_ne|].
  split; [reflexivity|apply length_dict_set].
Qed.

(** *** What [apply_adapter] can raise *)

(** A computation that does not raise [ValueError]. *)
Definition quiet {A : Type} (r : result A) : Prop :=
  forall msg, r <> inl (ValueError msg).

Lemma quiet_ret {A : Type} (a : A) : quiet (ret a).
Proof. intros msg. discriminate. Qed.

Lemma quiet_bind {A B : Type} (m : result A) (k : A -> result B) :
  quiet m -> (forall a, quiet (k a)) -> quiet (bind m k).
Proof.
  intros Hm Hk msg. destruct m as [e|a]; simpl; [|apply Hk].
  intros [= ->]. now apply (Hm msg).
Qed.

Lemma quiet_deref h o : quiet (deref h o).
Proof. unfold deref. destruct (nth_error h o); intros msg; discriminate. Qed.

Lemma quiet_get_child h o item : quiet (get_child h o item).
Proof.
  apply quiet_bind; [apply quiet_deref|]. intros m.
  destruct (lookup item (_modules m)); intros msg; discriminate.
Qed.

Lemma quiet_walk h atoms : forall o, quiet (walk h o atoms).
Proof.
  induction atoms as [|item rest IH]; intros o; simpl; [apply quiet_ret|].
  apply quiet_bind; [apply quiet_get_child|]. intros c. apply IH.
Qed.

Lemma quiet_get_submodule h self target : quiet (get_submodule h self target).
Proof.
  unfold get_submodule. destruct (String.eqb target "");
    [apply quiet_ret|apply quiet_walk].
Qed.

Lemma quiet_parent_of h model name : quiet (parent_of h model name).
Proof.
  unfold parent_of. destruct (String.eqb _ "");
    [apply quiet_ret|apply quiet_get_submodule].
Qed.

Lemma quiet_setattr h parent name value : quiet (setattr h parent name value).
Proof.
  apply quiet_bind; [apply quiet_deref|]. intros m. apply quiet_ret.
Qed.

Lemma quiet_set_payload h o p : quiet (set_payload h o p).
Proof.
  apply quiet_bind; [apply quiet_deref|]. intros m. apply quiet_ret.
Qed.

Lemma quiet_weight_owner h o : quiet (weight_owner h o).
Proof.
  apply quiet_bind; [apply quiet_deref|]. intros m.
  destruct (payload_of m); intros msg; discriminate.
Qed.

Lemma quiet_lora_of h self : quiet (lora_of h self).
Proof.
  apply quiet_bind; [apply quiet_get_child|]. intros lo.
  apply quiet_bind; [apply quiet_deref|]. intros m.
  destruct (payload_of m); intros msg; discriminate.
Qed.

Lemma quiet_lora_weight l : quiet (lora_weight l).
Proof.
  apply quiet_bind; [|intros ab; apply quiet_ret].
  unfold matmul. destruct (Nat.eqb _ _); intros msg; discriminate.
Qed.

Lemma quiet_inplace op w d : quiet (inplace op w d).
Proof.
  unfold inplace. destruct (broadcasts _ _ _); intros msg; discriminate.
Qed.

Lemma quiet_rewrite_base op flag h self :
  (forall w d, quiet (op w d)) -> quiet (rewrite_base op flag h self).
Proof.
  intros Hop. unfold rewrite_base.
  apply quiet_bind; [apply quiet_lora_of|]. intros l.
  apply quiet_bind; [apply quiet_lora_weight|]. intros lw.
  apply quiet_bind; [apply quiet_get_child|]. intros b.
  apply quiet_bind; [apply quiet_weight_owner|]. intros base.
  apply quiet_bind; [apply Hop|]. intros w.
  apply quiet_bind; [apply quiet_set_payload|]. intros h'.
  apply quiet_set_payload.
Qed.

Lemma quiet_merge_at h self : quiet (merge_at h self).
Proof.
  apply quiet_bind; [apply quiet_deref|]. intros m.
  destruct (payload_of m) as [| |[|]| |]; try (intros msg; discriminate).
  apply quiet_rewrite_base. intros w d. apply quiet_inplace.
Qed.

Lemma quiet_float_truediv_int x n : quiet (float_truediv_int x n).
Proof.
  unfold float_truediv_int. apply quiet_bind.
  - unfold float_of_int. destruct (small n); [apply quiet_ret|].
    unfold checked. destruct (binary_normalize _ _ _ _ _); intros msg; discriminate.
  - intros d. destruct (d =? 0)%float; intros msg; discriminate.
Qed.

Lemma quiet_LoRALinear_init kaiming base rank alpha :
  quiet (LoRALinear_init kaiming base rank alpha).
Proof.
  unfold LoRALinear_init, LoRALayer_init.
  apply quiet_bind; [|intros l; apply quiet_ret].
  apply quiet_bind; [apply quiet_float_truediv_int|]. intros s.
  destruct (rank <? 0)%Z; intros msg; discriminate.
Qed.

Lemma quiet_adapt kaiming st targets rank alpha merge model name module h :
  quiet (adapt kaiming st targets rank alpha merge model name module h).
Proof.
  unfold adapt. destruct (_ && _); [|apply quiet_ret].
  apply quiet_bind; [apply quiet_parent_of|]. intros parent.
  apply quiet_bind; [apply quiet_weight_owner|]. intros base.
  apply quiet_bind; [apply quiet_LoRALinear_init|]. intros fresh.
  cbv zeta. unfold alloc.
  apply quiet_bind; [apply quiet_setattr|]. intros h'.
  destruct merge; [apply quiet_merge_at|apply quiet_ret].
Qed.

Lemma quiet_for_named_modules fuel body :
  (forall p o h, quiet (body p o h)) ->
  forall g h r, for_named_modules fuel body g h = Some r -> quiet r.
Proof.
  intros Hbody. induction fuel as [|fuel IH]; intros g h r; simpl; [discriminate|].
  destruct (stack g) as [|[p o|p o i] rest].
  - intros [= <-]. apply quiet_ret.
  - destruct (existsb _ _); [apply IH|].
    destruct (body p o h) as [e|h'] eqn:E; [|apply IH].
    intros [= <-]. pose proof (Hbody p o h) as Hq. rewrite E in Hq. exact Hq.
  - destruct (deref h o) as [e|m] eqn:E.
    + intros [= <-]. pose proof (quiet_deref h o) as Hq. rewrite E in Hq.
      intros msg [= ->]. now apply (Hq msg).
    + destruct (nth_error (_modules m) i) as [[name child]|]; apply IH.
Qed.

(** X15: [apply_adapter] raises [ValueError] exactly when the adapter
    name is not in the registry; nothing else on its way (looking up
    modules, building the layers, merging) raises that error. *)
Theorem apply_adapter_value_error_iff_not_loaded (fuel : nat)
    (kaiming : nat -> nat -> tensor) (self : LoRAManager) (h : heap)
    (model : oid) (adapter_name : string) (target_modules : option (list string))
    (rank : Z) (alpha : float) (merge : bool) :
  (exists msg,
     apply_adapter fuel kaiming self h model adapter_name target_modules
                   rank alpha merge
     = Some (inl (ValueError msg)))
  <-> lookup adapter_name (adapters self) = None.
Proof.
  unfold apply_adapter. destruct (lookup adapter_name (adapters self)) as [st|].
  - split; [|discriminate]. intros [msg H]. exfalso.
    destruct (for_named_modules _ _ _ _) as [[e|h']|] eqn:E; try discriminate.
    injection H as ->.
    eapply quiet_for_named_modules; [|exact E|reflexivity].
    intros p o h0. apply quiet_adapt.
  - split; [reflexivity|]. intros _. eexists. reflexivity.
Qed.

(** *** Loops that leave the model as it is

    The loop over [named_modules] with a state of its own beside the
    model; [for_named_modules] is the case of no such state. *)

Fixpoint visit {St : Type} (fuel : nat)
    (body : string -> oid -> heap * St -> result (heap * St))
    (g : generator) (st : heap * St) : option (result (heap * St)) :=
  match fuel with
  | O => None
  | S fuel =>
      match stack g with
      | [] => Some (ret st)
      | Enter p o :: rest =>
          if existsb (Nat.eqb o) (memo g)
          then visit fuel body {| memo := memo g; stack := rest |} st
          else match body p o st with
               | inl e => Some (inl e)
               | inr st' =>
                   visit fuel body
                     {| memo := o :: memo g; stack := Items p o 0 :: rest |} st'
               end
      | Items p o i :: rest =>
          match deref (fst st) o with
          | inl e => Some (inl e)
          | inr m =>
              match nth_error (_modules m) i with
              | None => visit fuel body {| memo := memo g; stack := rest |} st
              | Some (name, child) =>
                  visit fuel body
                    {| memo := memo g;
                       stack := Enter (submodule_prefix p name) child
                                :: Items p o (S i) :: rest |} st
              end
          end
      end
  end.

Definition on_heap (body : string -> oid -> heap -> result heap)
  : string -> oid -> heap * unit -> result (heap * unit) :=
  fun p o st => h' <- body p o (fst st) ;; ret (h', tt).

Definition heap_of (r : option (result (heap * unit))) : option (result heap) :=
  match r with
  | None => None
  | Some (inl e) => Some (inl e)
  | Some (inr st) => Some (inr (fst st))
  end.

Lemma for_named_modules_visit fuel body :
  forall g h,
    for_named_modules fuel body g h = heap_of (visit fuel (on_heap body) g (h, tt)).
Proof.
  induction fuel as [|fuel IH]; intros g h; [reflexivity|].
  simpl. destruct (stack g) as [|[p o|p o i] rest]; [reflexivity| |].
  - destruct (existsb _ _); [apply IH|].
    unfold on_heap at 1. simpl fst.
    destruct (body p o h) as [e|h']; [reflexivity|]. cbn [bind ret]. apply IH.
  - destruct (deref h o) as [e|m]; [reflexivity|].
    destruct (nth_error (_modules m) i) as [[name child]|]; apply IH.
Qed.

(** Every child reference of the store points into the store. *)
Definition closed (h : heap) : Prop :=
  forall o m name child,
    nth_error h o = Some m -> In (name, child) (_modules m) ->
    (child < List.length h)%nat.

Definition frame_ok (h : heap) (f : frame) : Prop :=
  match f with
  | Enter _ o => (o < List.length h)%nat
  | Items _ o _ => (o < List.length h)%nat
  end.

Definition children_count (h : heap) (o : oid) : nat :=
  match nth_error h o with
  | Some m => List.length (_modules m)
  | None => 0
  end.

Definition entry_cost (h : heap) (memo : list oid) (o : oid) : nat :=
  if existsb (Nat.eqb o) memo then 0 else 2 + 2 * children_count h o.

(** What is left to do for the modules not yet entered. *)
Definition unvisited_cost (h : heap) (memo : list oid) : nat :=
  list_sum (map (entry_cost h memo) (seq 0 (List.length h))).

Definition frame_cost (h : heap) (f : frame) : nat :=
  match f with
  | Enter _ _ => 1
  | Items _ o i => 1 + 2 * (children_count h o - i)
  end.

(** A bound on the steps the generator still takes. *)
Definition cost (h : heap) (g : generator) : nat :=
  unvisited_cost h (memo g) + list_sum (map (frame_cost h) (stack g)).

Lemma entry_cost_other (h : heap) (memo : list oid) (o x : oid) :
  x <> o -> entry_cost h (o :: memo) x = entry_cost h memo x.
Proof.
  intros Hne. unfold entry_cost. simpl.
  destruct (Nat.eqb_spec x o); [contradiction|reflexivity].
Qed.

Lemma sum_entry_cost_notin (h : heap) (memo : list oid) (o : oid) (l : list oid) :
  ~ In o l ->
  list_sum (map (entry_cost h (o :: memo)) l) = list_sum (map (entry_cost h memo) l).
Proof.
  induction l as [|x l IH]; intros Hnot; [reflexivity|].
  simpl. rewrite entry_cost_other by (intros ->; apply Hnot; simpl; auto).
  rewrite IH; [reflexivity|]. intros H. apply Hnot. simpl; auto.
Qed.

Lemma sum_entry_cost_in (h : heap) (memo : list oid) (o : oid) (l : list oid) :
  NoDup l -> In o l -> existsb (Nat.eqb o) memo = false ->
  (list_sum (map (entry_cost h (o :: memo)) l) + (2 + 2 * children_count h o)
   = list_sum (map (entry_cost h memo) l))%nat.
Proof.
  intros Hnd Hin Hfresh. induction l as [|x l IH]; [destruct Hin|].
  inversion Hnd as [|? ? Hx Hl]; subst. simpl list_sum. simpl map.
  destruct Hin as [->|Hin].
  - rewrite (sum_entry_cost_notin h memo o l Hx).
    unfold entry_cost at 1. simpl existsb. rewrite Nat.eqb_refl. simpl orb. cbv iota.
    unfold entry_cost at 2. rewrite Hfresh. simpl. lia.
  - rewrite entry_cost_other by (intros ->; contradiction).
    specialize (IH Hl Hin). simpl list_sum in *. lia.
Qed.

Lemma unvisited_cost_enter (h : heap) (memo : list oid) (o : oid) :
  (o < List.length h)%nat -> existsb (Nat.eqb o) memo = false ->
  (unvisited_cost h (o :: memo) + (2 + 2 * children_count h o)
   = unvisited_cost h memo)%nat.
Proof.
  intros Ho Hfresh. unfold unvisited_cost.
  apply sum_entry_cost_in; [apply seq_NoDup| |assumption].
  apply in_seq. lia.
Qed.

(** On a closed store, a loop whose body leaves the store as it is runs to
    its end within [cost] steps, and keeps what its body keeps. *)
Lemma visit_terminates {St : Type} (P : St -> Prop)
    (body : string -> oid -> heap * St -> result (heap * St)) (h : heap) :
  closed h ->
  (forall p o s, (o < List.length h)%nat -> P s ->
     exists s', body p o (h, s) = inr (h, s') /\ P s') ->
  forall fuel g s,
    (cost h g < fuel)%nat -> Forall (frame_ok h) (stack g) -> P s ->
    exists s', visit fuel body g (h, s) = Some (inr (h, s')) /\ P s'.
Proof.
  intros Hclosed Hbody. induction fuel as [|fuel IH]; intros g s Hcost Hok Hs;
    [lia|].
  destruct g as [memo stack]. unfold cost in Hcost. simpl in *.
  destruct stack as [|[p o|p o i] rest]; simpl in *.
  - exists s. auto.
  - inversion Hok as [|? ? Ho Hrest]; subst. simpl in Ho.
    destruct (existsb (Nat.eqb o) memo) eqn:Ememo.
    + apply IH; auto. unfold cost; simpl. lia.
    + destruct (Hbody p o s Ho Hs) as (s1 & -> & Hs1).
      apply IH; auto.
      * unfold cost; simpl.
        pose proof (unvisited_cost_enter h memo o Ho Ememo). lia.
      * constructor; [exact Ho|exact Hrest].
  - inversion Hok as [|? ? Ho Hrest]; subst. simpl in Ho.
    unfold deref. unfold children_count in Hcost.
    destruct (nth_error h o) as [m|] eqn:Em;
      [|apply nth_error_None in Em; lia].
    simpl. destruct (nth_error (_modules m) i) as [[name child]|] eqn:Ei.
    + assert (Hi : (i < List.length (_modules m))%nat)
        by (apply nth_error_Some; congruence).
      apply IH; auto.
      * unfold cost; simpl. unfold children_count. rewrite Em. lia.
      * constructor; [|constructor; [exact Ho|exact Hrest]].
        simpl. eapply Hclosed; [exact Em|]. eapply nth_error_In; exact Ei.
    + apply IH; auto. unfold cost; simpl. lia.
Qed.

(** The steps that suffice for a whole model. *)
Definition enough (h : heap) : nat := S (S (unvisited_cost h [])).

Lemma visit_whole_model {St : Type} (P : St -> Prop)
    (body : string -> oid -> heap * St -> result (heap * St)) (h : heap)
    (model : oid) (fuel : nat) (s : St) :
  closed h -> (model < List.length h)%nat -> (enough h <= fuel)%nat ->
  (forall p o s, (o < List.length h)%nat -> P s ->
     exists s', body p o (h, s) = inr (h, s') /\ P s') ->
  P s ->
  exists s', visit fuel body (named_modules model) (h, s) = Some (inr (h, s')) /\ P s'.
Proof.
  intros Hclosed Hmodel Hfuel Hbody Hs.
  apply (visit_terminates P body h Hclosed Hbody); auto.
  - unfold cost, named_modules, enough in *. simpl. lia.
  - constructor; [exact Hmodel|constructor].
Qed.

(** *** The parent and the child name of a dotted name *)

Fixpoint dotless (s : string) : bool :=
  match s with
  | EmptyString => true
  | String c rest => negb (Ascii.eqb c "."%char) && dotless rest
  end.

Lemma split_dot_dotless a : dotless a = true -> split_dot a = [a].
Proof.
  induction a as [|c a IH]; simpl; [reflexivity|].
  intros H. apply andb_true_iff in H as [Hc Ha].
  destruct (Ascii.eqb c "."%char); [discriminate|]. now rewrite (IH Ha).
Qed.

Lemma split_dot_app a rest :
  dotless a = true -> split_dot (a ++ "." ++ rest) = a :: split_dot rest.
Proof.
  induction a as [|c a IH]; simpl; [reflexivity|].
  intros H. apply andb_true_iff in H as [Hc Ha].
  destruct (Ascii.eqb c "."%char); [discriminate|].
  simpl in IH. now rewrite (IH Ha).
Qed.

Lemma split_join atoms :
  atoms <> [] -> Forall (fun a => dotless a = true) atoms ->
  split_dot (join_dot atoms) = atoms.
Proof.
  induction atoms as [|a [|b atoms] IH]; intros Hne Hall; [contradiction| |].
  - inversion Hall; subst. now apply split_dot_dotless.
  - inversion Hall as [|? ? Ha Hrest]; subst.
    change (join_dot (a :: b :: atoms)) with (a ++ "." ++ join_dot (b :: atoms)).
    rewrite split_dot_app by assumption. f_equal. apply IH; [discriminate|assumption].
Qed.

Lemma join_nonempty atoms :
  atoms <> [] -> Forall (fun a => a <> "") atoms -> join_dot atoms <> "".
Proof.
  destruct atoms as [|a [|b atoms]]; intros Hne Hall; [contradiction| |].
  - now inversion Hall.
  - inversion Hall as [|? ? Ha _]; subst.
    change (join_dot (a :: b :: atoms)) with (a ++ "." ++ join_dot (b :: atoms)).
    destruct a; [contradiction|discriminate].
Qed.

Lemma walk_app h o l a :
  walk h o (app l [a]) = (p <- walk h o l ;; get_child h p a).
Proof.
  revert o. induction l as [|b l IH]; intros o; simpl.
  - cbn [bind ret]. destruct (get_child h o a); reflexivity.
  - destruct (get_child h o b) as [e|c]; [reflexivity|]. cbn [bind]. apply IH.
Qed.

(** X26 ([apply_adapter], [remove_adapter]: the parent and child name).
    For the name of a module below the root, atoms without dots joined by
    dots as [named_modules] builds them, [name.split('.')[-1]] is the last
    atom, the parent looked up under ['.'.join(name.split('.')[:-1])] is
    the module reached along the atoms before it, and the attribute the
    loop overwrites on that parent is the one [get_submodule(name)]
    reads. *)
Theorem parent_child_address (h : heap) (model : oid) (atoms : list string) :
  atoms <> [] ->
  Forall (fun a => a <> "" /\ dotless a = true) atoms ->
  let name := join_dot atoms in
  child_name_of name = last atoms "" /\
  parent_of h model name = walk h model (removelast atoms) /\
  get_submodule h model name
  = (parent <- parent_of h model name ;; get_child h parent (child_name_of name)).
Proof.
  intros Hne Hall name.
  assert (Hdot : Forall (fun a => dotless a = true) atoms)
    by (eapply Forall_impl; [|exact Hall]; now intros a [_ H]).
  assert (Hfull : Forall (fun a => a <> "") atoms)
    by (eapply Forall_impl; [|exact Hall]; now intros a [H _]).
  assert (Hsplit : split_dot name = atoms) by (now apply split_join).
  assert (Hchild : child_name_of name = last atoms "")
    by (unfold child_name_of; now rewrite Hsplit).
  assert (Hparent : parent_of h model name = walk h model (removelast atoms)).
  { unfold parent_of. rewrite Hsplit.
    destruct (removelast atoms) as [|b l] eqn:El; [reflexivity|].
    assert (Hl : Forall (fun a => a <> "" /\ dotless a = true) (b :: l)).
    { apply Forall_forall. intros a Ha. rewrite Forall_forall in Hall. apply Hall.
      rewrite (app_removelast_last "" Hne), El. apply in_or_app. now left. }
    assert (Hnz : join_dot (b :: l) <> "").
    { apply join_nonempty; [discriminate|].
      eapply Forall_impl; [|exact Hl]. now intros a [H _]. }
    apply String.eqb_neq in Hnz. rewrite Hnz.
    unfold get_submodule. rewrite Hnz, split_join; [reflexivity|discriminate|].
    eapply Forall_impl; [|exact Hl]. now intros a [_ H]. }
  split; [exact Hchild|]. split; [exact Hparent|].
  rewrite Hparent, Hchild. unfold get_submodule.
  assert (Hnz : name <> "") by (now apply join_nonempty).
  apply String.eqb_neq in Hnz. rewrite Hnz, Hsplit.
  rewrite (app_removelast_last "" Hne) at 1. apply walk_app.
Qed.

Lemma parent_child_address_witness :
  child_name_of "blocks.0.q" = "q" /\
  parent_of one_linear_model 0%nat "blocks.0.q"
  = walk one_linear_model 0%nat ["blocks"; "0"] /\
  get_submodule one_linear_model 0%nat "blocks.0.q"
  = (parent <- parent_of one_linear_model 0%nat "blocks.0.q" ;;
     get_child one_linear_model parent (child_name_of "blocks.0.q")).
Proof.
  apply (parent_child_address one_linear_model 0%nat ["blocks"; "0"; "q"]).
  - discriminate.
  - repeat constructor; discriminate.
Defined.

Definition is_closed (h : heap) : bool :=
  forallb (fun m => forallb (fun kv => Nat.ltb (snd kv) (List.length h)) (_modules m)) h.

Lemma is_closed_closed h : is_closed h = true -> closed h.
Proof.
  unfold is_closed, closed. intros H o m name child Hm Hin.
  rewrite forallb_forall in H. specialize (H m (nth_error_In _ _ Hm)).
  rewrite forallb_forall in H. specialize (H (name, child) Hin).
  apply Nat.ltb_lt in H. exact H.
Qed.

Lemma for_named_modules_read_only body h model fuel :
  is_closed h = true -> (model < List.length h)%nat -> (enough h <= fuel)%nat ->
  (forall p o, (o < List.length h)%nat -> body p o h = inr h) ->
  for_named_modules fuel body (named_modules model) h = Some (inr h).
Proof.
  intros Hclosed Hmodel Hfuel Hbody. rewrite for_named_modules_visit.
  destruct (visit_whole_model (fun _ => True) (on_heap body) h model fuel tt
              (is_closed_closed h Hclosed) Hmodel Hfuel) as (s' & -> & _);
    [|exact I|reflexivity].
  intros p o s Ho _. exists tt. split; [|exact I].
  unfold on_heap. simpl fst. rewrite (Hbody p o Ho). reflexivity.
Qed.

Definition is_lora_linear (h : heap) (o : oid) : bool :=
  match nth_error h o with
  | Some {| payload_of := PLoRALinear _ |} => true
  | _ => false
  end.

Lemma restore_not_wrapper model name o h :
  (o < List.length h)%nat -> is_lora_linear h o = false ->
  restore model name o h = inr h.
Proof.
  intros Ho Hw. unfold restore, deref. unfold is_lora_linear in Hw.
  destruct (nth_error h o) as [[pl ms]|] eqn:E;
    [|apply nth_error_None in E; lia].
  cbn [bind ret payload_of]. destruct pl; try reflexivity. discriminate.
Qed.

(** X16 ([remove_adapter]).  On a model that holds no [LoRALinear], with
    an adapter recorded or not, [remove_adapter] returns, leaves every
    module as it was and records no active adapter; the loop ends within
    [enough h] generator steps whatever modules the model shares. *)
Theorem remove_adapter_without_wrappers fuel self h model :
  is_closed h = true -> (model < List.length h)%nat -> (enough h <= fuel)%nat ->
  (forall o, is_lora_linear h o = false) ->
  remove_adapter fuel self h model
  = Some (inr ({| adapters := adapters self; active_adapter := None |}, h)).
Proof.
  intros Hclosed Hmodel Hfuel Hw. unfold remove_adapter.
  destruct self as [ads [a|]]; simpl; [|reflexivity].
  rewrite (for_named_modules_read_only (restore model) h model fuel
             Hclosed Hmodel Hfuel); [reflexivity|].
  intros p o Ho. apply restore_not_wrapper; auto.
Qed.

Lemma remove_adapter_without_wrappers_witness :
  remove_adapter 20 {| adapters := [("a", [])]; active_adapter := Some "a" |}
    one_linear_model 0%nat
  = Some (inr ({| adapters := [("a", [])]; active_adapter := None |},
               one_linear_model)).
Proof.
  apply (remove_adapter_without_wrappers 20
           {| adapters := [("a", [])]; active_adapter := Some "a" |}
           one_linear_model 0%nat).
  - reflexivity.
  - simpl. lia.
  - vm_compute. lia.
  - intros [|[|o]]; try reflexivity. unfold is_lora_linear. simpl.
    destruct o; reflexivity.
Defined.

(** X17 ([apply_adapter]).  When the target list is empty, or the model
    holds no [nn.Linear], [apply_adapter] of a loaded adapter wraps
    nothing and changes no module, and still records the adapter as the
    active one. *)
Theorem apply_adapter_nothing_to_adapt fuel kaiming self h model adapter_name
    target_modules rank alpha merge :
  is_closed h = true -> (model < List.length h)%nat -> (enough h <= fuel)%nat ->
  lookup adapter_name (adapters self) <> None ->
  target_modules = Some [] \/ (forall o, is_linear h o = false) ->
  apply_adapter fuel kaiming self h model adapter_name target_modules rank alpha merge
  = Some (inr ({| adapters := adapters self;
                  active_adapter := Some adapter_name |}, h)).
Proof.
  intros Hclosed Hmodel Hfuel Hloaded Hnone. unfold apply_adapter.
  destruct (lookup adapter_name (adapters self)) as [sd|]; [|congruence].
  rewrite for_named_modules_read_only; auto.
  intros p o Ho. unfold adapt.
  destruct Hnone as [->|Hlin].
  - reflexivity.
  - rewrite Hlin, Bool.andb_false_r. reflexivity.
Qed.

Lemma apply_adapter_nothing_to_adapt_witness :
  apply_adapter 20 draw two_loaded one_linear_model 0%nat "a" (Some []) 4 1%float true
  = Some (inr ({| adapters := adapters two_loaded; active_adapter := Some "a" |},
               one_linear_model)).
Proof.
  apply (apply_adapter_nothing_to_adapt 20 draw two_loaded one_linear_model 0%nat
           "a" (Some []) 4 1%float true).
  - reflexivity.
  - simpl. lia.
  - vm_compute. lia.
  - simpl. discriminate.
  - left. reflexivity.
Defined.

(** *** [save_adapter] *)






End AdapterManager.

(** ** Collective transport ([ovi/distributed_comms/optimized_comms.py])

    One rank's view.  A tensor is its shape and its entries, its axes
    counted from the front; [is_contiguous] and [contiguous] concern the
    memory layout only and leave both as they are.  A process group carries the collectives of its
    backend: what this rank holds after a call, given what it passed in.
    Every call of a collective is recorded, whether or not it succeeds. *)

Module Collective.
Import Py.
Local Open Scope string_scope.
Local Open Scope nat_scope.

Section Transport.

(** The entries' type, and what uninitialised memory holds. *)
Variable T : Type.
Variable junk : T.

Record tensor : Type := {
  shape : list nat;
  at_ : list nat -> T
}.

(** [t.size(dim)] *)
Definition size (t : tensor) (dim : nat) : nat := nth dim (shape t) 0.

Fixpoint set_nth (dim n : nat) (l : list nat) : list nat :=
  match l, dim with
  | [], _ => []
  | _ :: rest, O => n :: rest
  | a :: rest, S d => a :: set_nth d n rest
  end.

Fixpoint shift_nth (dim k : nat) (idx : list nat) : list nat :=
  match idx, dim with
  | [], _ => []
  | i :: rest, O => (i + k) :: rest
  | i :: rest, S d => i :: shift_nth d k rest
  end.

Fixpoint unshift_nth (dim k : nat) (idx : list nat) : list nat :=
  match idx, dim with
  | [], _ => []
  | i :: rest, O => (i - k) :: rest
  | i :: rest, S d => i :: unshift_nth d k rest
  end.

(** [t.narrow(dim, start, length)]: the view on [length] positions of
    axis [dim] from [start] on. *)
Definition narrow (t : tensor) (dim start length : nat) : tensor :=
  {| shape := set_nth dim length (shape t);
     at_ := fun idx => at_ t (shift_nth dim start idx) |}.

(** [torch.tensor_split(t, n, dim)]: [n] consecutive views; when [n] does
    not divide the length the first [length mod n] are one longer. *)
Definition tensor_split (t : tensor) (n dim : nat) : result (list tensor) :=
  if n =? 0 then raise (RuntimeError "number of sections must be larger than 0")
  else if List.length (shape t) <=? dim then raise IndexError
  else
    let L := size t dim in
    ret (map (fun k =>
                narrow t dim (k * (L / n) + Nat.min k (L mod n))
                       (L / n + (if k <? L mod n then 1 else 0)))
             (seq 0 n)).

(** [torch.empty_like(t)] *)
Definition empty_like (t : tensor) : tensor :=
  {| shape := shape t; at_ := fun _ => junk |}.

Fixpoint shape_eqb (s1 s2 : list nat) : bool :=
  match s1, s2 with
  | [], [] => true
  | a :: r1, b :: r2 => (a =? b) && shape_eqb r1 r2
  | _, _ => false
  end.

(** Two shapes agree away from axis [dim]. *)
Definition agree_except (dim : nat) (s1 s2 : list nat) : bool :=
  shape_eqb (set_nth dim 0 s1) (set_nth dim 0 s2).

Fixpoint cat_at (ts : list tensor) (dim : nat) (idx : list nat) : T :=
  match ts with
  | [] => junk
  | t :: rest =>
      if nth dim idx 0 <? size t dim then at_ t idx
      else cat_at rest dim (unshift_nth dim (size t dim) idx)
  end.

(** [torch.cat(ts, dim)] *)
Definition cat (ts : list tensor) (dim : nat) : result tensor :=
  match ts with
  | [] => raise (RuntimeError "torch.cat(): expected a non-empty list of Tensors")
  | t :: rest =>
      if List.length (shape t) <=? dim then raise IndexError
      else if forallb (fun u => agree_except dim (shape t) (shape u)) rest
      then ret {| shape := set_nth dim (list_sum (map (fun u => size u dim) ts)) (shape t);
                  at_ := cat_at ts dim |}
      else raise (RuntimeError "Sizes of tensors must match except in dimension")
  end.

(** A process group, as one rank sees it. *)
Record ProcessGroup : Type := {
  group_size : nat;
  (** [dist.all_to_all(output_list, input_list)]: the output list after
      the exchange. *)
  all_to_all : list tensor -> list tensor -> result (list tensor);
  (** [dist.all_gather(tensor_list, tensor)]: the list after the gather. *)
  all_gather : list tensor -> tensor -> result (list tensor);
  (** [dist.broadcast(tensor, src)]: the tensor after the broadcast. *)
  broadcast : tensor -> nat -> result tensor
}.

(** The distributed state of the process: [nccl_info.group], set by the
    sequence-parallel initialisation of [parallel_states], and the default
    group of [torch.distributed], present once [init_process_group] has
    run. *)
Record dist_state : Type := {
  nccl_info_group : option ProcessGroup;
  default_group : option ProcessGroup
}.

(** The group a [group] argument denotes: [None] is the default group. *)
Definition resolve (env : dist_state) (group : option ProcessGroup)
  : result ProcessGroup :=
  match group with
  | Some g => ret g
  | None =>
      match default_group env with
      | Some g => ret g
      | None => raise (ValueError "Default process group has not been initialized")
      end
  end.

(** [if group is None: group = nccl_info.group] *)
Definition or_nccl (env : dist_state) (group : option ProcessGroup)
  : option ProcessGroup :=
  match group with
  | None => nccl_info_group env
  | Some g => Some g
  end.

Definition get_world_size (env : dist_state) (group : option ProcessGroup)
  : result nat :=
  g <- resolve env group ;; ret (group_size g).

(** *** Computations that call collectives *)

Inductive event : Type := AllToAll | AllGather | Broadcast.

Definition Comm (A : Type) : Type := list event -> result A * list event.

Definition cret {A : Type} (a : A) : Comm A := fun tr => (inr a, tr).

Definition cbind {A B : Type} (m : Comm A) (k : A -> Comm B) : Comm B :=
  fun tr =>
    match m tr with
    | (inl e, tr') => (inl e, tr')
    | (inr a, tr') => k a tr'
    end.

(** A step that calls no collective. *)
Definition lift {A : Type} (r : result A) : Comm A := fun tr => (r, tr).

(** A call of a collective. *)
Definition call {A : Type} (ev : event) (r : result A) : Comm A :=
  fun tr => (r, app tr [ev]).

Fixpoint for_each {A B : Type} (f : A -> Comm B) (l : list A) : Comm (list B) :=
  match l with
  | [] => cret []
  | a :: rest =>
      cbind (f a) (fun b => cbind (for_each f rest) (fun bs => cret (b :: bs)))
  end.

Definition first_of {A : Type} (l : list A) : result A :=
  match l with
  | a :: _ => ret a
  | [] => raise IndexError
  end.

(** The exchange of one tensor: the loop body of [batched_all_to_all] and
    the body of [OptimizedAllToAll.forward]. *)
Definition exchange (env : dist_state) (group : option ProcessGroup)
    (world_size scatter_dim gather_dim : nat) (input_tensor : tensor)
  : Comm tensor :=
  cbind (lift (tensor_split input_tensor world_size scatter_dim)) (fun input_list =>
  cbind (lift (first_of input_list)) (fun first =>
  let output_list := repeat (empty_like first) world_size in
  cbind (lift (resolve env group)) (fun g =>
  cbind (call AllToAll (all_to_all g output_list input_list)) (fun output_list =>
  lift (cat output_list gather_dim))))).

Definition batched_all_to_all (env : dist_state) (inputs : list tensor)
    (scatter_dim gather_dim : nat) (group : option ProcessGroup)
  : Comm (list tensor) :=
  let group := or_nccl env group in
  cbind (lift (get_world_size env group)) (fun world_size =>
  if world_size =? 1 then cret inputs
  else for_each (exchange env group world_size scatter_dim gather_dim) inputs).

Definition overlapped_all_gather (env : dist_state) (input_ : tensor)
    (dim : nat) (group : option ProcessGroup) : Comm tensor :=
  let group := or_nccl env group in
  cbind (lift (get_world_size env group)) (fun world_size =>
  if world_size =? 1 then cret input_
  else
    let tensor_list := repeat (empty_like input_) world_size in
    cbind (lift (resolve env group)) (fun g =>
    cbind (call AllGather (all_gather g tensor_list input_)) (fun tensor_list =>
    lift (cat tensor_list dim)))).

Definition efficient_broadcast (env : dist_state) (input_ : tensor)
    (src : nat) (group : option ProcessGroup) : Comm tensor :=
  let group := or_nccl env group in
  cbind (lift (resolve env group)) (fun g =>
  call Broadcast (broadcast g input_ src)).

(** [OptimizedAllToAll.forward] *)
Definition forward (env : dist_state) (input_ : tensor)
    (scatter_dim gather_dim : nat) (group : option ProcessGroup) : Comm tensor :=
  cbind (lift (get_world_size env group)) (fun world_size =>
  if world_size =? 1 then cret input_
  else exchange env group world_size scatter_dim gather_dim input_).

Definition optimized_all_to_all (env : dist_state) (input_ : tensor)
    (scatter_dim gather_dim : nat) (group : option ProcessGroup) : Comm tensor :=
  forward env input_ scatter_dim gather_dim (or_nccl env group).

(** *** World size one *)

Lemma world_size_resolved env group g :
  resolve env group = inr g -> get_world_size env group = inr (group_size g).
Proof. intros H. unfold get_world_size. now rewrite H. Qed.

(** C3, as the code has it: once the group is resolved (the one passed,
    else [nccl_info.group], else the default group) and has size one,
    [batched_all_to_all], [overlapped_all_gather] and
    [optimized_all_to_all] return their input as it is and call no
    collective. *)
Theorem world_size_one_identity (env : dist_state) (group : option ProcessGroup)
    (g : ProcessGroup) (inputs : list tensor) (x : tensor)
    (scatter_dim gather_dim dim : nat) (tr : list event) :
  resolve env (or_nccl env group) = inr g ->
  group_size g = 1 ->
  batched_all_to_all env inputs scatter_dim gather_dim group tr = (inr inputs, tr) /\
  overlapped_all_gather env x dim group tr = (inr x, tr) /\
  optimized_all_to_all env x scatter_dim gather_dim group tr = (inr x, tr).
Proof.
  intros Hg H1.
  unfold batched_all_to_all, overlapped_all_gather, optimized_all_to_all, forward.
  unfold cbind, lift. rewrite (world_size_resolved _ _ _ Hg), H1.
  repeat split.
Qed.

(** *** The exchange on divisible axes *)





Lemma size_set_nth dim n s : dim < List.length s -> nth dim (set_nth dim n s) 0 = n.
Proof.
  revert dim. induction s as [|a s IH]; intros [|dim] H; simpl in *; try lia.
  apply IH. lia.
Qed.






(** *** An axis the world size does not divide *)





(** *** Shapes *)

(** [OptimizedAllToAll.backward]: what [forward] saved on [ctx]. *)
Record context : Type := {
  ctx_scatter_dim : nat;
  ctx_gather_dim : nat;
  ctx_group : option ProcessGroup;
  ctx_world_size : nat
}.

Definition forward_ctx (env : dist_state) (scatter_dim gather_dim : nat)
    (group : option ProcessGroup) : result context :=
  world_size <- get_world_size env group ;;
  ret {| ctx_scatter_dim := scatter_dim; ctx_gather_dim := gather_dim;
         ctx_group := group; ctx_world_size := world_size |}.

(** The gradient with respect to the input; the three other entries of
    the tuple [backward] returns are [None]. *)
Definition backward (env : dist_state) (ctx : context) (grad_output : tensor)
  : Comm tensor :=
  if ctx_world_size ctx =? 1 then cret grad_output
  else exchange env (ctx_group ctx) (ctx_world_size ctx)
         (ctx_gather_dim ctx) (ctx_scatter_dim ctx) grad_output.

(** A collective fills the list it is given in place: what comes back has
    as many tensors, of the shapes they had. *)
Definition fills_in_place (g : ProcessGroup) : Prop :=
  (forall out inp r, all_to_all g out inp = inr r -> map shape r = map shape out) /\
  (forall out x r, all_gather g out x = inr r -> map shape r = map shape out).

(** The length of the first chunk of [tensor_split]. *)
Definition first_length (L W : nat) : nat :=
  L / W + (if 0 <? L mod W then 1 else 0).

(** The shape after one exchange: the scatter axis cut to the first
    chunk's length, the gather axis multiplied by the world size. *)
Definition exchanged_shape (W scatter_dim gather_dim : nat) (s : list nat)
  : list nat :=
  let s1 := set_nth scatter_dim (first_length (nth scatter_dim s 0) W) s in
  set_nth gather_dim (W * nth gather_dim s1 0) s1.

Lemma shape_eqb_refl s : shape_eqb s s = true.
Proof. induction s as [|a s IH]; simpl; [reflexivity|]. now rewrite Nat.eqb_refl. Qed.

Lemma length_set_nth dim n s : List.length (set_nth dim n s) = List.length s.
Proof.
  revert dim. induction s as [|a s IH]; intros [|dim]; simpl; auto.
Qed.

Lemma nth_set_nth_ne dim d n s : dim <> d -> nth d (set_nth dim n s) 0 = nth d s 0.
Proof.
  revert dim d. induction s as [|a s IH]; intros [|dim] [|d] H; simpl; auto;
    try contradiction.
Qed.

Lemma set_nth_twice dim a b s : set_nth dim a (set_nth dim b s) = set_nth dim a s.
Proof.
  revert dim. induction s as [|x s IH]; intros [|dim]; simpl; auto.
  now rewrite IH.
Qed.

Lemma set_nth_comm d d' a b s :
  d <> d' -> set_nth d a (set_nth d' b s) = set_nth d' b (set_nth d a s).
Proof.
  revert d d'. induction s as [|x s IH]; intros [|d] [|d'] H; simpl; auto;
    try contradiction.
  now rewrite IH by auto.
Qed.

Lemma set_nth_self dim s : set_nth dim (nth dim s 0) s = s.
Proof.
  revert dim. induction s as [|x s IH]; intros [|dim]; simpl; auto.
  now rewrite IH.
Qed.

Lemma sum_sizes ts s W dim :
  map shape ts = repeat s W ->
  list_sum (map (fun u => size u dim) ts) = W * nth dim s 0.
Proof.
  revert ts. induction W as [|W IH]; intros [|t ts]; simpl; try discriminate;
    [reflexivity|].
  intros [= Ht Hts]. unfold size at 1. rewrite Ht, (IH _ Hts). reflexivity.
Qed.

(** Concatenating [W] tensors of one shape multiplies the axis by [W]. *)
Lemma cat_same_shape ts s W dim :
  map shape ts = repeat s W -> W <> 0 -> dim < List.length s ->
  exists y, cat ts dim = inr y /\ shape y = set_nth dim (W * nth dim s 0) s.
Proof.
  intros Hts HW Hdim. pose proof (sum_sizes ts s W dim Hts) as Hsum.
  destruct W as [|W]; [contradiction|]. destruct ts as [|t rest]; [discriminate|].
  simpl in Hts. injection Hts as Ht Hrest.
  unfold cat. rewrite Ht. destruct (Nat.leb_spec (List.length s) dim); [lia|].
  assert (Hall : forallb (fun u => agree_except dim s (shape u)) rest = true).
  { apply forallb_forall. intros u Hu.
    assert (Hs : shape u = s).
    { apply (in_map shape) in Hu. rewrite Hrest in Hu.
      apply repeat_spec in Hu. exact Hu. }
    rewrite Hs. apply shape_eqb_refl. }
  rewrite Hall. eexists. split; [reflexivity|]. cbn [shape]. now rewrite Hsum.
Qed.

(** One exchange on valid axes: the collective is called once, and either
    its error comes back or a tensor of the exchanged shape. *)
Lemma exchange_outcome env group g W sd gd x tr :
  resolve env group = inr g -> W <> 0 -> fills_in_place g ->
  sd < List.length (shape x) -> gd < List.length (shape x) ->
  (exists e out inp,
      exchange env group W sd gd x tr = (inl e, app tr [AllToAll])
      /\ all_to_all g out inp = inl e)
  \/ (exists y,
      exchange env group W sd gd x tr = (inr y, app tr [AllToAll])
      /\ shape y = exchanged_shape W sd gd (shape x)).
Proof.
  intros Hg HW [Hfill _] Hsd Hgd. unfold exchange, cbind, lift, call, tensor_split.
  destruct (Nat.eqb_spec W 0); [contradiction|].
  destruct (Nat.leb_spec (List.length (shape x)) sd); [lia|].
  destruct W as [|W']; [contradiction|].
  cbn [seq map first_of ret]. rewrite Hg.
  match goal with
  | |- context [all_to_all g ?o ?i] =>
      destruct (all_to_all g o i) as [e|received] eqn:Ecall
  end.
  - left. eexists _, _, _. split; [reflexivity|exact Ecall].
  - right. apply Hfill in Ecall. rewrite map_repeat in Ecall.
    cbn [shape empty_like narrow] in Ecall.
    destruct (cat_same_shape received _ (S W') gd Ecall) as (y & Hy & Hshape);
      [discriminate|now rewrite length_set_nth|].
    exists y. split; [now rewrite Hy|]. exact Hshape.
Qed.

Lemma exchanged_shape_distinct W sd gd s :
  sd <> gd ->
  exchanged_shape W sd gd s
  = set_nth gd (W * nth gd s 0) (set_nth sd (first_length (nth sd s 0) W) s).
Proof.
  intros Hne. unfold exchanged_shape. cbv zeta. now rewrite nth_set_nth_ne.
Qed.

Lemma for_each_Forall2 {A B : Type} (f : A -> Comm B) (P : A -> B -> Prop) l :
  (forall a tr b tr', In a l -> f a tr = (inr b, tr') -> P a b) ->
  forall tr bs tr', for_each f l tr = (inr bs, tr') -> Forall2 P l bs.
Proof.
  induction l as [|a l IH]; intros Hf tr bs tr'; simpl.
  - unfold cret. intros [= <- _]. constructor.
  - unfold cbind, cret.
    destruct (f a tr) as [[e|b] tr1] eqn:Ea; [discriminate|].
    destruct (for_each f l tr1) as [[e|bs1] tr2] eqn:El; [discriminate|].
    intros [= <- _]. constructor.
    + eapply Hf; [simpl; auto|exact Ea].
    + eapply IH; [|exact El]. intros; eapply Hf; [simpl; eauto|eauto].
Qed.

(** X22 ([batched_all_to_all], [optimized_all_to_all],
    [OptimizedAllToAll.forward]).  On a group of size [W > 1] whose
    collective fills its output list in place, each tensor that comes back
    has the shape of its input with the gather axis multiplied by [W] and
    the scatter axis cut to the length of the first chunk,
    [L / W] rounded up; and [optimized_all_to_all] raises only what the
    collective raised. *)
Theorem all_to_all_shape (env : dist_state) (group : option ProcessGroup)
    (g : ProcessGroup) (inputs : list tensor) (x : tensor)
    (scatter_dim gather_dim : nat) (tr : list event) :
  resolve env (or_nccl env group) = inr g ->
  1 < group_size g ->
  fills_in_place g ->
  scatter_dim <> gather_dim ->
  Forall (fun x => scatter_dim < List.length (shape x) /\
                   gather_dim < List.length (shape x)) (x :: inputs) ->
  let W := group_size g in
  let out_shape (s : list nat) :=
    set_nth gather_dim (W * nth gather_dim s 0)
      (set_nth scatter_dim (first_length (nth scatter_dim s 0) W) s) in
  (forall outs tr',
     batched_all_to_all env inputs scatter_dim gather_dim group tr = (inr outs, tr') ->
     Forall2 (fun x y => shape y = out_shape (shape x)) inputs outs) /\
  (forall y tr',
     optimized_all_to_all env x scatter_dim gather_dim group tr = (inr y, tr') ->
     shape y = out_shape (shape x)) /\
  (forall e tr',
     optimized_all_to_all env x scatter_dim gather_dim group tr = (inl e, tr') ->
     exists out inp, all_to_all g out inp = inl e).
Proof.
  intros Hg HW Hfill Hne Hall W out_shape. subst W.
  assert (HW0 : group_size g <> 0) by lia.
  assert (Hone : forall x0 tr0 y tr',
            scatter_dim < List.length (shape x0) /\ gather_dim < List.length (shape x0) ->
            exchange env (or_nccl env group) (group_size g) scatter_dim gather_dim x0 tr0
            = (inr y, tr') ->
            shape y = out_shape (shape x0)).
  { intros x0 tr0 y tr' [Hsd Hgd] Hrun.
    destruct (exchange_outcome env _ g _ scatter_dim gather_dim x0 tr0
                Hg HW0 Hfill Hsd Hgd)
      as [(e & out & inp & He & _)|(y' & Hy & Hshape)].
    - rewrite He in Hrun. discriminate.
    - rewrite Hy in Hrun. injection Hrun as <- _. rewrite Hshape.
      now apply exchanged_shape_distinct. }
  inversion Hall as [|? ? Hx Hinputs]; subst.
  split; [|split].
  - intros outs tr'. unfold batched_all_to_all, cbind, lift.
    rewrite (world_size_resolved _ _ _ Hg).
    destruct (Nat.eqb_spec (group_size g) 1); [lia|].
    apply for_each_Forall2. intros a tr0 b tr1 Ha. apply Hone.
    rewrite Forall_forall in Hinputs. now apply Hinputs.
  - intros y tr'. unfold optimized_all_to_all, forward, cbind, lift.
    rewrite (world_size_resolved _ _ _ Hg).
    destruct (Nat.eqb_spec (group_size g) 1); [lia|]. now apply Hone.
  - intros e tr'. unfold optimized_all_to_all, forward, cbind, lift.
    rewrite (world_size_resolved _ _ _ Hg).
    destruct (Nat.eqb_spec (group_size g) 1); [lia|].
    destruct Hx as [Hsd Hgd].
    destruct (exchange_outcome env _ g _ scatter_dim gather_dim x tr
                Hg HW0 Hfill Hsd Hgd)
      as [(e' & out & inp & He & Hcall)|(y' & Hy & _)].
    + rewrite He. intros [= <- _]. eauto.
    + rewrite Hy. discriminate.
Qed.

(** X23 ([OptimizedAllToAll.forward], [OptimizedAllToAll.backward]).  On
    a group of size [W > 1] whose collective fills its output list in
    place, the gradient [backward] returns for the output of [forward] has
    the input's shape but for the scatter axis, which is [W] times the
    first chunk's length: the input's shape exactly when [W] divides the
    scatter axis, a longer axis when it does not.  Each pass has called the
    collective once. *)
Theorem backward_shape (env : dist_state) (group : option ProcessGroup)
    (g : ProcessGroup) (ctx : context) (x y gx : tensor)
    (scatter_dim gather_dim : nat) (tr tr1 tr2 : list event) :
  resolve env group = inr g ->
  1 < group_size g ->
  fills_in_place g ->
  scatter_dim <> gather_dim ->
  scatter_dim < List.length (shape x) ->
  gather_dim < List.length (shape x) ->
  forward_ctx env scatter_dim gather_dim group = inr ctx ->
  forward env x scatter_dim gather_dim group tr = (inr y, tr1) ->
  backward env ctx y tr1 = (inr gx, tr2) ->
  let W := group_size g in
  let L := size x scatter_dim in
  shape gx = set_nth scatter_dim (W * first_length L W) (shape x) /\
  (L mod W = 0 -> shape gx = shape x) /\
  (L mod W <> 0 -> size gx scatter_dim > L) /\
  tr2 = app tr [AllToAll; AllToAll].
Proof.
  intros Hg HW Hfill Hne Hsd Hgd Hctx Hfwd Hbwd W L. subst W L.
  assert (HW0 : group_size g <> 0) by lia.
  unfold forward_ctx in Hctx. rewrite (world_size_resolved _ _ _ Hg) in Hctx.
  cbn [bind ret] in Hctx. injection Hctx as <-.
  unfold forward, cbind, lift in Hfwd. rewrite (world_size_resolved _ _ _ Hg) in Hfwd.
  unfold backward in Hbwd. cbn [ctx_world_size ctx_group ctx_gather_dim ctx_scatter_dim] in Hbwd.
  destruct (Nat.eqb_spec (group_size g) 1); [lia|].
  destruct (exchange_outcome env _ g _ scatter_dim gather_dim x tr Hg HW0 Hfill Hsd Hgd)
    as [(e & out & inp & He & _)|(y' & Hy & Hshape)];
    [rewrite He in Hfwd; discriminate|].
  rewrite Hy in Hfwd. injection Hfwd as <- <-.
  rewrite exchanged_shape_distinct in Hshape by assumption.
  assert (Hlen : List.length (shape y') = List.length (shape x))
    by (now rewrite Hshape, !length_set_nth).
  destruct (exchange_outcome env _ g _ gather_dim scatter_dim y' (app tr [AllToAll])
              Hg HW0 Hfill ltac:(lia) ltac:(lia))
    as [(e & out & inp & He & _)|(gx' & Hgx & Hgshape)];
    [rewrite He in Hbwd; discriminate|].
  rewrite Hgx in Hbwd. injection Hbwd as <- <-.
  rewrite exchanged_shape_distinct in Hgshape by auto.
  assert (Hgather : nth gather_dim (shape y') 0
                    = group_size g * nth gather_dim (shape x) 0)
    by (rewrite Hshape; apply size_set_nth; now rewrite length_set_nth).
  assert (Hscatter : nth scatter_dim (shape y') 0
                     = first_length (nth scatter_dim (shape x) 0) (group_size g))
    by (rewrite Hshape, nth_set_nth_ne by auto; now apply size_set_nth).
  assert (Hfirst : first_length (group_size g * nth gather_dim (shape x) 0) (group_size g)
                   = nth gather_dim (shape x) 0).
  { unfold first_length. rewrite Nat.mul_comm, Nat.div_mul, Nat.Div0.mod_mul by assumption.
    simpl. lia. }
  assert (Hfinal : shape gx'
                   = set_nth scatter_dim
                       (group_size g
                        * first_length (nth scatter_dim (shape x) 0) (group_size g))
                       (shape x)).
  { rewrite Hgshape, Hscatter, Hgather, Hfirst, Hshape.
    rewrite set_nth_twice.
    rewrite (set_nth_comm gather_dim scatter_dim) by auto.
    rewrite set_nth_self, set_nth_twice. reflexivity. }
  split; [exact Hfinal|]. split; [|split].
  - intros Hmod. rewrite Hfinal. unfold first_length, size in *. rewrite Hmod. simpl.
    rewrite Nat.add_0_r.
    replace (group_size g * (nth scatter_dim (shape x) 0 / group_size g))
      with (nth scatter_dim (shape x) 0).
    + apply set_nth_self.
    + apply Nat.Div0.div_exact in Hmod. exact Hmod.
  - intros Hmod. unfold size. rewrite Hfinal, size_set_nth by assumption.
    unfold first_length, size in *.
    destruct (Nat.ltb_spec 0 (nth scatter_dim (shape x) 0 mod group_size g)); [|lia].
    pose proof (Nat.div_mod_eq (nth scatter_dim (shape x) 0) (group_size g)).
    pose proof (Nat.mod_upper_bound (nth scatter_dim (shape x) 0) (group_size g) HW0).
    nia.
  - now rewrite <- app_assoc.
Qed.

(** X24 ([overlapped_all_gather]).  On a group of size [W > 1] whose
    collective fills its output list in place, the tensor that comes back
    has the input's shape with the gathered axis multiplied by [W]; the
    call raises only what the collective raised, and has called it once. *)
Theorem overlapped_all_gather_shape (env : dist_state)
    (group : option ProcessGroup) (g : ProcessGroup) (x : tensor) (dim : nat)
    (tr : list event) :
  resolve env (or_nccl env group) = inr g ->
  1 < group_size g ->
  fills_in_place g ->
  dim < List.length (shape x) ->
  (exists e out inp,
      overlapped_all_gather env x dim group tr = (inl e, app tr [AllGather])
      /\ all_gather g out inp = inl e)
  \/ (exists y,
      overlapped_all_gather env x dim group tr = (inr y, app tr [AllGather])
      /\ shape y = set_nth dim (group_size g * size x dim) (shape x)).
Proof.
  intros Hg HW [_ Hfill] Hdim. unfold overlapped_all_gather, cbind, lift, call.
  rewrite (world_size_resolved _ _ _ Hg), Hg.
  destruct (Nat.eqb_spec (group_size g) 1); [lia|].
  destruct (all_gather g _ x) as [e|received] eqn:Ecall.
  - left. eexists _, _, _. split; [reflexivity|exact Ecall].
  - right. apply Hfill in Ecall. rewrite map_repeat in Ecall.
    cbn [shape empty_like] in Ecall.
    destruct (cat_same_shape received _ (group_size g) dim Ecall) as (y & Hy & Hshape);
      [lia|assumption|].
    exists y. split; [now rewrite Hy|exact Hshape].
Qed.

Lemma for_each_calls {A B : Type} (f : A -> Comm B) (ev : event) l :
  (forall a tr, exists n, n <= 1 /\ snd (f a tr) = app tr (repeat ev n)) ->
  forall tr, exists n, n <= List.length l /\ snd (for_each f l tr) = app tr (repeat ev n).
Proof.
  intros Hf. induction l as [|a l IH]; intros tr; simpl.
  - exists 0. split; [lia|]. simpl. now rewrite app_nil_r.
  - unfold cbind. destruct (Hf a tr) as (n1 & Hn1 & H1).
    destruct (f a tr) as [[e|b] tr1]; simpl in H1; subst tr1.
    + exists n1. split; [lia|reflexivity].
    + destruct (IH (app tr (repeat ev n1))) as (n2 & Hn2 & H2).
      destruct (for_each f l _) as [[e|bs] tr2]; simpl in H2; subst tr2;
        exists (n1 + n2); (split; [lia|]); simpl;
        now rewrite <- app_assoc, repeat_app.
Qed.

Lemma exchange_calls env group W sd gd x tr :
  exists n, n <= 1 /\ snd (exchange env group W sd gd x tr) = app tr (repeat AllToAll n).
Proof.
  unfold exchange, cbind, lift, call.
  destruct (tensor_split x W sd) as [e|input_list];
    [exists 0; split; [lia|simpl; now rewrite app_nil_r]|].
  destruct (first_of input_list) as [e|first];
    [exists 0; split; [lia|simpl; now rewrite app_nil_r]|].
  destruct (resolve env group) as [e|g];
    [exists 0; split; [lia|simpl; now rewrite app_nil_r]|].
  exists 1. split; [lia|].
  destruct (all_to_all g _ input_list) as [e|received]; [reflexivity|].
  destruct (cat received gd); reflexivity.
Qed.

(** X25 (the four operations).  Whatever the group, the input and the
    outcome, an operation keeps the calls made before it and calls only
    its own collective: [batched_all_to_all] at most once per tensor, the
    three others at most once. *)
Theorem collective_calls (env : dist_state) (group : option ProcessGroup)
    (inputs : list tensor) (x : tensor) (scatter_dim gather_dim dim src : nat)
    (tr : list event) :
  (exists n, n <= List.length inputs /\
     snd (batched_all_to_all env inputs scatter_dim gather_dim group tr)
     = app tr (repeat AllToAll n)) /\
  (exists n, n <= 1 /\
     snd (optimized_all_to_all env x scatter_dim gather_dim group tr)
     = app tr (repeat AllToAll n)) /\
  (exists n, n <= 1 /\
     snd (overlapped_all_gather env x dim group tr) = app tr (repeat AllGather n)) /\
  (exists n, n <= 1 /\
     snd (efficient_broadcast env x src group tr) = app tr (repeat Broadcast n)).
Proof.
  assert (Hnone : forall ev, app tr (repeat ev 0) = tr)
    by (intros; simpl; now rewrite app_nil_r).
  split; [|split; [|split]].
  - unfold batched_all_to_all, cbind, lift.
    destruct (get_world_size env (or_nccl env group)) as [e|W];
      [exists 0; split; [lia|now rewrite Hnone]|].
    destruct (W =? 1); [exists 0; split; [lia|now rewrite Hnone]|].
    apply for_each_calls. intros a tr0. apply exchange_calls.
  - unfold optimized_all_to_all, forward, cbind, lift.
    destruct (get_world_size env (or_nccl env group)) as [e|W];
      [exists 0; split; [lia|now rewrite Hnone]|].
    destruct (W =? 1); [exists 0; split; [lia|now rewrite Hnone]|].
    apply exchange_calls.
  - unfold overlapped_all_gather, cbind, lift, call.
    destruct (get_world_size env (or_nccl env group)) as [e|W];
      [exists 0; split; [lia|now rewrite Hnone]|].
    destruct (W =? 1); [exists 0; split; [lia|now rewrite Hnone]|].
    destruct (resolve env (or_nccl env group)) as [e|g];
      [exists 0; split; [lia|now rewrite Hnone]|].
    exists 1. split; [lia|].
    destruct (all_gather g _ x) as [e|received]; [reflexivity|].
    destruct (cat received dim); reflexivity.
  - unfold efficient_broadcast, cbind, lift, call.
    destruct (resolve env (or_nccl env group)) as [e|g];
      [exists 0; split; [lia|now rewrite Hnone]|].
    exists 1. split; [lia|reflexivity].
Qed.

(** *** The chunks of an uneven split *)

Definition chunk_start (L n k : nat) : nat := k * (L / n) + Nat.min k (L mod n).

Definition chunk_length (L n k : nat) : nat :=
  L / n + (if k <? L mod n then 1 else 0).

(** X29 ([batched_all_to_all], [OptimizedAllToAll.forward]: the split).
    Whatever the length of the axis, the [W] chunks handed to the
    collective tile it: the first starts at 0, each starts where the one
    before it ends, the last ends at the end of the axis, and no two
    lengths differ by more than one. *)
Theorem tensor_split_tiles (t : tensor) (n dim : nat) :
  n <> 0 -> dim < List.length (shape t) ->
  let L := size t dim in
  exists chunks,
    tensor_split t n dim = inr chunks /\
    List.length chunks = n /\
    (forall k, k < n ->
       nth_error chunks k
       = Some (narrow t dim (chunk_start L n k) (chunk_length L n k))) /\
    chunk_start L n 0 = 0 /\
    (forall k, chunk_start L n (S k) = chunk_start L n k + chunk_length L n k) /\
    chunk_start L n n = L /\
    (forall k, L / n <= chunk_length L n k <= L / n + 1).
Proof.
  intros Hn Hdim L. unfold tensor_split.
  destruct (Nat.eqb_spec n 0); [contradiction|].
  destruct (Nat.leb_spec (List.length (shape t)) dim); [lia|].
  eexists. split; [reflexivity|]. fold L.
  split; [now rewrite length_map, length_seq|].
  split; [|split; [|split; [|split]]].
  - intros k Hk. rewrite nth_error_map, nth_error_seq.
    destruct (Nat.ltb_spec k n); [reflexivity|lia].
  - reflexivity.
  - intros k. unfold chunk_start, chunk_length.
    destruct (Nat.ltb_spec k (L mod n)); lia.
  - unfold chunk_start. pose proof (Nat.mod_upper_bound L n Hn).
    pose proof (Nat.div_mod_eq L n). lia.
  - intros k. unfold chunk_length. destruct (k <? L mod n); lia.
Qed.

End Transport.

Arguments shape {T} _.
Arguments at_ {T} _ _.
Arguments group_size {T} _.

(** *** Sample groups, with integer entries *)

(** The only rank of a one-rank group. *)
Definition solo : ProcessGroup Z :=
  {| group_size := 1;
     all_to_all := fun _ input_list => ret input_list;
     all_gather := fun _ x => ret [x];
     broadcast := fun x _ => ret x |}.

(** A process in which neither group has been initialised. *)
Definition uninitialised : dist_state Z :=
  {| nccl_info_group := None; default_group := None |}.

(** The entries 0 .. n-1 along the last of three axes. *)
Definition ramp (n : nat) : tensor Z :=
  {| shape := [1; 1; n]; at_ := fun idx => Z.of_nat (nth 2 idx 0) |}.

Lemma world_size_one_identity_witness :
  batched_all_to_all Z 0%Z uninitialised [ramp 3] 2 1 (Some solo) []
  = (inr [ramp 3], []).
Proof.
  exact (proj1 (world_size_one_identity Z 0%Z uninitialised (Some solo) solo
                  [ramp 3] (ramp 3) 2 1 1 [] eq_refl eq_refl)).
Defined.

(** On one device [efficient_broadcast] still calls the collective, and
    without an initialised group [batched_all_to_all] raises instead of
    returning its input. *)
Lemma single_device_still_needs_group :
  snd (efficient_broadcast Z uninitialised (ramp 3) 0 (Some solo) []) = [Broadcast] /\
  batched_all_to_all Z 0%Z uninitialised [ramp 3] 2 1 None []
  = (inl (ValueError "Default process group has not been initialized"), []).
Proof.
  split; reflexivity.
Qed.

(** *** A backend that checks its buffers *)

Fixpoint same_shapes (l1 l2 : list (list nat)) : bool :=
  match l1, l2 with
  | [], [] => true
  | a :: r1, b :: r2 => shape_eqb a b && same_shapes r1 r2
  | _, _ => false
  end.

(** Rank 0 of a two-rank group in which both ranks hold the same tensor,
    on a backend that refuses buffers of another shape than what it
    delivers. *)
Definition mirror_checked : ProcessGroup Z :=
  {| group_size := 2;
     all_to_all := fun output_list input_list =>
       match input_list with
       | c0 :: _ =>
           if same_shapes (map shape output_list) [shape c0; shape c0]
           then ret [c0; c0]
           else raise (RuntimeError "output buffers do not match")
       | [] => raise (RuntimeError "empty input list")
       end;
     all_gather := fun tensor_list x =>
       if same_shapes (map shape tensor_list) [shape x; shape x]
       then ret [x; x]
       else raise (RuntimeError "output buffers do not match");
     broadcast := fun x _ => ret x |}.

Lemma shape_eqb_eq s1 s2 : shape_eqb s1 s2 = true -> s1 = s2.
Proof.
  revert s2. induction s1 as [|a s1 IH]; intros [|b s2]; simpl; try discriminate;
    [reflexivity|].
  intros H. apply andb_true_iff in H as [Hab Hrest].
  apply Nat.eqb_eq in Hab. subst. f_equal. now apply IH.
Qed.

Lemma same_shapes_eq l1 l2 : same_shapes l1 l2 = true -> l1 = l2.
Proof.
  revert l2. induction l1 as [|a l1 IH]; intros [|b l2]; simpl; try discriminate;
    [reflexivity|].
  intros H. apply andb_true_iff in H as [Hab Hrest].
  apply shape_eqb_eq in Hab. subst. f_equal. now apply IH.
Qed.

Lemma mirror_checked_fills : fills_in_place Z mirror_checked.
Proof.
  split.
  - intros out [|c0 inp] r; simpl; [discriminate|].
    destruct (same_shapes _ _) eqn:E; [|discriminate].
    intros [= <-]. apply same_shapes_eq in E. now rewrite E.
  - intros out x r; simpl.
    destruct (same_shapes _ _) eqn:E; [|discriminate].
    intros [= <-]. apply same_shapes_eq in E. now rewrite E.
Qed.

Lemma all_to_all_shape_witness :
  exists y,
    optimized_all_to_all Z 0%Z uninitialised (ramp 3) 2 1 (Some mirror_checked) []
    = (inr y, [AllToAll]) /\
    shape y = [1; 2; 2].
Proof.
  destruct (all_to_all_shape Z 0%Z uninitialised (Some mirror_checked) mirror_checked
              [ramp 4] (ramp 3) 2 1 [] eq_refl ltac:(simpl; lia)
              mirror_checked_fills ltac:(lia)
              ltac:(repeat constructor; simpl; lia))
    as (_ & Hopt & _).
  eexists. split; [cbv; reflexivity|]. exact (Hopt _ _ eq_refl).
Defined.

Lemma backward_shape_witness :
  exists y gx,
    forward Z 0%Z uninitialised (ramp 4) 2 1 (Some mirror_checked) []
    = (inr y, [AllToAll]) /\
    backward Z 0%Z uninitialised
      {| ctx_scatter_dim := 2; ctx_gather_dim := 1;
         ctx_group := Some mirror_checked; ctx_world_size := 2 |} y [AllToAll]
    = (inr gx, [AllToAll; AllToAll]) /\
    shape gx = [1; 1; 4].
Proof.
  eexists _, _. split; [cbv; reflexivity|]. split; [cbv; reflexivity|].
  exact (proj1 (backward_shape Z 0%Z uninitialised (Some mirror_checked)
                  mirror_checked _ (ramp 4) _ _ 2 1 [] _ _
                  eq_refl ltac:(simpl; lia) mirror_checked_fills ltac:(lia)
                  ltac:(simpl; lia) ltac:(simpl; lia) eq_refl eq_refl eq_refl)).
Defined.

Lemma overlapped_all_gather_shape_witness :
  exists y,
    overlapped_all_gather Z 0%Z uninitialised (ramp 3) 1 (Some mirror_checked) []
    = (inr y, [AllGather]) /\
    shape y = [1; 2; 3].
Proof.
  destruct (overlapped_all_gather_shape Z 0%Z uninitialised (Some mirror_checked)
              mirror_checked (ramp 3) 1 [] eq_refl ltac:(simpl; lia)
              mirror_checked_fills ltac:(simpl; lia))
    as [(e & out & inp & He & _)|(y & Hy & Hs)].
  - discriminate He.
  - exists y. split; [exact Hy|exact Hs].
Defined.




Lemma tensor_split_tiles_witness :
  exists chunks,
    tensor_split Z (ramp 3) 2 2 = inr chunks /\
    List.length chunks = 2 /\
    (forall k, k < 2 ->
       nth_error chunks k
       = Some (narrow Z (ramp 3) 2 (chunk_start 3 2 k) (chunk_length 3 2 k))) /\
    chunk_start 3 2 0 = 0 /\
    (forall k, chunk_start 3 2 (S k) = chunk_start 3 2 k + chunk_length 3 2 k) /\
    chunk_start 3 2 2 = 3 /\
    (forall k, 3 / 2 <= chunk_length 3 2 k <= 3 / 2 + 1).
Proof.
  apply (tensor_split_tiles Z (ramp 3) 2 2); simpl; lia.
Defined.

End Collective.

(** ** The buffer pool ([CommunicationBuffer] of
    [ovi/distributed_comms/optimized_comms.py])

    Tensors are objects: a buffer is named by its position in the store of
    the tensors allocated so far, so that two requests can be seen to
    return the same object. *)

Module CommBuffers.
Import Py.
Local Open Scope string_scope.
Local Open Scope Z_scope.

(** [(tuple(shape), dtype, device)], the dtype and the device by name. *)
Definition key : Type := (list Z * string * string)%type.

Definition key_eq_dec (k1 k2 : key) : {k1 = k2} + {k1 <> k2}.
Proof. repeat decide equality. Defined.

(** An allocated tensor, its contents being whatever the memory held. *)
Record allocated : Type := {
  a_shape : list Z;
  a_dtype : string;
  a_device : string
}.

Definition store : Type := list allocated.

Record CommunicationBuffer : Type := {
  _buffers : list (key * nat)
}.

Definition init : CommunicationBuffer := {| _buffers := [] |}.

(** [torch.empty(shape, dtype=dtype, device=device)] *)
Definition torch_empty (s : store) (shape : list Z) (dtype device : string)
  : result (store * nat) :=
  if existsb (fun d => d <? 0) shape
  then raise (RuntimeError "Trying to create tensor with negative dimension")
  else ret (app s [{| a_shape := shape; a_dtype := dtype; a_device := device |}],
            List.length s).

Fixpoint find_key (k : key) (d : list (key * nat)) : option nat :=
  match d with
  | [] => None
  | (k', b) :: rest => if key_eq_dec k k' then Some b else find_key k rest
  end.

Definition get_buffer (s : store) (self : CommunicationBuffer)
    (shape : list Z) (dtype device : string)
  : result (store * CommunicationBuffer * nat) :=
  let key := (shape, dtype, device) in
  match find_key key (_buffers self) with
  | Some b => ret (s, self, b)
  | None =>
      r <- torch_empty s shape dtype device ;;
      ret (fst r, {| _buffers := app (_buffers self) [(key, snd r)] |}, snd r)
  end.

Definition clear (self : CommunicationBuffer) : CommunicationBuffer :=
  {| _buffers := [] |}.

(** What the pool keeps: no buffer is filed under two keys, and each is a
    tensor of the shape, dtype and device of its key; no tensor has a
    negative dimension. *)
Definition well_formed (s : store) (self : CommunicationBuffer) : Prop :=
  NoDup (map snd (_buffers self)) /\
  Forall (fun kb =>
            nth_error s (snd kb)
            = Some {| a_shape := fst (fst (fst kb)); a_dtype := snd (fst (fst kb));
                      a_device := snd (fst kb) |})
         (_buffers self) /\
  Forall (fun a => existsb (fun d => d <? 0) (a_shape a) = false) s.

Lemma find_key_In k d b : find_key k d = Some b -> In (k, b) d.
Proof.
  induction d as [|[k' b'] d IH]; simpl; [discriminate|].
  destruct (key_eq_dec k k') as [->|Hne].
  - intros [= ->]. now left.
  - intros H. right. now apply IH.
Qed.

Lemma find_key_app_miss k d b :
  find_key k d = None -> find_key k (app d [(k, b)]) = Some b.
Proof.
  induction d as [|[k' b'] d IH]; simpl.
  - intros _. destruct (key_eq_dec k k); [reflexivity|contradiction].
  - destruct (key_eq_dec k k'); [discriminate|]. exact IH.
Qed.

Lemma one_key_per_buffer (d : list (key * nat)) k1 k2 b :
  NoDup (map snd d) -> In (k1, b) d -> In (k2, b) d -> k1 = k2.
Proof.
  induction d as [|[k' b'] d IH]; simpl; [contradiction|].
  intros Hnd H1 H2. inversion Hnd as [|? ? Hnot Hrest]; subst.
  destruct H1 as [E1|H1], H2 as [E2|H2].
  - congruence.
  - exfalso. apply Hnot. apply (in_map snd) in H2. simpl in H2. congruence.
  - exfalso. apply Hnot. apply (in_map snd) in H1. simpl in H1. congruence.
  - now apply IH.
Qed.

Lemma well_formed_bound s self k b :
  well_formed s self -> In (k, b) (_buffers self) -> (b < List.length s)%nat.
Proof.
  intros (_ & Hall & _) Hin. rewrite Forall_forall in Hall. specialize (Hall _ Hin).
  apply nth_error_Some. simpl in Hall. congruence.
Qed.

(** A request keeps the pool well formed, and hands out a tensor of the
    shape, dtype and device asked for that the pool then holds under the
    key. *)
Lemma get_buffer_keeps s self shape dtype device s1 self1 b1 :
  well_formed s self ->
  get_buffer s self shape dtype device = inr (s1, self1, b1) ->
  well_formed s1 self1 /\
  find_key (shape, dtype, device) (_buffers self1) = Some b1 /\
  nth_error s1 b1
  = Some {| a_shape := shape; a_dtype := dtype; a_device := device |} /\
  (forall k b, In (k, b) (_buffers self) -> In (k, b) (_buffers self1)) /\
  (find_key (shape, dtype, device) (_buffers self) = None ->
   s1 = app s [{| a_shape := shape; a_dtype := dtype; a_device := device |}]) /\
  (find_key (shape, dtype, device) (_buffers self) <> None -> s1 = s /\ self1 = self).
Proof.
  intros Hwf. unfold get_buffer.
  destruct (find_key (shape, dtype, device) (_buffers self)) as [b|] eqn:Efind.
  - intros [= <- <- <-]. split; [exact Hwf|]. split; [exact Efind|].
    split; [|split; [auto|split; [discriminate|auto]]].
    destruct Hwf as (_ & Hall & _). rewrite Forall_forall in Hall.
    exact (Hall _ (find_key_In _ _ _ Efind)).
  - unfold torch_empty. destruct (existsb _ shape) eqn:Eneg; [discriminate|].
    cbn [bind ret fst snd]. intros [= <- <- <-]. cbn [_buffers].
    split; [|split; [now apply find_key_app_miss|split; [|split; [|split]]]].
    + pose proof Hwf as (Hnd & Hall & Hdims). unfold well_formed. cbn [_buffers].
      split; [|split].
      * rewrite map_app. simpl. apply NoDup_app; [exact Hnd|repeat constructor; auto|].
        intros b Hb [<-|[]]. apply in_map_iff in Hb as ([k b'] & Hb' & Hin).
        simpl in Hb'. subst b'.
        pose proof (well_formed_bound s self k _ Hwf Hin). lia.
      * apply Forall_app. split.
        -- eapply Forall_impl; [|exact Hall]. intros [k b] H. simpl in *.
           rewrite nth_error_app1; [exact H|]. apply nth_error_Some. congruence.
        -- constructor; [|constructor]. simpl.
           rewrite nth_error_app2, Nat.sub_diag by lia. reflexivity.
      * apply Forall_app. split; [exact Hdims|]. constructor; [exact Eneg|constructor].
    + rewrite nth_error_app2, Nat.sub_diag by lia. reflexivity.
    + intros k b Hin. apply in_or_app. now left.
    + auto.
    + intros H. now contradiction H.
Qed.

(** X27 ([CommunicationBuffer.get_buffer], [clear]).  On a well-formed
    pool, as the empty one is and as every request leaves it, two requests
    in a row return the same tensor object exactly when they ask for the
    same shape, dtype and device, and a repeated request allocates nothing;
    the tensor returned has the shape, dtype and device asked for; after
    [clear] the same request returns a newly allocated tensor, not the one
    handed out before. *)
Theorem get_buffer_caches (s : store) (self : CommunicationBuffer)
    (shape shape' : list Z) (dtype dtype' device device' : string)
    (s1 s2 : store) (self1 self2 : CommunicationBuffer) (b1 b2 : nat) :
  well_formed s self ->
  get_buffer s self shape dtype device = inr (s1, self1, b1) ->
  get_buffer s1 self1 shape' dtype' device' = inr (s2, self2, b2) ->
  well_formed s2 self2 /\
  (b1 = b2 <-> (shape, dtype, device) = (shape', dtype', device')) /\
  ((shape, dtype, device) = (shape', dtype', device') -> s2 = s1 /\ self2 = self1) /\
  nth_error s2 b2
  = Some {| a_shape := shape'; a_dtype := dtype'; a_device := device' |} /\
  exists s3 self3 b3,
    get_buffer s2 (clear self2) shape dtype device = inr (s3, self3, b3) /\
    b3 <> b1 /\ b3 = List.length s2.
Proof.
  intros Hwf H1 H2.
  destruct (get_buffer_keeps _ _ _ _ _ _ _ _ Hwf H1)
    as (Hwf1 & Hfind1 & Hnth1 & _ & _ & _).
  destruct (get_buffer_keeps _ _ _ _ _ _ _ _ Hwf1 H2)
    as (Hwf2 & Hfind2 & Hnth2 & Hkeep & Hmiss & Hhit).
  assert (Hb1 : (b1 < List.length s1)%nat)
    by (apply nth_error_Some; congruence).
  assert (Hgrow : (List.length s1 <= List.length s2)%nat).
  { destruct (find_key (shape', dtype', device') (_buffers self1)) eqn:E.
    - destruct Hhit as [-> _]; [discriminate|]. lia.
    - rewrite (Hmiss eq_refl), length_app. simpl. lia. }
  split; [exact Hwf2|]. split; [|split; [|split]].
  - split.
    + intros <-.
      apply (one_key_per_buffer (_buffers self2) _ _ b1 (proj1 Hwf2)).
      * apply Hkeep. now apply find_key_In.
      * now apply find_key_In.
    + intros Hk. rewrite <- Hk in *.
      destruct Hhit as [_ ->]; [congruence|]. congruence.
  - intros Hk. rewrite <- Hk in *. apply Hhit. congruence.
  - exact Hnth2.
  - unfold get_buffer, clear. cbn [_buffers find_key]. unfold torch_empty.
    assert (Hshape : existsb (fun d => d <? 0) shape = false).
    { destruct Hwf1 as (_ & _ & Hdims). rewrite Forall_forall in Hdims.
      exact (Hdims _ (nth_error_In _ _ Hnth1)). }
    rewrite Hshape. cbn [bind ret fst snd]. eexists _, _, _.
    split; [reflexivity|]. split; [lia|reflexivity].
Qed.

Lemma get_buffer_caches_witness :
  well_formed [{| a_shape := [2; 3]; a_dtype := "float16"; a_device := "cuda:0" |}]
    {| _buffers := [(([2; 3], "float16", "cuda:0"), 0%nat)] |} /\
  (0%nat = 0%nat <->
   ([2; 3], "float16", "cuda:0") = ([2; 3], "float16", "cuda:0")).
Proof.
  destruct (get_buffer_caches [] init [2; 3] [2; 3] "float16" "float16"
              "cuda:0" "cuda:0" _ _ _ _ _ _
              ltac:(repeat constructor) eq_refl eq_refl)
    as (Hwf & Hsame & _).
  split; [exact Hwf|exact Hsame].
Defined.

End CommBuffers.
